(** * vibecheck-mcp: hotspot classification, prompt construction,
      weakness-record cache and dependency audit

    A shallow embedding of the TypeScript sources
    (core/hotspot-collector.ts, core/prompt-builder.ts, core/file-reader.ts,
    core/npm-audit.ts, security-data/cwe-api.ts, tools/scan-codebase.ts)
    and the properties of the specification proved about it.

    Conventions.
    - A JavaScript string is the sequence of its UTF-16 code units
      ([list N]); [lit "abc"] is the string of an ASCII literal.
    - A JavaScript number that the code uses as an integer (sizes, lengths,
      counters, HTTP status) is a [Z].
    - A [Map] whose iteration order is observed is an association list in
      insertion order; a [Map] or [Set] used only through has/get/set/size
      is a [gmap] or [gset].
    - Code that can throw returns a [Result]; try/catch is [try_catch]. *)

From Stdlib Require Import ZArith NArith List String Ascii Bool Lia Sorted.
From stdpp Require Import gmap.
Import ListNotations.

Set Default Proof Using "Type".
#[local] Set Warnings "-clear-no-such-hyp".

(* ===================================================================== *)
(** * Part I. Definitions                                                 *)
(* ===================================================================== *)

(** ** JavaScript strings *)

Abbreviation jsstring := (list N).

Definition lit (s : string) : jsstring :=
  List.map N_of_ascii (list_ascii_of_string s).
Arguments lit s%_string.

(** [s.length] *)
Definition jslength (s : jsstring) : Z := Z.of_nat (length s).

(** [s.slice(0, n)] for [0 <= n] *)
Definition slice0 (s : jsstring) (n : Z) : jsstring := firstn (Z.to_nat n) s.

(** [s.slice(1)] *)
Definition slice1 (s : jsstring) : jsstring := skipn 1 s.

(** A string is truthy when it is not empty. *)
Definition truthy_string (s : jsstring) : bool :=
  match s with [] => false | _ :: _ => true end.

(** [s.startsWith(p)] *)
Fixpoint startsWith (s p : jsstring) : bool :=
  match p, s with
  | [], _ => true
  | _ :: _, [] => false
  | c :: p', d :: s' => N.eqb c d && startsWith s' p'
  end.

(** [s.includes(p)] *)
Fixpoint includes (s p : jsstring) : bool :=
  startsWith s p ||
  match s with
  | [] => false
  | _ :: s' => includes s' p
  end.

(** [s.endsWith(p)] *)
Definition endsWith (s p : jsstring) : bool :=
  startsWith (rev s) (rev p).

(** [parts.join(sep)] *)
Fixpoint join (sep : jsstring) (parts : list jsstring) : jsstring :=
  match parts with
  | [] => []
  | [p] => p
  | p :: rest => p ++ sep ++ join sep rest
  end.

(** [s.split(sep)] for a one-unit separator: the last segment is what
    [.pop()] returns, and the list is never empty. *)
Fixpoint split_on (sep : N) (s : jsstring) : list jsstring :=
  match s with
  | [] => [[]]
  | c :: s' =>
      if N.eqb c sep then [] :: split_on sep s'
      else match split_on sep s' with
           | [] => [[c]]
           | seg :: segs => (c :: seg) :: segs
           end
  end.

(** Decimal rendering of a non-negative integer, as a template literal
    [`${n}`] prints it. *)
Definition digit_unit (d : N) : N := (48 + d)%N.

Fixpoint decimal_pos (fuel : nat) (n : N) (acc : jsstring) : jsstring :=
  match fuel with
  | O => acc
  | S fuel' =>
      let acc' := digit_unit (n mod 10) :: acc in
      if (n / 10 =? 0)%N then acc' else decimal_pos fuel' (n / 10)%N acc'
  end.

Definition decimal (n : Z) : jsstring :=
  let m := Z.to_N (Z.abs n) in
  let digits := decimal_pos (S (N.to_nat (N.log2 m))) m [] in
  if (n <? 0)%Z then lit "-" ++ digits else digits.

(** ** Exceptions *)

Inductive Result (A : Type) : Type :=
| Ok (a : A)
| Throw (msg : jsstring).
Arguments Ok {A} a.
Arguments Throw {A} msg.

Definition bind {A B} (r : Result A) (k : A -> Result B) : Result B :=
  match r with
  | Ok a => k a
  | Throw m => Throw m
  end.

(** [try { body } catch (e) { handler(e) }] *)
Definition try_catch {A} (body : Result A) (handler : jsstring -> Result A)
  : Result A :=
  match body with
  | Ok a => Ok a
  | Throw m => handler m
  end.

Notation "'let*' x ':=' c1 'in' c2" := (bind c1 (fun x => c2))
  (at level 10, x name, c1 at level 100, c2 at level 200).

(** ** Regular expressions

    The patterns of the source are built from literals, [\s], [[\s\S]],
    grouping, alternation, [?], [*], [+], and an anchor at either end.
    [RegExp.prototype.test] on a pattern without the g flag asks whether
    some substring is in the language of the pattern, which the
    derivative-based matcher below decides. *)

Inductive regex : Type :=
| Void
| Eps
| Lit (c : N)
| AnyUnit
| Space
| Seq (r1 r2 : regex)
| Alt (r1 r2 : regex)
| Star (r : regex).

Definition Opt (r : regex) : regex := Alt r Eps.
Definition Plus (r : regex) : regex := Seq r (Star r).

Record RegExp : Type := mkRegExp {
  body : regex;
  atStart : bool;       (* the pattern begins with ^ *)
  atEnd : bool;         (* the pattern ends with $ *)
  ignoreCase : bool     (* the i flag *)
}.

(** Canonicalize of the i flag (no u flag): the upper-case mapping, which is
    never allowed to send a unit above 127 to one below 128. All literals
    of the patterns are ASCII, so only the ASCII letters are folded. *)
Definition canonicalize (c : N) : N :=
  if ((97 <=? c) && (c <=? 122))%N then (c - 32)%N else c.

(** [\s]: WhiteSpace and LineTerminator of ECMAScript. *)
Definition is_space (c : N) : bool :=
  ((9 <=? c) && (c <=? 13) || (c =? 32) || (c =? 160) || (c =? 5760)
   || (8192 <=? c) && (c <=? 8202) || (c =? 8232) || (c =? 8233)
   || (c =? 8239) || (c =? 8287) || (c =? 12288) || (c =? 65279))%N.

Fixpoint nullable (r : regex) : bool :=
  match r with
  | Void => false
  | Eps => true
  | Lit _ => false
  | AnyUnit => false
  | Space => false
  | Seq r1 r2 => nullable r1 && nullable r2
  | Alt r1 r2 => nullable r1 || nullable r2
  | Star _ => true
  end.

(** The unit [c] of the text against the literal [d] of the pattern. *)
Definition unit_matches (i : bool) (c d : N) : bool :=
  if i then N.eqb (canonicalize c) (canonicalize d) else N.eqb c d.

Fixpoint deriv (i : bool) (c : N) (r : regex) : regex :=
  match r with
  | Void => Void
  | Eps => Void
  | Lit d => if unit_matches i c d then Eps else Void
  | AnyUnit => Eps
  | Space => if is_space c then Eps else Void
  | Seq r1 r2 =>
      if nullable r1
      then Alt (Seq (deriv i c r1) r2) (deriv i c r2)
      else Seq (deriv i c r1) r2
  | Alt r1 r2 => Alt (deriv i c r1) (deriv i c r2)
  | Star r1 => Seq (deriv i c r1) (Star r1)
  end.

(** The whole string is in the language of [r]. *)
Fixpoint matches (i : bool) (r : regex) (s : jsstring) : bool :=
  match s with
  | [] => nullable r
  | c :: s' => matches i (deriv i c r) s'
  end.

(** [re.test(s)] *)
Definition test (re : RegExp) (s : jsstring) : bool :=
  matches (ignoreCase re)
    (Seq (if atStart re then Eps else Star AnyUnit)
       (Seq (body re) (if atEnd re then Eps else Star AnyUnit)))
    s.

(** The language of a pattern, against which the matcher is checked. *)
Inductive lang (i : bool) : regex -> jsstring -> Prop :=
| lang_eps : lang i Eps []
| lang_lit c d : unit_matches i c d = true -> lang i (Lit d) [c]
| lang_any c : lang i AnyUnit [c]
| lang_space c : is_space c = true -> lang i Space [c]
| lang_seq r1 r2 s1 s2 :
    lang i r1 s1 -> lang i r2 s2 -> lang i (Seq r1 r2) (s1 ++ s2)
| lang_alt_l r1 r2 s : lang i r1 s -> lang i (Alt r1 r2) s
| lang_alt_r r1 r2 s : lang i r2 s -> lang i (Alt r1 r2) s
| lang_star_nil r : lang i (Star r) []
| lang_star_more r s1 s2 :
    lang i r s1 -> lang i (Star r) s2 -> lang i (Star r) (s1 ++ s2).

(** Pattern syntax helpers. *)
Definition str (s : string) : regex :=
  fold_right (fun c r => Seq (Lit c) r) Eps (lit s).

Fixpoint cat (rs : list regex) : regex :=
  match rs with
  | [] => Eps
  | [r] => r
  | r :: rs' => Seq r (cat rs')
  end.

Arguments str s%_string.

Fixpoint alts (rs : list regex) : regex :=
  match rs with
  | [] => Void
  | [r] => r
  | r :: rs' => Alt r (alts rs')
  end.

(** [/s/i] for a literal [s]. *)
Definition re_i (r : regex) : RegExp := mkRegExp r false false true.
(** [/r$/i] *)
Definition re_i_end (r : regex) : RegExp := mkRegExp r false true true.

(** ** Arrays

    [Array.prototype.sort] is stable, and for a consistent comparator its
    result is the one stable sorted arrangement: insertion from the right,
    each element going in front of the first one it does not exceed. *)

Section Sort.
Context {A : Type} (cmp : A -> A -> Z).

Fixpoint sort_insert (x : A) (l : list A) : list A :=
  match l with
  | [] => [x]
  | y :: l' => if (cmp x y >? 0)%Z then y :: sort_insert x l' else x :: y :: l'
  end.

Definition js_sort (l : list A) : list A := fold_right sort_insert [] l.

End Sort.

(** ** A [Map] in insertion order *)

Section OrderedMap.
Context {K V : Type} `{EqDecision K}.

Definition omap := list (K * V).

Fixpoint map_has (k : K) (m : omap) : bool :=
  match m with
  | [] => false
  | (k', _) :: m' => if decide (k = k') then true else map_has k m'
  end.

Fixpoint map_get (k : K) (m : omap) : option V :=
  match m with
  | [] => None
  | (k', v) :: m' => if decide (k = k') then Some v else map_get k m'
  end.

(** [m.set(k, v)]: an existing key keeps its place. *)
Fixpoint map_set (k : K) (v : V) (m : omap) : omap :=
  match m with
  | [] => [(k, v)]
  | (k', v') :: m' =>
      if decide (k = k') then (k', v) :: m' else (k', v') :: map_set k v m'
  end.

(** The value stored under [k] is changed in place. *)
Fixpoint map_modify (k : K) (f : V -> V) (m : omap) : omap :=
  match m with
  | [] => []
  | (k', v) :: m' =>
      if decide (k = k') then (k', f v) :: m' else (k', v) :: map_modify k f m'
  end.

End OrderedMap.
Arguments omap : clear implicits.

(** ** types/hotspot.ts *)

Inductive HotspotCategory : Type :=
| auth | api | database_rules | secrets_env | dependencies | data_flow.

#[global] Instance HotspotCategory_eq_dec : EqDecision HotspotCategory.
Proof. solve_decision. Defined.

(** The string of a category value. *)
Definition category_name (c : HotspotCategory) : jsstring :=
  match c with
  | auth => lit "auth"
  | api => lit "api"
  | database_rules => lit "database-rules"
  | secrets_env => lit "secrets-env"
  | dependencies => lit "dependencies"
  | data_flow => lit "data-flow"
  end.

Inductive HotspotPriority : Type := critical | high | medium.

#[global] Instance HotspotPriority_eq_dec : EqDecision HotspotPriority.
Proof. solve_decision. Defined.

Record ParsedFile : Type := mkFile {
  path : jsstring;
  content : jsstring;
  size : Z;
  extension : jsstring
}.

Record SecurityHotspot : Type := mkHotspot {
  category : HotspotCategory;
  files : list ParsedFile;
  priority : HotspotPriority;
  reason : jsstring
}.

Record HotspotAnalysis : Type := mkAnalysis {
  hotspots : list SecurityHotspot;
  skippedFiles : list jsstring;
  totalFiles : Z;
  securityRelevantFiles : Z
}.

Record CategoryPattern : Type := mkCategoryPattern {
  cp_category : HotspotCategory;
  cp_priority : HotspotPriority;
  cp_description : jsstring;
  pathPatterns : list RegExp;
  contentPatterns : list RegExp
}.

Record SkipPattern : Type := mkSkipPattern {
  sp_name : jsstring;
  sp_pattern : RegExp;
  sp_reason : jsstring
}.

(** ** core/hotspot-collector.ts *)

(** [/word/i] *)
Definition w (s : string) : RegExp := re_i (str s).
Arguments w s%_string.

Definition http_verbs : regex :=
  alts [str "get"; str "post"; str "put"; str "patch"; str "delete"].

Definition script_exts : regex :=
  alts [str "ts"; str "tsx"; str "js"; str "jsx"].

Definition CATEGORY_PATTERNS : list CategoryPattern :=
  [ mkCategoryPattern auth critical
      (lit "Authentication, authorization, and session management")
      [ w "auth"; w "login"; w "session"; w "middleware"; w "guard";
        w "passport"; w "oauth"; w "jwt"; w "token" ]
      [ w "verifyToken"; w "getServerSession"; w "useSession"; w "signIn";
        w "signOut"; w "authenticate"; w "authorize"; w "isAuthenticated";
        w "currentUser"; w "getUser"; w "requireAuth"; w "checkPermission";
        w "bcrypt"; w "argon2"; w "password"; w "credential" ];
    mkCategoryPattern api critical
      (lit "API routes and endpoints")
      [ w "/api/";
        re_i (cat [str "route"; Opt (str "s"); str "/"]);
        re_i (cat [str "controller"; Opt (str "s"); str "/"]);
        re_i (cat [str "handler"; Opt (str "s"); str "/"]);
        re_i (cat [str "endpoint"; Opt (str "s"); str "/"]) ]
      [ w "NextRequest"; w "NextResponse";
        re_i (cat [str "Request"; Star Space; str ","]);
        re_i (cat [str "Response"; Star Space; str ")"]);
        w "express()";
        re_i (cat [str "app."; http_verbs]);
        re_i (cat [str "router."; http_verbs]);
        w "createServerAction"; w "unstable_cache" ];
    mkCategoryPattern database_rules critical
      (lit "Database security rules and schemas")
      [ w "firestore.rules"; w "storage.rules"; w "database.rules";
        re_i_end (str ".prisma"); w "schema." ]
      [ re_i (cat [str "allow"; Plus Space;
                   alts [str "read"; str "write"; str "create"; str "update";
                         str "delete"]]);
        w "rules_version"; w "@@map"; w "createClient"; w "supabase";
        w "RLS" ];
    mkCategoryPattern secrets_env high
      (lit "Environment variables and secrets")
      [ w ".env"; w "config.";
        re_i (cat [str "secret"; Opt (str "s"); str "."]);
        re_i (cat [str "credential"; Opt (str "s"); str "."]) ]
      [ w "process.env"; w "import.meta.env"; w "NEXT_PUBLIC_"; w "VITE_";
        w "REACT_APP_"; w "API_KEY"; w "SECRET"; w "PASSWORD"; w "TOKEN";
        w "PRIVATE_KEY"; w "DATABASE_URL"; w "MONGODB_URI"; w "REDIS_URL" ];
    mkCategoryPattern dependencies high
      (lit "Package dependencies")
      [ re_i_end (str "package.json") ]
      [];
    mkCategoryPattern data_flow medium
      (lit "User input handling and data flow")
      []
      [ w "req.body"; w "req.query"; w "req.params"; w "request.json()";
        w "formData"; w "searchParams"; w "useSearchParams"; w "params.";
        w "dangerouslySetInnerHTML"; w "innerHTML"; w "eval(";
        w "new Function("; w "exec("; w "spawn("; w "child_process" ] ].

Definition SKIP_PATTERNS : list SkipPattern :=
  [ mkSkipPattern (lit "node_modules") (w "node_modules")
      (lit "Third-party dependencies");
    mkSkipPattern (lit "dist") (w "/dist/") (lit "Build output");
    mkSkipPattern (lit "build") (w "/build/") (lit "Build output");
    mkSkipPattern (lit ".next") (w "/.next/") (lit "Next.js build output");
    mkSkipPattern (lit "coverage") (w "/coverage/") (lit "Test coverage");
    mkSkipPattern (lit "test files")
      (re_i_end (cat [str "."; alts [str "test"; str "spec"]; str ".";
                      script_exts]))
      (lit "Test files");
    mkSkipPattern (lit "__tests__") (w "__tests__") (lit "Test directory");
    mkSkipPattern (lit "storybook")
      (re_i_end (cat [str ".stories."; script_exts]))
      (lit "Storybook files");
    mkSkipPattern (lit "type declarations") (re_i_end (str ".d.ts"))
      (lit "Type declarations only");
    mkSkipPattern (lit "CSS")
      (re_i_end (cat [str ".";
                      alts [str "css"; str "scss"; str "sass"; str "less"]]))
      (lit "Stylesheets");
    mkSkipPattern (lit "images")
      (re_i_end (cat [str ".";
                      alts [str "png"; str "jpg"; str "jpeg"; str "gif";
                            str "svg"; str "ico"; str "webp"]]))
      (lit "Images");
    mkSkipPattern (lit "fonts")
      (re_i_end (cat [str ".";
                      alts [str "woff"; str "woff2"; str "ttf"; str "eot";
                            str "otf"]]))
      (lit "Fonts");
    mkSkipPattern (lit "markdown")
      (re_i_end (cat [str "."; alts [str "md"; str "mdx"]]))
      (lit "Documentation");
    mkSkipPattern (lit "UI components") (w "components/ui/")
      (lit "UI component library");
    mkSkipPattern (lit "public assets") (w "/public/") (lit "Static assets");
    mkSkipPattern (lit "lock files")
      (re_i (alts [str "package-lock"; str "yarn.lock"; str "pnpm-lock"]))
      (lit "Lock files") ].

(** The first skip pattern that matches the path, if any. *)
Definition shouldSkipFile (file : ParsedFile) : option SkipPattern :=
  List.find (fun pattern => test (sp_pattern pattern) (path file)) SKIP_PATTERNS.

Definition category_matches (pattern : CategoryPattern) (file : ParsedFile)
  : bool :=
  let pathMatch := existsb (fun p => test p (path file)) (pathPatterns pattern) in
  let contentMatch :=
    existsb (fun p => test p (content file)) (contentPatterns pattern) in
  pathMatch || contentMatch.

Definition categorizeFile (file : ParsedFile) : list HotspotCategory :=
  fold_left
    (fun categories pattern =>
       if category_matches pattern file
       then categories ++ [cp_category pattern]
       else categories)
    CATEGORY_PATTERNS [].

Definition find_pattern (c : HotspotCategory) : option CategoryPattern :=
  List.find (fun p => bool_decide (cp_category p = c)) CATEGORY_PATTERNS.

Definition getCategoryPriority (c : HotspotCategory) : HotspotPriority :=
  match find_pattern c with
  | Some pattern => cp_priority pattern
  | None => medium
  end.

Definition getCategoryDescription (c : HotspotCategory) : jsstring :=
  match find_pattern c with
  | Some pattern =>
      if truthy_string (cp_description pattern) then cp_description pattern
      else category_name c
  | None => category_name c
  end.

Definition priorityOrder (p : HotspotPriority) : Z :=
  match p with
  | critical => 0
  | high => 1
  | medium => 2
  end.

(** One round of the inner loop: the bucket of [c] is created when absent
    and the file is pushed onto it. *)
Definition add_to_bucket (file : ParsedFile)
    (hotspotMap : omap HotspotCategory (list ParsedFile)) (c : HotspotCategory)
  : omap HotspotCategory (list ParsedFile) :=
  let hotspotMap1 :=
    if map_has c hotspotMap then hotspotMap else map_set c [] hotspotMap in
  map_modify c (fun bucket => bucket ++ [file]) hotspotMap1.

(** One round of the loop over the files. *)
Definition collect_step
    (st : omap HotspotCategory (list ParsedFile) * list jsstring)
    (file : ParsedFile)
  : omap HotspotCategory (list ParsedFile) * list jsstring :=
  let '(hotspotMap, skipped) := st in
  match shouldSkipFile file with
  | Some _ => (hotspotMap, skipped ++ [path file])
  | None => (fold_left (add_to_bucket file) (categorizeFile file) hotspotMap,
             skipped)
  end.

Definition build_hotspot (entry : HotspotCategory * list ParsedFile)
  : SecurityHotspot :=
  let '(c, categoryFiles) := entry in
  mkHotspot c categoryFiles (getCategoryPriority c) (getCategoryDescription c).

Definition by_priority (a b : SecurityHotspot) : Z :=
  (priorityOrder (priority a) - priorityOrder (priority b))%Z.

(** The paths added to [securityRelevantSet]. *)
Definition securityRelevantSet (hs : list SecurityHotspot) : gset jsstring :=
  fold_left
    (fun acc hotspot =>
       fold_left (fun acc' file => acc' ∪ {[ path file ]}) (files hotspot) acc)
    hs ∅.

Definition collectSecurityHotspots (fs : list ParsedFile) : HotspotAnalysis :=
  let '(hotspotMap, skipped) := fold_left collect_step fs ([], []) in
  let unsorted := List.map build_hotspot hotspotMap in
  let sorted := js_sort by_priority unsorted in
  mkAnalysis sorted skipped (Z.of_nat (length fs))
    (Z.of_nat (base.size (securityRelevantSet sorted))).

(** [categorySet.has(c)] is membership of [c] in [categories]. *)
Definition filterHotspots (analysis : HotspotAnalysis)
    (categories : list HotspotCategory) : HotspotAnalysis :=
  mkAnalysis
    (List.filter (fun h => bool_decide (category h ∈ categories))
       (hotspots analysis))
    (skippedFiles analysis) (totalFiles analysis)
    (securityRelevantFiles analysis).

(** ** core/prompt-builder.ts: the user prompt *)

Definition nl : jsstring := [10%N].
Definition backticks : jsstring := lit "```".

Definition truncation_marker : jsstring := nl ++ lit "... [truncated]".

Definition truncateContent (content : jsstring) (maxChars : Z) : jsstring :=
  if (jslength content <=? maxChars)%Z then content
  else slice0 content maxChars ++ truncation_marker.

Definition default_maxChars : Z := 8000.
Definition maxTotalChars : Z := 100000.

(** An element of [parts]: the block of a file with the body serialized
    for it, or the line that counts the files left out. *)
Inductive part : Type :=
| FilePart (file : ParsedFile) (body : jsstring)
| OmittedPart (count : Z).

Definition file_block (file : ParsedFile) (body : jsstring) : jsstring :=
  nl ++ lit "### File: " ++ path file ++ nl ++ backticks ++
  (if truthy_string (slice1 (extension file)) then slice1 (extension file)
   else lit "text") ++
  nl ++ body ++ nl ++ backticks.

Definition omitted_line (count : Z) : jsstring :=
  nl ++ lit "... and " ++ decimal count ++
  lit " more files (truncated for size)".

(** The string pushed onto [parts]. *)
Definition render_part (p : part) : jsstring :=
  match p with
  | FilePart file body => file_block file body
  | OmittedPart count => omitted_line count
  end.

Definition by_size (a b : ParsedFile) : Z := (size a - size b)%Z.

(** The loop of formatFilesForPrompt over the files still to visit; [n] is
    [sorted.length]. *)
Fixpoint format_loop (n : Z) (rest : list ParsedFile) (parts : list part)
    (totalChars : Z) : list part :=
  match rest with
  | [] => parts
  | file :: rest' =>
      if (totalChars >? maxTotalChars)%Z
      then parts ++ [OmittedPart (n - Z.of_nat (length parts))]
      else
        let body := truncateContent (content file) default_maxChars in
        format_loop n rest' (parts ++ [FilePart file body])
          (totalChars + jslength body)
  end.

Definition format_parts (fs : list ParsedFile) : list part :=
  let sorted := js_sort by_size fs in
  format_loop (Z.of_nat (length sorted)) sorted [] 0.

Definition formatFilesForPrompt (fs : list ParsedFile) : jsstring :=
  join nl (List.map render_part (format_parts fs)).

Definition buildUserPrompt (hotspot : SecurityHotspot) : jsstring :=
  let filesContent := formatFilesForPrompt (files hotspot) in
  lit "Analyze these " ++ category_name (category hotspot) ++
  lit " files for security vulnerabilities:" ++ nl ++ nl ++
  filesContent ++ nl ++ nl ++
  lit "Respond with a JSON object containing your findings.".

(** ** JSON values and [JSON.parse]

    A number keeps its exact decimal value [(-1)^neg * mantissa * 10^exp10];
    the only use the code makes of a parsed number is its truthiness. An
    object keeps its members in source order; a later member with the same
    key overrides an earlier one. *)

Record JsNumber : Type := mkNumber {
  neg : bool;
  mantissa : N;
  exp10 : Z
}.

#[warnings="-register-all"]
Inductive JsValue : Type :=
| JNull
| JBool (b : bool)
| JNumber (n : JsNumber)
| JString (s : jsstring)
| JArray (elements : list JsValue)
| JObject (members : list (jsstring * JsValue)).

Inductive token : Type :=
| TLBrace | TRBrace | TLBracket | TRBracket | TColon | TComma
| TAtom (v : JsValue).

(** Lexer modes; accumulators are kept reversed. *)
Inductive lex_mode : Type :=
| LDefault
| LString (acc : jsstring)
| LEscape (acc : jsstring)
| LUnicode (acc : jsstring) (hex : list N)
| LNumber (acc : jsstring)
| LWord (acc : jsstring).

Definition is_digit (c : N) : bool := ((48 <=? c) && (c <=? 57))%N.

Definition hex_value (c : N) : option N :=
  if is_digit c then Some (c - 48)%N
  else if ((97 <=? c) && (c <=? 102))%N then Some (c - 87)%N
  else if ((65 <=? c) && (c <=? 70))%N then Some (c - 55)%N
  else None.

Definition is_number_unit (c : N) : bool :=
  (is_digit c || (c =? 43) || (c =? 45) || (c =? 46) || (c =? 69)
   || (c =? 101))%N.

Definition is_word_unit (c : N) : bool := ((97 <=? c) && (c <=? 122))%N.

Definition is_json_space (c : N) : bool :=
  ((c =? 9) || (c =? 10) || (c =? 13) || (c =? 32))%N.

(** Leading digits of [s] and what follows them. *)
Fixpoint take_digits (s : jsstring) : jsstring * jsstring :=
  match s with
  | c :: s' =>
      if is_digit c
      then let '(ds, rest) := take_digits s' in (c :: ds, rest)
      else ([], s)
  | [] => ([], [])
  end.

Definition digits_value (ds : jsstring) : N :=
  fold_left (fun acc c => (10 * acc + (c - 48))%N) ds 0%N.

(** The number grammar of JSON: an optional minus sign; an integer part
    that is 0 or begins with a non-zero digit; an optional fraction of a dot
    and at least one digit; an optional exponent of e or E, an optional
    sign and at least one digit. *)
Definition parse_number (s : jsstring) : option JsNumber :=
  let '(negative, s1) :=
    match s with
    | 45%N :: s' => (true, s')
    | _ => (false, s)
    end in
  let '(int_part, s2) := take_digits s1 in
  match int_part with
  | [] => None
  | d :: ds =>
      if (d =? 48)%N && negb (bool_decide (ds = [])) then None
      else
        let frac_result :=
          match s2 with
          | 46%N :: s' =>
              let '(fs, s3) := take_digits s' in
              match fs with
              | [] => None
              | _ => Some (fs, s3)
              end
          | _ => Some ([], s2)
          end in
        match frac_result with
        | None => None
        | Some (frac_part, s3) =>
            let exp_result :=
              match s3 with
              | [] => Some 0%Z
              | e :: s' =>
                  if ((e =? 69) || (e =? 101))%N then
                    let '(eneg, s4) :=
                      match s' with
                      | 45%N :: s'' => (true, s'')
                      | 43%N :: s'' => (false, s'')
                      | _ => (false, s')
                      end in
                    let '(es, s5) := take_digits s4 in
                    match es, s5 with
                    | _ :: _, [] =>
                        let v := Z.of_N (digits_value es) in
                        Some (if eneg then (- v)%Z else v)
                    | _, _ => None
                    end
                  else None
              end in
            match exp_result with
            | None => None
            | Some e =>
                Some (mkNumber negative
                        (digits_value (int_part ++ frac_part))
                        (e - Z.of_nat (length frac_part)))
            end
        end
  end.

Definition syntax_error : jsstring := lit "SyntaxError".

Definition finish_word (acc : jsstring) : Result token :=
  let word := rev acc in
  if bool_decide (word = lit "true") then Ok (TAtom (JBool true))
  else if bool_decide (word = lit "false") then Ok (TAtom (JBool false))
  else if bool_decide (word = lit "null") then Ok (TAtom JNull)
  else Throw syntax_error.

Definition finish_number (acc : jsstring) : Result token :=
  match parse_number (rev acc) with
  | Some n => Ok (TAtom (JNumber n))
  | None => Throw syntax_error
  end.

(** A unit read in default mode. *)
Definition lex_default (c : N) (toks : list token)
  : Result (lex_mode * list token) :=
  if is_json_space c then Ok (LDefault, toks)
  else if (c =? 123)%N then Ok (LDefault, TLBrace :: toks)
  else if (c =? 125)%N then Ok (LDefault, TRBrace :: toks)
  else if (c =? 91)%N then Ok (LDefault, TLBracket :: toks)
  else if (c =? 93)%N then Ok (LDefault, TRBracket :: toks)
  else if (c =? 58)%N then Ok (LDefault, TColon :: toks)
  else if (c =? 44)%N then Ok (LDefault, TComma :: toks)
  else if (c =? 34)%N then Ok (LString [], toks)
  else if (is_digit c || (c =? 45)%N) then Ok (LNumber [c], toks)
  else if is_word_unit c then Ok (LWord [c], toks)
  else Throw syntax_error.

Definition lex_step (st : lex_mode * list token) (c : N)
  : Result (lex_mode * list token) :=
  let '(mode, toks) := st in
  match mode with
  | LDefault => lex_default c toks
  | LString acc =>
      if (c =? 34)%N then Ok (LDefault, TAtom (JString (rev acc)) :: toks)
      else if (c =? 92)%N then Ok (LEscape acc, toks)
      else if (c <? 32)%N then Throw syntax_error
      else Ok (LString (c :: acc), toks)
  | LEscape acc =>
      if (c =? 34)%N then Ok (LString (34%N :: acc), toks)
      else if (c =? 92)%N then Ok (LString (92%N :: acc), toks)
      else if (c =? 47)%N then Ok (LString (47%N :: acc), toks)
      else if (c =? 98)%N then Ok (LString (8%N :: acc), toks)
      else if (c =? 102)%N then Ok (LString (12%N :: acc), toks)
      else if (c =? 110)%N then Ok (LString (10%N :: acc), toks)
      else if (c =? 114)%N then Ok (LString (13%N :: acc), toks)
      else if (c =? 116)%N then Ok (LString (9%N :: acc), toks)
      else if (c =? 117)%N then Ok (LUnicode acc [], toks)
      else Throw syntax_error
  | LUnicode acc hex =>
      match hex_value c with
      | None => Throw syntax_error
      | Some v =>
          match hex with
          | [h2; h1; h0] =>
              Ok (LString ((((h0 * 16 + h1) * 16 + h2) * 16 + v)%N :: acc),
                  toks)
          | _ => Ok (LUnicode acc (v :: hex), toks)
          end
      end
  | LNumber acc =>
      if is_number_unit c then Ok (LNumber (c :: acc), toks)
      else
        let* t := finish_number acc in
        lex_default c (t :: toks)
  | LWord acc =>
      if is_word_unit c then Ok (LWord (c :: acc), toks)
      else
        let* t := finish_word acc in
        lex_default c (t :: toks)
  end.

Fixpoint lex_loop (st : lex_mode * list token) (s : jsstring)
  : Result (lex_mode * list token) :=
  match s with
  | [] => Ok st
  | c :: s' =>
      let* st' := lex_step st c in
      lex_loop st' s'
  end.

Definition lex (s : jsstring) : Result (list token) :=
  let* st := lex_loop (LDefault, []) s in
  let '(mode, toks) := st in
  match mode with
  | LDefault => Ok (rev toks)
  | LNumber acc =>
      let* t := finish_number acc in Ok (rev (t :: toks))
  | LWord acc =>
      let* t := finish_word acc in Ok (rev (t :: toks))
  | LString _ | LEscape _ | LUnicode _ _ => Throw syntax_error
  end.

(** The parser keeps the containers that are still open on a stack. *)
Inductive frame : Type :=
| InArr (elems : list JsValue)
| InObj (members : list (jsstring * JsValue)) (key : option jsstring).

Inductive parse_state : Type :=
| ExpValue (stack : list frame) (mayClose : bool)
| ExpKey (stack : list frame) (mayClose : bool)
| ExpColon (stack : list frame)
| AfterValue (stack : list frame)
| Done (v : JsValue).

(** A value is complete: it is the result, or it goes into the innermost
    open container. *)
Definition complete (v : JsValue) (stack : list frame) : Result parse_state :=
  match stack with
  | [] => Ok (Done v)
  | InArr es :: st => Ok (AfterValue (InArr (v :: es) :: st))
  | InObj ms (Some k) :: st => Ok (AfterValue (InObj ((k, v) :: ms) None :: st))
  | InObj _ None :: _ => Throw syntax_error
  end.

Definition parse_step (st : parse_state) (t : token) : Result parse_state :=
  match st, t with
  | ExpValue stack _, TAtom v => complete v stack
  | ExpValue stack _, TLBracket => Ok (ExpValue (InArr [] :: stack) true)
  | ExpValue stack _, TLBrace => Ok (ExpKey (InObj [] None :: stack) true)
  | ExpValue (InArr [] :: stack) true, TRBracket => complete (JArray []) stack
  | ExpKey (InObj ms None :: stack) _, TAtom (JString k) =>
      Ok (ExpColon (InObj ms (Some k) :: stack))
  | ExpKey (InObj [] None :: stack) true, TRBrace => complete (JObject []) stack
  | ExpColon stack, TColon => Ok (ExpValue stack false)
  | AfterValue (InArr es :: stack), TComma =>
      Ok (ExpValue (InArr es :: stack) false)
  | AfterValue (InArr es :: stack), TRBracket =>
      complete (JArray (rev es)) stack
  | AfterValue (InObj ms None :: stack), TComma =>
      Ok (ExpKey (InObj ms None :: stack) false)
  | AfterValue (InObj ms None :: stack), TRBrace =>
      complete (JObject (rev ms)) stack
  | _, _ => Throw syntax_error
  end.

Fixpoint parse_loop (st : parse_state) (ts : list token) : Result parse_state :=
  match ts with
  | [] => Ok st
  | t :: ts' =>
      let* st' := parse_step st t in
      parse_loop st' ts'
  end.

Definition JSON_parse (text : jsstring) : Result JsValue :=
  let* ts := lex text in
  let* st := parse_loop (ExpValue [] false) ts in
  match st with
  | Done v => Ok v
  | _ => Throw syntax_error
  end.

(** ToBoolean. A number is falsy when the double nearest to it is zero:
    when it is zero, or at most 2^-1075 in magnitude. *)
Definition number_is_zero (n : JsNumber) : bool :=
  (mantissa n =? 0)%N ||
  ((exp10 n <? 0)%Z &&
   (Z.of_N (mantissa n) * 2 ^ 1075 <=? 10 ^ (- exp10 n))%Z).

Definition truthy (v : JsValue) : bool :=
  match v with
  | JNull => false
  | JBool b => b
  | JNumber n => negb (number_is_zero n)
  | JString s => truthy_string s
  | JArray _ => true
  | JObject _ => true
  end.

(** The own property [k] of an object: its last member with that key. *)
Fixpoint lookup_member (k : jsstring) (ms : list (jsstring * JsValue))
  : option JsValue :=
  match ms with
  | [] => None
  | (k', v) :: ms' =>
      match lookup_member k ms' with
      | Some v' => Some v'
      | None => if bool_decide (k = k') then Some v else None
      end
  end.

(** [v.k] for a property name [k] that no prototype defines and that is no
    array index: [None] is undefined; reading a property of null throws. *)
Definition get_prop (v : JsValue) (k : jsstring) : Result (option JsValue) :=
  match v with
  | JNull => Throw (lit "TypeError")
  | JObject ms => Ok (lookup_member k ms)
  | _ => Ok None
  end.

(** ** core/prompt-builder.ts: the response parser *)

Record AISecurityResponse : Type := mkAIResponse {
  findings : list JsValue;
  summary : JsValue
}.

(** [response.match(/\{[\s\S]*\}/)]: the match starts at the first opening
    brace that has a closing brace after it, which is the first opening
    brace of the text, and being greedy it ends at the last closing brace. *)
Fixpoint from_first_open (s : jsstring) : option jsstring :=
  match s with
  | [] => None
  | c :: s' => if (c =? 123)%N then Some s' else from_first_open s'
  end.

(** [s] without what follows its last closing brace. *)
Fixpoint through_last_close (s : jsstring) : option jsstring :=
  match s with
  | [] => None
  | c :: s' =>
      match through_last_close s' with
      | Some t => Some (c :: t)
      | None => if (c =? 125)%N then Some [c] else None
      end
  end.

(** [/\{[\s\S]*\}/] *)
Definition BRACES : RegExp :=
  mkRegExp (cat [Lit 123; Star AnyUnit; Lit 125]) false false false.

Definition jsonMatch (response : jsstring) : option jsstring :=
  match from_first_open response with
  | None => None
  | Some after =>
      match through_last_close after with
      | None => None
      | Some t => Some (123%N :: t)
      end
  end.

Definition parseAIResponse (response : jsstring) : Result AISecurityResponse :=
  match jsonMatch response with
  | None =>
      Ok (mkAIResponse [] (JString (lit "Could not parse AI response")))
  | Some text =>
      try_catch
        (let* parsed := JSON_parse text in
         let* parsed_findings := get_prop parsed (lit "findings") in
         let* parsed_summary := get_prop parsed (lit "summary") in
         Ok (mkAIResponse
               match parsed_findings with
               | Some (JArray elements) => elements
               | _ => []
               end
               match parsed_summary with
               | Some v => if truthy v then v
                           else JString (lit "Analysis complete")
               | None => JString (lit "Analysis complete")
               end))
        (fun _ =>
           Ok (mkAIResponse []
                 (JString (lit "Could not parse AI response as JSON"))))
  end.

(** ** security-data/cwe-api.ts *)

(** The record at its declared type: every field holds what its type
    says. [transformCWEResponse] below is the function on a payload of the
    declared type; the function as it runs on any payload follows it. *)
Record CWEData : Type := mkCWEData {
  cwe_id : jsstring;
  cwe_name : jsstring;
  cwe_description : jsstring;
  extendedDescription : option jsstring;
  mitigations : list jsstring;
  detectionMethods : list jsstring;
  examples : list jsstring;
  relatedWeaknesses : list jsstring;
  applicablePlatforms : list jsstring
}.

(** The payload at its declared type. A list field holds, for each item of
    the nested array, the one string the code reads from it
    ([Description], [Body_Text], [CWE_ID], [Name]). *)
Record Platforms : Type := mkPlatforms {
  Language : option (list jsstring);
  Technology : option (list jsstring)
}.

Record CWEApiResponse : Type := mkCWEApiResponse {
  ID : jsstring;
  Name : jsstring;
  Description : option jsstring;
  Extended_Description : option jsstring;
  Potential_Mitigations : option (list jsstring);
  Detection_Methods : option (list jsstring);
  Demonstrative_Examples : option (list jsstring);
  Related_Weaknesses : option (list jsstring);
  Applicable_Platforms : option Platforms
}.

(** The loop [for (const x of xs) if (x.leaf) out.push(f(x.leaf))] over an
    optional array. *)
Definition collect_leaves (f : jsstring -> jsstring)
    (xs : option (list jsstring)) : list jsstring :=
  match xs with
  | None => []
  | Some items => List.map f (List.filter truthy_string items)
  end.

Definition transformCWEResponse (data : CWEApiResponse) : CWEData :=
  let mits := collect_leaves (fun d => d) (Potential_Mitigations data) in
  let dets := collect_leaves (fun d => d) (Detection_Methods data) in
  let exs := collect_leaves (fun d => d) (Demonstrative_Examples data) in
  let rels :=
    collect_leaves (fun i => lit "CWE-" ++ i) (Related_Weaknesses data) in
  let plats :=
    match Applicable_Platforms data with
    | None => []
    | Some p =>
        collect_leaves (fun d => d) (Language p) ++
        collect_leaves (fun d => d) (Technology p)
    end in
  mkCWEData (lit "CWE-" ++ ID data) (Name data)
    (match Description data with Some d => d | None => [] end)
    (Extended_Description data) mits dets exs rels plats.

(** *** The payload as it arrives

    [response.json()] resolves to a JSON value and the cast to
    [CWEApiResponse] checks nothing, so [transformCWEResponse] runs on
    whatever the remote end sent. Below is the function as it runs on an
    arbitrary value; a field declared string then holds what the payload
    holds there. *)

(** [`${v}`] for a JSON value. [Number::toString] comes from the platform.
    An array is joined with commas, null elements giving the empty string;
    a plain object gives "[object Object]", unless it has an own property
    toString, which JSON never makes callable: it then has no primitive
    value. *)
Fixpoint ToString (numberToString : JsNumber -> jsstring) (v : JsValue)
  : Result jsstring :=
  match v with
  | JNull => Ok (lit "null")
  | JBool b => Ok (if b then lit "true" else lit "false")
  | JNumber n => Ok (numberToString n)
  | JString s => Ok s
  | JArray elements =>
      (fix join_elements (es : list JsValue) : Result jsstring :=
         match es with
         | [] => Ok []
         | e :: es' =>
             let* text := match e with
                          | JNull => Ok []
                          | _ => ToString numberToString e
                          end in
             match es' with
             | [] => Ok text
             | _ :: _ =>
                 let* others := join_elements es' in
                 Ok (text ++ lit "," ++ others)
             end
         end) elements
  | JObject members =>
      match lookup_member (lit "toString") members with
      | Some _ => Throw (lit "TypeError")
      | None => Ok (lit "[object Object]")
      end
  end.

(** [`${v}`] for a value that may be undefined. *)
Definition interpolate (numberToString : JsNumber -> jsstring)
    (v : option JsValue) : Result jsstring :=
  match v with
  | None => Ok (lit "undefined")
  | Some x => ToString numberToString x
  end.

(** [a?.k] *)
Definition optional_prop (a : option JsValue) (k : jsstring)
  : Result (option JsValue) :=
  match a with
  | None => Ok None
  | Some JNull => Ok None
  | Some v => get_prop v k
  end.

(** [for (const x of xs) { if (x.leaf) out.push(f(x.leaf)); }] for a truthy
    [xs]. An array yields its elements. A string yields strings, which have
    no such property, so nothing is pushed. Any other value is not
    iterable. *)
Definition push_leaves {A : Type} (leaf : jsstring)
    (f : JsValue -> Result A) (xs : JsValue) : Result (list A) :=
  match xs with
  | JArray elements =>
      (fix loop (es : list JsValue) : Result (list A) :=
         match es with
         | [] => Ok []
         | x :: es' =>
             let* found := get_prop x leaf in
             match found with
             | Some v =>
                 if truthy v then
                   let* y := f v in
                   let* out := loop es' in
                   Ok (y :: out)
                 else loop es'
             | None => loop es'
             end
         end) elements
  | JString _ => Ok []
  | _ => Throw (lit "TypeError")
  end.

(** [if (data.outer?.inner) { for (const x of data.outer.inner) ... }] *)
Definition collect_section {A : Type} (data : JsValue)
    (outer inner leaf : jsstring) (f : JsValue -> Result A)
  : Result (list A) :=
  let* section := get_prop data outer in
  let* xs := optional_prop section inner in
  match xs with
  | Some v => if truthy v then push_leaves leaf f v else Ok []
  | None => Ok []
  end.

(** The record as it is at run time. *)
Record CWERecord : Type := mkCWERecord {
  rec_id : jsstring;
  rec_name : option JsValue;                 (* [None]: undefined *)
  rec_description : JsValue;
  rec_extendedDescription : option JsValue;
  rec_mitigations : list JsValue;
  rec_detectionMethods : list JsValue;
  rec_examples : list JsValue;
  rec_relatedWeaknesses : list jsstring;
  rec_applicablePlatforms : list JsValue
}.

Module unchecked.

(** [transformCWEResponse(data)] on the value that [response.json()] gave. *)
Definition transformCWEResponse (numberToString : JsNumber -> jsstring)
    (data : JsValue) : Result CWERecord :=
  let keep := fun v : JsValue => Ok v in
  let* mits :=
    collect_section data (lit "Potential_Mitigations") (lit "Mitigation")
      (lit "Description") keep in
  let* dets :=
    collect_section data (lit "Detection_Methods") (lit "Detection_Method")
      (lit "Description") keep in
  let* exs :=
    collect_section data (lit "Demonstrative_Examples")
      (lit "Demonstrative_Example") (lit "Body_Text") keep in
  let* rels :=
    collect_section data (lit "Related_Weaknesses") (lit "Related_Weakness")
      (lit "CWE_ID")
      (fun v => let* text := ToString numberToString v in
                Ok (lit "CWE-" ++ text)) in
  let* languages :=
    collect_section data (lit "Applicable_Platforms") (lit "Language")
      (lit "Name") keep in
  let* technologies :=
    collect_section data (lit "Applicable_Platforms") (lit "Technology")
      (lit "Name") keep in
  let* id := get_prop data (lit "ID") in
  let* id_text := interpolate numberToString id in
  let* name := get_prop data (lit "Name") in
  let* description := get_prop data (lit "Description") in
  let* extended := get_prop data (lit "Extended_Description") in
  Ok (mkCWERecord (lit "CWE-" ++ id_text) name
        (match description with
         | Some v => if truthy v then v else JString []
         | None => JString []
         end)
        extended mits dets exs rels (languages ++ technologies)).

End unchecked.

Definition CWE_API_BASE : jsstring := lit "https://cwe-api.mitre.org/api/v1".

(** [/^CWE-/i] *)
Definition CWE_PREFIX : RegExp := mkRegExp (str "CWE-") true false true.

(** [cweId.replace(/^CWE-/i, '')]: the pattern is a four-unit literal
    anchored at the start, so it matches exactly when the first four units
    do, and these are removed. *)
Definition strip_cwe_prefix (cweId : jsstring) : jsstring :=
  if test CWE_PREFIX (firstn 4 cweId) then skipn 4 cweId else cweId.

(** What [fetch] resolves to; [fetch] rejecting is a [Throw].
    [response.json()] rejects when the body is no JSON text. *)
Record Response : Type := mkResponse {
  status : Z;
  json : Result JsValue             (* response.json() *)
}.

Definition response_ok (r : Response) : bool :=
  ((200 <=? status r) && (status r <=? 299))%Z.

(** The module state: the cache, and the requests issued so far. *)
Record CweState : Type := mkCweState {
  cweCache : gmap jsstring CWERecord;
  requests : list jsstring
}.

(** The body of the try block after [fetch] was called: the value returned
    and the cache as it is then. *)
Definition fetch_attempt (numberToString : JsNumber -> jsstring)
    (remote : jsstring -> Result Response)
    (url cacheKey : jsstring) (cache : gmap jsstring CWERecord)
  : Result (option CWERecord * gmap jsstring CWERecord) :=
  let* response := remote url in
  if negb (response_ok response) then
    if (status response =? 404)%Z then Ok (None, cache)
    else Throw (lit "CWE API error: " ++ decimal (status response))
  else
    let* data := json response in
    let* cweData := unchecked.transformCWEResponse numberToString data in
    Ok (Some cweData, <[cacheKey := cweData]> cache).

Definition fetchCWE (numberToString : JsNumber -> jsstring)
    (remote : jsstring -> Result Response) (cweId : jsstring)
    (st : CweState) : Result (option CWERecord) * CweState :=
  let id := strip_cwe_prefix cweId in
  let cacheKey := lit "CWE-" ++ id in
  match cweCache st !! cacheKey with
  | Some cached => (Ok (Some cached), st)
  | None =>
      let url := CWE_API_BASE ++ lit "/cwe/" ++ id in
      let issued := requests st ++ [url] in
      match try_catch
              (fetch_attempt numberToString remote url cacheKey (cweCache st))
              (fun _ => Ok (None, cweCache st)) with
      | Ok (result, cache') => (Ok result, mkCweState cache' issued)
      | Throw e => (Throw e, mkCweState (cweCache st) issued)
      end
  end.

Definition COMMON_CWES_XSS := lit "79".
Definition COMMON_CWES_SQL_INJECTION := lit "89".
Definition COMMON_CWES_COMMAND_INJECTION := lit "78".
Definition COMMON_CWES_PATH_TRAVERSAL := lit "22".
Definition COMMON_CWES_HARDCODED_CREDENTIALS := lit "798".
Definition COMMON_CWES_MISSING_AUTH := lit "862".
Definition COMMON_CWES_BROKEN_AUTH := lit "287".
Definition COMMON_CWES_SSRF := lit "918".
Definition COMMON_CWES_SENSITIVE_DATA_EXPOSURE := lit "200".

(** ** core/npm-audit.ts *)

Inductive Severity : Type :=
| sev_critical | sev_high | sev_medium | sev_low | sev_info.

Inductive NpmSeverity : Type :=
| npm_info | npm_low | npm_moderate | npm_high | npm_critical.

(** An entry of [via]: a package name, or an advisory object. *)
Inductive ViaEntry : Type :=
| ViaString (s : jsstring)
| ViaAdvisory.

Record FixInfo : Type := mkFixInfo {
  fix_name : jsstring;
  fix_version : jsstring;
  isSemVerMajor : bool
}.

Inductive FixAvailable : Type :=
| FixBool (b : bool)
| FixObject (info : FixInfo).

Record NpmAuditVulnerability : Type := mkNpmVuln {
  npm_name : jsstring;
  npm_severity : NpmSeverity;
  isDirect : bool;
  via : option (list ViaEntry);      (* [None]: not an array *)
  effects : list jsstring;
  range : jsstring;
  nodes : list jsstring;
  fixAvailable : FixAvailable
}.

Record VulnCounts : Type := mkCounts {
  c_info : Z; c_low : Z; c_moderate : Z; c_high : Z; c_critical : Z;
  c_total : Z
}.

Record NpmAuditResult : Type := mkNpmAuditResult {
  auditReportVersion : Z;
  vulnerabilities : list (jsstring * NpmAuditVulnerability);
  metadata_vulnerabilities : VulnCounts
}.

Record DependencyVulnerability : Type := mkDepVuln {
  packageName : jsstring;
  version : jsstring;
  severity : Severity;
  title : jsstring;
  dv_description : jsstring;
  cveIds : list jsstring;
  patchedVersion : option jsstring
}.

Definition mapSeverity (npmSeverity : NpmSeverity) : Severity :=
  match npmSeverity with
  | npm_critical => sev_critical
  | npm_high => sev_high
  | npm_moderate => sev_medium
  | npm_low => sev_low
  | npm_info => sev_info
  end.

(** [severity.toUpperCase()] *)
Definition severity_upper (s : NpmSeverity) : jsstring :=
  match s with
  | npm_info => lit "INFO"
  | npm_low => lit "LOW"
  | npm_moderate => lit "MODERATE"
  | npm_high => lit "HIGH"
  | npm_critical => lit "CRITICAL"
  end.

Definition via_strings (entries : list ViaEntry) : list jsstring :=
  flat_map (fun v => match v with ViaString s => [s] | ViaAdvisory => [] end)
    entries.

Definition transform_entry (entry : jsstring * NpmAuditVulnerability)
  : DependencyVulnerability :=
  let '(name, vuln) := entry in
  let patched :=
    match fixAvailable vuln with
    | FixObject info => Some (fix_version info)
    | FixBool _ => None
    end in
  let fallback := lit "Vulnerability in " ++ name in
  let description :=
    match via vuln with
    | Some entries =>
        let joined := join (lit ", ") (via_strings entries) in
        if truthy_string joined then joined else fallback
    | None => fallback
    end in
  mkDepVuln name (range vuln) (mapSeverity (npm_severity vuln))
    (severity_upper (npm_severity vuln) ++ lit ": " ++ name)
    description [] patched.

Definition transformAuditResult (result : NpmAuditResult)
  : list DependencyVulnerability :=
  List.map transform_entry (vulnerabilities result).

Record NpmAuditResponse : Type := mkAuditResponse {
  ar_vulnerabilities : list DependencyVulnerability;
  ar_summary : VulnCounts;
  ar_error : option jsstring
}.

(** How [execAsync] settles: with the two output streams, or rejected with
    an error that may carry the captured stdout. *)
Inductive ExecOutcome : Type :=
| ExecDone (stdout stderr : jsstring)
| ExecFailed (captured : option jsstring) (message : jsstring).

(** What runNpmAudit observes outside itself. [parseReport] is
    [JSON.parse(stdout)] read at the type [NpmAuditResult]. *)
Record AuditEnv : Type := mkAuditEnv {
  lockExists : jsstring -> jsstring -> bool;   (* existsSync(join(dir, name)) *)
  execAsync : jsstring -> jsstring -> Z -> ExecOutcome;
  parseReport : jsstring -> Result NpmAuditResult
}.

Definition zero_counts : VulnCounts := mkCounts 0 0 0 0 0 0.

Definition audit_success (result : NpmAuditResult) : NpmAuditResponse :=
  mkAuditResponse (transformAuditResult result)
    (metadata_vulnerabilities result) None.

Definition audit_failure (errorMessage : jsstring) : NpmAuditResponse :=
  mkAuditResponse [] zero_counts
    (Some (lit "npm audit failed: " ++ errorMessage)).

Definition runNpmAudit (env : AuditEnv) (dir : jsstring)
    (includeDevDependencies : bool) (timeout : Z) : NpmAuditResponse :=
  let hasPackageLock := lockExists env dir (lit "package-lock.json") in
  let hasYarnLock := lockExists env dir (lit "yarn.lock") in
  let hasPnpmLock := lockExists env dir (lit "pnpm-lock.yaml") in
  if negb hasPackageLock && negb hasYarnLock && negb hasPnpmLock then
    mkAuditResponse [] zero_counts
      (Some (lit "No lock file found. Run npm install, yarn install, or pnpm install first."))
  else
    let command :=
      if includeDevDependencies then lit "npm audit --json"
      else lit "npm audit --json" ++ lit " --omit=dev" in
    match execAsync env command dir timeout with
    | ExecDone stdout stderr =>
        if truthy_string stderr && negb (truthy_string stdout) then
          mkAuditResponse [] zero_counts (Some stderr)
        else
          match parseReport env stdout with
          | Ok result => audit_success result
          | Throw message => audit_failure message
          end
    | ExecFailed captured message =>
        match captured with
        | Some stdout =>
            if truthy_string stdout then
              match parseReport env stdout with
              | Ok result => audit_success result
              | Throw _ => audit_failure message
              end
            else audit_failure message
        | None => audit_failure message
        end
    end.

(** ** core/file-reader.ts

    [path.extname] and [String.prototype.toLowerCase] are taken as they
    come from the platform. The file system is what the reader observes of
    it: a tree whose nodes answer [statSync], [readFileSync] and
    [readdirSync], each of which may throw. *)

Definition CODE_EXTENSIONS : list jsstring :=
  [ lit ".ts"; lit ".tsx"; lit ".js"; lit ".jsx"; lit ".mjs"; lit ".cjs";
    lit ".json"; lit ".yaml"; lit ".yml";
    lit ".env"; lit ".env.local"; lit ".env.development";
    lit ".env.production";
    lit ".prisma"; lit ".graphql"; lit ".gql";
    lit ".rules";
    lit ".sql";
    lit ".py"; lit ".rb"; lit ".go"; lit ".java"; lit ".rs"; lit ".php" ].

Definition SKIP_DIRECTORIES : list jsstring :=
  [ lit "node_modules"; lit ".git"; lit ".next"; lit ".nuxt"; lit "dist";
    lit "build"; lit "out"; lit "coverage"; lit ".turbo"; lit ".cache";
    lit "__pycache__"; lit "vendor"; lit ".idea"; lit ".vscode" ].

Definition SKIP_FILES : list jsstring :=
  [ lit "package-lock.json"; lit "yarn.lock"; lit "pnpm-lock.yaml";
    lit "bun.lockb"; lit ".DS_Store" ].

Definition MAX_FILE_SIZE : Z := 1024 * 1024.

(** [set.has(x)] for a constant set. *)
Definition set_has (set : list jsstring) (x : jsstring) : bool :=
  bool_decide (x ∈ set).

(** [p.split('/').pop() || ''] *)
Definition last_segment (p : jsstring) : jsstring :=
  List.last (split_on 47 p) [].

#[warnings="-register-all"]
Inductive FsNode : Type :=
| FsFile (stat : Result Z) (read : Result jsstring)
| FsDir (listing : Result (list (jsstring * FsNode)))
| FsOther.

Definition DEFAULT_MAX_FILES : Z := 500.

Section FileReader.
Context (extname : jsstring -> jsstring) (toLowerCase : jsstring -> jsstring).

Definition shouldIncludeFile (filePath : jsstring) (sz : Z) : bool :=
  let ext := toLowerCase (extname filePath) in
  let fileName := last_segment filePath in
  if set_has SKIP_FILES fileName then false
  else if (sz >? MAX_FILE_SIZE)%Z then false
  else if set_has CODE_EXTENSIONS ext then true
  else if startsWith fileName (lit ".env")
          || bool_decide (fileName = lit ".gitignore") then true
  else if negb (truthy_string ext)
          && (includes fileName (lit "config")
              || includes fileName (lit "rc")
              || bool_decide (fileName = lit "Dockerfile")
              || bool_decide (fileName = lit "Makefile")) then true
  else false.

(** The entry [name] of the directory at [dirPath]: [join(dirPath, name)]
    ends with a slash and the name, and [relative(basePath, fullPath)] is
    the names from the base down to the entry, joined by slashes. *)
Definition entry_full (dirPath name : jsstring) : jsstring :=
  dirPath ++ lit "/" ++ name.

Definition entry_relative (relDir name : jsstring) : jsstring :=
  match relDir with
  | [] => name
  | _ :: _ => relDir ++ lit "/" ++ name
  end.

(** The try block around one file entry: any throw leaves [files] as it
    was. *)
Definition read_file_entry (fullPath relativePath : jsstring)
    (stat : Result Z) (read : Result jsstring) (acc : list ParsedFile)
  : list ParsedFile :=
  match stat with
  | Throw _ => acc
  | Ok sz =>
      if shouldIncludeFile fullPath sz then
        match read with
        | Throw _ => acc
        | Ok text =>
            acc ++ [mkFile relativePath text sz (toLowerCase (extname fullPath))]
        end
      else acc
  end.

(** The loop over the entries of the directory at [dirPath]; [recurse] is
    the recursive call on a subdirectory. *)
Definition read_entries
    (recurse : FsNode -> jsstring -> jsstring -> list ParsedFile ->
               Result (list ParsedFile))
    (dirPath relDir : jsstring) (maxFiles : Z)
  : list (jsstring * FsNode) -> list ParsedFile -> Result (list ParsedFile) :=
  fix loop (es : list (jsstring * FsNode)) (acc : list ParsedFile) {struct es}
    : Result (list ParsedFile) :=
    match es with
    | [] => Ok acc
    | (name, child) :: es' =>
        if (Z.of_nat (length acc) >=? maxFiles)%Z then Ok acc
        else
          let fullPath := entry_full dirPath name in
          match child with
          | FsDir _ =>
              if set_has SKIP_DIRECTORIES name then loop es' acc
              else
                let* acc' :=
                  recurse child fullPath (entry_relative relDir name) acc in
                loop es' acc'
          | FsFile stat read =>
              loop es'
                (read_file_entry fullPath (entry_relative relDir name)
                   stat read acc)
          | FsOther => loop es' acc
          end
    end.

(** [readDirectoryRecursive(dirPath, basePath, files, maxFiles)] on the
    directory [dir]; the result is the array [files] afterwards. *)
Fixpoint readDirectoryRecursive (dir : FsNode) (dirPath relDir : jsstring)
    (acc : list ParsedFile) (maxFiles : Z) {struct dir}
  : Result (list ParsedFile) :=
  if (Z.of_nat (length acc) >=? maxFiles)%Z then Ok acc
  else
    match dir with
    | FsDir (Ok entries) =>
        read_entries
          (fun child fullPath rel acc' =>
             readDirectoryRecursive child fullPath rel acc' maxFiles)
          dirPath relDir maxFiles entries acc
    | FsDir (Throw e) => Throw e
    | _ => Throw (lit "ENOTDIR")
    end.

(** [readFilesFromPath(path)], where [root] is what is found at [path]. *)
Definition readFilesFromPath (root : option FsNode) (p : jsstring)
  : Result (list ParsedFile) :=
  match root with
  | None => Throw (lit "Path does not exist: " ++ p)
  | Some (FsFile stat read) =>
      let* sz := stat in
      let* text := read in
      Ok [mkFile (if truthy_string (last_segment p) then last_segment p else p)
            text sz (toLowerCase (extname p))]
  | Some (FsDir listing) =>
      readDirectoryRecursive (FsDir listing) p [] [] DEFAULT_MAX_FILES
  | Some FsOther =>
      Throw (lit "Path is neither a file nor a directory: " ++ p)
  end.

Definition parseFileInputs (inputs : list (jsstring * jsstring))
  : list ParsedFile :=
  List.map
    (fun f => mkFile (fst f) (snd f) (jslength (snd f))
                (toLowerCase (extname (fst f))))
    inputs.

End FileReader.

(** [getPackageJson]: null when no file is a package manifest or when its
    content does not parse. *)
Definition getPackageJson (fs : list ParsedFile) : JsValue :=
  match List.find
          (fun f => bool_decide (path f = lit "package.json")
                    || endsWith (path f) (lit "/package.json")) fs with
  | None => JNull
  | Some packageJsonFile =>
      match JSON_parse (content packageJsonFile) with
      | Ok v => v
      | Throw _ => JNull
      end
  end.

(** ** tools/scan-codebase.ts *)

Inductive Framework : Type :=
| fw_nextjs | fw_react | fw_express | fw_nestjs | fw_fastify.
Inductive Database : Type :=
| db_firebase | db_supabase | db_mongodb | db_postgresql | db_mysql.
Inductive AuthProvider : Type :=
| ap_clerk | ap_auth0 | ap_nextauth | ap_firebase | ap_supabase.

Record ProjectContext : Type := mkProjectContext {
  hasPackageJson : bool;
  hasPackageLock : bool;
  framework : option Framework;
  database : option Database;
  authProvider : option AuthProvider;
  isTypeScript : bool
}.

Definition CATEGORY_CWES (c : HotspotCategory) : list jsstring :=
  match c with
  | auth => [COMMON_CWES_BROKEN_AUTH; COMMON_CWES_MISSING_AUTH; lit "384";
             lit "613"]
  | api => [COMMON_CWES_MISSING_AUTH; COMMON_CWES_SQL_INJECTION;
            COMMON_CWES_SSRF; lit "20"]
  | database_rules => [lit "284"; lit "285"; COMMON_CWES_MISSING_AUTH]
  | secrets_env => [COMMON_CWES_HARDCODED_CREDENTIALS; lit "540";
                    COMMON_CWES_SENSITIVE_DATA_EXPOSURE]
  | dependencies => [lit "1035"; lit "1104"]
  | data_flow => [COMMON_CWES_SQL_INJECTION; COMMON_CWES_COMMAND_INJECTION;
                  COMMON_CWES_XSS; COMMON_CWES_PATH_TRAVERSAL]
  end.

(** [k in v] for a key [k] that is neither an array index nor a property of
    a prototype; the operand must be an object. *)
Definition has_key (k : jsstring) (v : JsValue) : Result bool :=
  match v with
  | JObject ms =>
      Ok (match lookup_member k ms with Some _ => true | None => false end)
  | JArray _ => Ok false
  | _ => Throw (lit "TypeError")
  end.

(** [k1 in deps || k2 in deps || ...] *)
Fixpoint any_key (keys : list jsstring) (deps : JsValue) : Result bool :=
  match keys with
  | [] => Ok false
  | k :: keys' =>
      let* present := has_key k deps in
      if present then Ok true else any_key keys' deps
  end.

(** A chain [c1 ? v1 : c2 ? v2 : ... : undefined]. *)
Fixpoint first_of {V} (table : list (list jsstring * V)) (deps : JsValue)
  : Result (option V) :=
  match table with
  | [] => Ok None
  | (keys, v) :: table' =>
      let* present := any_key keys deps in
      if present then Ok (Some v) else first_of table' deps
  end.

Definition dependencies_of (packageJson : JsValue) : JsValue :=
  match packageJson with
  | JObject ms =>
      match lookup_member (lit "dependencies") ms with
      | Some d => if truthy d then d else JObject []
      | None => JObject []
      end
  | _ => JObject []
  end.

(** The [hasPackageLock] field of the project context. *)
Definition lock_file_seen (fs : list ParsedFile) : bool :=
  existsb
    (fun f => includes (path f) (lit "package-lock.json")
              || includes (path f) (lit "yarn.lock")
              || includes (path f) (lit "pnpm-lock.yaml")) fs.

Definition detectProjectContext (fs : list ParsedFile) : Result ProjectContext :=
  let packageJson := getPackageJson fs in
  let deps := dependencies_of packageJson in
  let* fw :=
    first_of [ ([lit "next"], fw_nextjs); ([lit "express"], fw_express);
               ([lit "@nestjs/core"], fw_nestjs); ([lit "fastify"], fw_fastify);
               ([lit "react"], fw_react) ] deps in
  let* db :=
    first_of [ ([lit "firebase"; lit "@firebase/app"], db_firebase);
               ([lit "@supabase/supabase-js"], db_supabase);
               ([lit "mongodb"; lit "mongoose"], db_mongodb);
               ([lit "pg"; lit "@prisma/client"], db_postgresql);
               ([lit "mysql2"], db_mysql) ] deps in
  let* ap :=
    first_of [ ([lit "@clerk/nextjs"], ap_clerk);
               ([lit "auth0"; lit "@auth0/nextjs-auth0"], ap_auth0);
               ([lit "next-auth"], ap_nextauth);
               ([lit "firebase"], ap_firebase);
               ([lit "@supabase/supabase-js"], ap_supabase) ] deps in
  Ok (mkProjectContext (truthy packageJson) (lock_file_seen fs) fw db ap
        (existsb (fun f => bool_decide (extension f = lit ".ts")
                           || bool_decide (extension f = lit ".tsx")) fs)).

Record HotspotFile : Type := mkHotspotFile {
  hf_path : jsstring;
  hf_content : jsstring;
  hf_size : Z
}.

Record CategoryHotspot : Type := mkCategoryHotspot {
  ch_category : HotspotCategory;
  ch_priority : HotspotPriority;
  ch_reason : jsstring;
  ch_files : list HotspotFile;
  relevantCWEs : list jsstring
}.

Definition transformHotspot (hotspot : SecurityHotspot) : CategoryHotspot :=
  mkCategoryHotspot (category hotspot) (priority hotspot) (reason hotspot)
    (List.map (fun f => mkHotspotFile (path f) (content f) (size f))
       (files hotspot))
    (List.map (fun i => lit "CWE-" ++ i) (CATEGORY_CWES (category hotspot))).

Record ScanSummary : Type := mkScanSummary {
  sum_totalFiles : Z;
  sum_securityRelevantFiles : Z;
  sum_skippedFiles : Z;
  hotspotCategories : Z;
  vulnerableDependencies : Z
}.

Record ScanCodebaseResult : Type := mkScanResult {
  res_hotspots : list CategoryHotspot;
  dependencyVulnerabilities : list DependencyVulnerability;
  projectContext : ProjectContext;
  res_summary : ScanSummary;
  scanDuration : Z
}.

Record ScanCodebaseInput : Type := mkScanInput {
  in_path : option jsstring;
  in_files : option (list (jsstring * jsstring));
  in_categories : option (list HotspotCategory);
  severityThreshold : option Severity
}.

(** What a scan observes outside itself: the node found at a path, the
    environment of the audit, and the two readings of the clock. *)
Record ScanEnv : Type := mkScanEnv {
  lookup_path : jsstring -> option FsNode;
  audit_env : AuditEnv;
  startTime : Z;
  endTime : Z
}.

Section ScanCodebase.
Context (extname : jsstring -> jsstring) (toLowerCase : jsstring -> jsstring).

(** The files to scan and the base path. *)
Definition scan_inputs (env : ScanEnv) (input : ScanCodebaseInput)
  : Result (list ParsedFile * option jsstring) :=
  match in_path input with
  | Some (c :: p) =>
      let* fs := readFilesFromPath extname toLowerCase
                   (lookup_path env (c :: p)) (c :: p) in
      Ok (fs, Some (c :: p))
  | _ =>
      match in_files input with
      | Some (f :: inputs) =>
          Ok (parseFileInputs extname toLowerCase (f :: inputs), None)
      | _ => Throw (lit "Either path or files must be provided")
      end
  end.

(** [executeScanCodebase]: its result, and the directories on which
    runNpmAudit was invoked, in order. *)
Definition executeScanCodebase (env : ScanEnv) (input : ScanCodebaseInput)
  : Result ScanCodebaseResult * list jsstring :=
  match
    (let* got := scan_inputs env input in
     let '(fs, basePath) := got in
     if bool_decide (fs = []) then Throw (lit "No files found to scan")
     else
       let* context := detectProjectContext fs in
       let analysis0 := collectSecurityHotspots fs in
       let analysis :=
         match in_categories input with
         | Some (c :: cs) => filterHotspots analysis0 (c :: cs)
         | _ => analysis0
         end in
       Ok (basePath, context, analysis))
  with
  | Throw e => (Throw e, [])
  | Ok (basePath, context, analysis) =>
      let '(depVulns, calls) :=
        match basePath with
        | Some base =>
            if hasPackageLock context then
              let auditResult := runNpmAudit (audit_env env) base false 60000 in
              (match ar_error auditResult with
               | Some (_ :: _) => []
               | _ => ar_vulnerabilities auditResult
               end, [base])
            else ([], [])
        | None => ([], [])
        end in
      let hs := List.map transformHotspot (hotspots analysis) in
      (Ok (mkScanResult hs depVulns context
             (mkScanSummary (totalFiles analysis)
                (securityRelevantFiles analysis)
                (Z.of_nat (length (skippedFiles analysis)))
                (Z.of_nat (length hs))
                (Z.of_nat (length depVulns)))
             (endTime env - startTime env)),
       calls)
  end.

End ScanCodebase.

(** A model of [path.extname] on POSIX and of lower-casing on ASCII, for
    running the reader on concrete trees. *)
Fixpoint strip_trailing_slashes_rev (r : jsstring) : jsstring :=
  match r with
  | 47%N :: r' => strip_trailing_slashes_rev r'
  | _ => r
  end.

(** The reversed extension and the reversed rest of a reversed base name. *)
Fixpoint split_last_dot_rev (r : jsstring) : option (jsstring * jsstring) :=
  match r with
  | [] => None
  | c :: r' =>
      if (c =? 46)%N then Some ([c], r')
      else match split_last_dot_rev r' with
           | Some (e, before) => Some (c :: e, before)
           | None => None
           end
  end.

Definition posix_extname (p : jsstring) : jsstring :=
  let base := last_segment (rev (strip_trailing_slashes_rev (rev p))) in
  match split_last_dot_rev (rev base) with
  | None => []
  | Some (ext_rev, before_rev) =>
      if bool_decide (before_rev = []) then []
      else if bool_decide (base = lit "..") then []
      else rev ext_rev
  end.

Definition ascii_toLowerCase (s : jsstring) : jsstring :=
  List.map (fun c => if ((65 <=? c) && (c <=? 90))%N then (c + 32)%N else c) s.

(** ** Predicates of the specification

    What it means for a file to match a skip pattern or a category, in the
    words of the specification; the code is compared against them below. *)

Definition skip_match (f : ParsedFile) : bool :=
  existsb (fun sp => test (sp_pattern sp) (path f)) SKIP_PATTERNS.

Definition category_match (c : HotspotCategory) (f : ParsedFile) : bool :=
  existsb
    (fun cp =>
       bool_decide (cp_category cp = c) &&
       (existsb (fun p => test p (path f)) (pathPatterns cp)
        || existsb (fun p => test p (content f)) (contentPatterns cp)))
    CATEGORY_PATTERNS.

(** The file is open to classification and matches category [c]. *)
Definition lands_in (c : HotspotCategory) (f : ParsedFile) : bool :=
  negb (skip_match f) && category_match c f.

(** The categories met along the scan, each at its first appearance. *)
Definition first_seen (cs : list HotspotCategory) : list HotspotCategory :=
  fold_left (fun seen c => if bool_decide (c ∈ seen) then seen else seen ++ [c])
    cs [].

Definition scan_categories (fs : list ParsedFile) : list HotspotCategory :=
  flat_map categorizeFile (List.filter (fun f => negb (skip_match f)) fs).

(** The position of a category in the CATEGORY_PATTERNS table. *)
Definition table_index (c : HotspotCategory) : Z :=
  match c with
  | auth => 0
  | api => 1
  | database_rules => 2
  | secrets_env => 3
  | dependencies => 4
  | data_flow => 5
  end.

(** ** Definitions used by the statements

    Views of the embedding (keys and buckets of the map, parts and totals
    of the prompt, cache keys), the claims of the specification that the
    code does not meet, written as propositions, and the concrete inputs
    of the examples. *)

Definition first_seen_from (seen cs : list HotspotCategory)
  : list HotspotCategory :=
  fold_left (fun seen c => if bool_decide (c ∈ seen) then seen else seen ++ [c])
    cs seen.

(** The files stored under a category, none when the key is absent. *)
Definition bucket (m : omap HotspotCategory (list ParsedFile))
    (c : HotspotCategory) : list ParsedFile :=
  match map_get c m with
  | Some b => b
  | None => []
  end.

Definition priority_key (h : SecurityHotspot) : Z := priorityOrder (priority h).

Definition all_hotspot_paths (hs : list SecurityHotspot) : list jsstring :=
  flat_map (fun h => List.map path (files h)) hs.

(** The sum of the per-hotspot file counts. *)
Definition per_hotspot_total (hs : list SecurityHotspot) : nat :=
  list_sum (List.map (fun h => length (files h)) hs).

(** The claim of the specification on the order of the hotspots: ascending
    priority, and table order among hotspots of equal priority. *)
Definition table_order_tie_break (hs : list SecurityHotspot) : Prop :=
  forall i j hi hj,
    (i < j)%nat -> nth_error hs i = Some hi -> nth_error hs j = Some hj ->
    (priorityOrder (priority hi) <= priorityOrder (priority hj))%Z
    /\ (priority hi = priority hj ->
        (table_index (category hi) < table_index (category hj))%Z).

Definition api_then_auth : list ParsedFile :=
  [ mkFile (lit "src/api/users.ts") (lit "export {}") 9 (lit ".ts");
    mkFile (lit "src/login.ts") (lit "export {}") 9 (lit ".ts") ].

(** The part of a file serialized whole. *)
Definition file_part (f : ParsedFile) : part :=
  FilePart f (truncateContent (content f) default_maxChars).

(** The running total after the files of [l] were serialized. *)
Definition serialized_total (l : list ParsedFile) : Z :=
  fold_right
    (fun f acc => (jslength (truncateContent (content f) default_maxChars) + acc)%Z)
    0%Z l.

(** The total length of the raw contents. *)
Definition total_content (l : list ParsedFile) : Z :=
  fold_right (fun f acc => (jslength (content f) + acc)%Z) 0%Z l.

Definition is_file_part (p : part) : bool :=
  match p with FilePart _ _ => true | OmittedPart _ => false end.

Definition serialized_count (ps : list part) : nat :=
  length (List.filter is_file_part ps).

Definition has_omitted_line (ps : list part) : bool :=
  existsb (fun p => negb (is_file_part p)) ps.

(** The claim of the specification on the budget: a hotspot whose raw
    content exceeds 100000 units gets an omitted-files line and fewer
    serialized files than it has. *)
Definition budget_claim (hotspot : SecurityHotspot) : Prop :=
  (total_content (files hotspot) > 100000)%Z ->
  has_omitted_line (format_parts (files hotspot)) = true
  /\ (serialized_count (format_parts (files hotspot))
      < length (files hotspot))%nat.

(** One file of 100001 units. *)
Definition one_large_file : SecurityHotspot :=
  mkHotspot data_flow
    [ mkFile (lit "src/big.ts") (List.repeat 97%N (Z.to_nat 100001)) 100001
        (lit ".ts") ]
    medium (lit "User input handling and data flow").

(** Fourteen files of 8000 units each. *)
Definition fourteen_files : SecurityHotspot :=
  mkHotspot data_flow
    (List.map
       (fun i => mkFile (lit "src/f" ++ decimal i ++ lit ".ts")
                   (List.repeat 98%N (Z.to_nat 8000)) 8000 (lit ".ts"))
       [1; 2; 3; 4; 5; 6; 7; 8; 9; 10; 11; 12; 13; 14]%Z)
    medium (lit "User input handling and data flow").

Definition cache_key (cweId : jsstring) : jsstring :=
  lit "CWE-" ++ strip_cwe_prefix cweId.

Definition cwe_url (cweId : jsstring) : jsstring :=
  CWE_API_BASE ++ lit "/cwe/" ++ strip_cwe_prefix cweId.

(** A successful lookup of "79" followed by a lookup of "cwe-79" against a
    remote end that would now fail. *)
Definition xss_payload : CWEApiResponse :=
  mkCWEApiResponse (lit "79") (lit "Cross-site Scripting")
    (Some (lit "Improper neutralization of input")) None
    (Some [lit "Encode output"; []]) None None (Some [lit "80"]) None.

(** The same payload as the JSON value that arrives. *)
Definition xss_body : JsValue :=
  JObject
    [ (lit "ID", JString (lit "79"));
      (lit "Name", JString (lit "Cross-site Scripting"));
      (lit "Description", JString (lit "Improper neutralization of input"));
      (lit "Potential_Mitigations",
       JObject
         [ (lit "Mitigation",
            JArray [ JObject [(lit "Description", JString (lit "Encode output"))];
                     JObject [(lit "Description", JString [])] ]) ]);
      (lit "Related_Weaknesses",
       JObject
         [ (lit "Related_Weakness",
            JArray [ JObject [(lit "CWE_ID", JString (lit "80"))] ]) ]) ].

Definition remote_up (url : jsstring) : Result Response :=
  Ok (mkResponse 200 (Ok xss_body)).

(** A remote end that answers every request with the empty object. *)
Definition remote_empty_object (url : jsstring) : Result Response :=
  Ok (mkResponse 200 (Ok (JObject []))).

(** What the empty object is normalized to. *)
Definition undefined_record : CWERecord :=
  mkCWERecord (lit "CWE-undefined") None (JString []) None [] [] [] [] [].

(** A remote end whose payload gives true for the description. *)
Definition remote_true_description (url : jsstring) : Result Response :=
  Ok (mkResponse 200
        (Ok (JObject [ (lit "ID", JString (lit "79"));
                       (lit "Name", JString (lit "Cross-site Scripting"));
                       (lit "Description", JBool true) ]))).

(** The payloads of the examples hold no number, so any rendering of
    numbers serves there. *)
Definition no_numbers (n : JsNumber) : jsstring := [].

(** The record at its declared type, as the run-time record it is. *)
Definition record_of (d : CWEData) : CWERecord :=
  mkCWERecord (cwe_id d) (Some (JString (cwe_name d)))
    (JString (cwe_description d))
    (option_map JString (extendedDescription d))
    (List.map JString (mitigations d)) (List.map JString (detectionMethods d))
    (List.map JString (examples d)) (relatedWeaknesses d)
    (List.map JString (applicablePlatforms d)).

(** Reading a JSON value at the declared type [CWEApiResponse]: [None] when
    the value has another shape. Members that the type does not name are
    allowed. *)
Definition string_of (v : option JsValue) : option jsstring :=
  match v with
  | Some (JString text) => Some text
  | _ => None
  end.

(** An optional member: absent, or present and of the shape [shape]. *)
Definition optional_member {A : Type} (shape : JsValue -> option A)
    (v : option JsValue) : option (option A) :=
  match v with
  | None => Some None
  | Some x =>
      match shape x with
      | Some a => Some (Some a)
      | None => None
      end
  end.

(** The elements of an [Array<{ leaf: string }>]. *)
Fixpoint leaf_strings (leaf : jsstring) (es : list JsValue)
  : option (list jsstring) :=
  match es with
  | [] => Some []
  | JObject members :: es' =>
      match string_of (lookup_member leaf members), leaf_strings leaf es' with
      | Some text, Some texts => Some (text :: texts)
      | _, _ => None
      end
  | _ :: _ => None
  end.

Definition array_shape (leaf : jsstring) (v : JsValue)
  : option (list jsstring) :=
  match v with
  | JArray es => leaf_strings leaf es
  | _ => None
  end.

(** [{ field: Array<{ leaf: string }> }] *)
Definition section_shape (field leaf : jsstring) (v : JsValue)
  : option (list jsstring) :=
  match v with
  | JObject members =>
      match lookup_member field members with
      | Some xs => array_shape leaf xs
      | None => None
      end
  | _ => None
  end.

Definition platforms_shape (v : JsValue) : option Platforms :=
  match v with
  | JObject members =>
      match optional_member (array_shape (lit "Name"))
              (lookup_member (lit "Language") members),
            optional_member (array_shape (lit "Name"))
              (lookup_member (lit "Technology") members) with
      | Some languages, Some technologies =>
          Some (mkPlatforms languages technologies)
      | _, _ => None
      end
  | _ => None
  end.

Definition decode (body : JsValue) : option CWEApiResponse :=
  match body with
  | JObject members =>
      let member := fun k : jsstring => lookup_member k members in
      let text := fun v : JsValue => string_of (Some v) in
      match string_of (member (lit "ID")), string_of (member (lit "Name")),
            optional_member text (member (lit "Description")),
            optional_member text (member (lit "Extended_Description")) with
      | Some id, Some name, Some description, Some extended =>
          match optional_member
                  (section_shape (lit "Mitigation") (lit "Description"))
                  (member (lit "Potential_Mitigations")),
                optional_member
                  (section_shape (lit "Detection_Method") (lit "Description"))
                  (member (lit "Detection_Methods")),
                optional_member
                  (section_shape (lit "Demonstrative_Example") (lit "Body_Text"))
                  (member (lit "Demonstrative_Examples")),
                optional_member
                  (section_shape (lit "Related_Weakness") (lit "CWE_ID"))
                  (member (lit "Related_Weaknesses")),
                optional_member platforms_shape (member (lit "Applicable_Platforms"))
          with
          | Some mits, Some dets, Some exs, Some rels, Some plats =>
              Some (mkCWEApiResponse id name description extended mits dets
                      exs rels plats)
          | _, _, _, _, _ => None
          end
      | _, _, _, _ => None
      end
  | _ => None
  end.

(** The lookup returns nothing and leaves the cache as it was. *)
Definition absent_and_uncached (numberToString : JsNumber -> jsstring)
    (remote : jsstring -> Result Response) (cweId : jsstring)
    (st : CweState) : Prop :=
  fst (fetchCWE numberToString remote cweId st) = Ok None
  /\ cweCache (snd (fetchCWE numberToString remote cweId st)) = cweCache st.

(** The claim of the specification on lookups: no lookup throws; a lookup
    that misses the cache returns nothing and caches nothing when the
    request fails, when the status is not a 2xx one, when the body is no
    JSON text and when the payload has not the declared shape; and a
    payload of the declared shape is normalized, returned and cached under
    the key of the identifier. *)
Definition fetchCWE_claim : Prop :=
  forall numberToString remote cweId st,
    (exists r, fst (fetchCWE numberToString remote cweId st) = Ok r)
    /\ (cweCache st !! cache_key cweId = None ->
        ((forall e, remote (cwe_url cweId) = Throw e ->
                    absent_and_uncached numberToString remote cweId st)
         /\ forall response,
              remote (cwe_url cweId) = Ok response ->
              (response_ok response = false ->
               absent_and_uncached numberToString remote cweId st)
              /\ (response_ok response = true ->
                  (forall e, json response = Throw e ->
                             absent_and_uncached numberToString remote cweId st)
                  /\ forall body,
                       json response = Ok body ->
                       (decode body = None ->
                        absent_and_uncached numberToString remote cweId st)
                       /\ forall data,
                            decode body = Some data ->
                            let record :=
                              record_of (transformCWEResponse data) in
                            let out :=
                              fetchCWE numberToString remote cweId st in
                            fst out = Ok (Some record)
                            /\ cweCache (snd out)
                               = <[cache_key cweId := record]> (cweCache st)
                            /\ forall remote' cweId',
                                 cache_key cweId' = cache_key cweId ->
                                 fetchCWE numberToString remote' cweId'
                                   (snd out)
                                 = (Ok (Some record), snd out)))).


Definition remote_down (url : jsstring) : Result Response :=
  Throw (lit "network error").

Definition empty_state : CweState := mkCweState ∅ [].

Definition open_brace : N := 123%N.
Definition close_brace : N := 125%N.

Definition dq : jsstring := [34%N].

(** here you go: {"findings": [], "summary": "ok"} *)
Definition example_response : jsstring :=
  lit "here you go: {" ++ dq ++ lit "findings" ++ dq ++ lit ": [], " ++
  dq ++ lit "summary" ++ dq ++ lit ": " ++ dq ++ lit "ok" ++ dq ++ lit "}".

Definition no_findings (diagnostic : string) : AISecurityResponse :=
  mkAIResponse [] (JString (lit diagnostic)).

Definition LOCK_FILE_NAMES : list jsstring :=
  [ lit "package-lock.json"; lit "yarn.lock"; lit "pnpm-lock.yaml";
    lit "bun.lockb" ].

Definition is_lock_name (s : jsstring) : bool := set_has LOCK_FILE_NAMES s.

Definition includes_lock_name (p : jsstring) : bool :=
  existsb (includes p) LOCK_FILE_NAMES.

(** No path includes the name of a lock file, except the lock files
    themselves. *)
Definition no_other_lock_path (fs : list ParsedFile) : Prop :=
  forall f, In f fs -> includes_lock_name (path f) = true ->
            is_lock_name (last_segment (path f)) = true.

(** The files of the result are no lock files. *)
Definition no_lock_file (f : ParsedFile) : Prop :=
  is_lock_name (last_segment (path f)) = false.

(** The claim of the specification on lock files and the audit. *)
Definition lock_files_never_audited_claim : Prop :=
  (forall extname toLowerCase filePath sz,
     is_lock_name (last_segment filePath) = true ->
     shouldIncludeFile extname toLowerCase filePath sz = false)
  /\ (forall extname toLowerCase dir dirPath fs,
        readDirectoryRecursive extname toLowerCase dir dirPath [] []
          DEFAULT_MAX_FILES = Ok fs ->
        forall f, In f fs -> is_lock_name (last_segment (path f)) = false)
  /\ (forall extname toLowerCase env input p fs,
        in_path input = Some p -> p <> [] ->
        readFilesFromPath extname toLowerCase (lookup_path env p) p = Ok fs ->
        no_other_lock_path fs ->
        (forall ctx, detectProjectContext fs = Ok ctx ->
                     hasPackageLock ctx = false)
        /\ snd (executeScanCodebase extname toLowerCase env input) = []).

(** A scan whose path is a lock file itself. *)
Definition lock_file_path : jsstring := lit "/repo/package-lock.json".

Definition only_a_lock_file : ScanEnv :=
  mkScanEnv
    (fun p => if bool_decide (p = lock_file_path)
              then Some (FsFile (Ok 2%Z) (Ok (lit "{}")))
              else None)
    (mkAuditEnv (fun _ _ => false) (fun _ _ _ => ExecFailed None [])
       (fun _ => Throw []))
    0 1.

Definition scan_the_lock_file : ScanCodebaseInput :=
  mkScanInput (Some lock_file_path) None None None.

(** A repository with lock files at two levels. *)
Definition repo_tree : FsNode :=
  FsDir (Ok
    [ (lit "package-lock.json", FsFile (Ok 10%Z) (Ok (lit "{}")));
      (lit "package.json", FsFile (Ok 2%Z) (Ok (lit "{}")));
      (lit "src",
       FsDir (Ok
         [ (lit "login.ts", FsFile (Ok 13%Z) (Ok (lit "authenticate(")));
           (lit "yarn.lock", FsFile (Ok 3%Z) (Ok (lit "abc"))) ]));
      (lit "node_modules", FsDir (Throw (lit "EACCES"))) ]).

Definition repo_env : ScanEnv :=
  mkScanEnv
    (fun p => if bool_decide (p = lit "/repo") then Some repo_tree else None)
    (mkAuditEnv (fun _ _ => true) (fun _ _ _ => ExecFailed None [])
       (fun _ => Throw []))
    0 1.

Definition scan_repo : ScanCodebaseInput :=
  mkScanInput (Some (lit "/repo")) None None None.

Definition login_file : ParsedFile :=
  mkFile (lit "auth/login.ts") (lit "authenticate(") 13 (lit ".ts").

Definition readme_file : ParsedFile :=
  mkFile (lit "README.md") (lit "# Project") 9 (lit ".md").

(** An API route that reads the request body: it lands in two hotspots. *)
Definition route_file : ParsedFile :=
  mkFile (lit "src/api/users.ts") (lit "const u = req.body") 18 (lit ".ts").

(** A content of 8001 units is cut to 8000 and marked. *)
Definition long_file : ParsedFile :=
  mkFile (lit "src/long.ts") (List.repeat 120%N (Z.to_nat 8001)) 8001
    (lit ".ts").

(** A manifest declaring the dependency next:
    {"dependencies": {"next": "14.0.0"}} *)
Definition next_manifest : ParsedFile :=
  mkFile (lit "package.json")
    (lit "{" ++ dq ++ lit "dependencies" ++ dq ++ lit ": {" ++ dq ++
     lit "next" ++ dq ++ lit ": " ++ dq ++ lit "14.0.0" ++ dq ++ lit "}}")
    40 (lit ".json").

(** ** Further code: helpers and tools around the scan *)

Module file_reader.

(** [hasPackageLock(files)] of core/file-reader.ts: some file is one of
    the three lock files, at the root or below a directory. *)
Definition hasPackageLock (fs : list ParsedFile) : bool :=
  existsb
    (fun f =>
       bool_decide (path f = lit "package-lock.json")
       || endsWith (path f) (lit "/package-lock.json")
       || bool_decide (path f = lit "yarn.lock")
       || endsWith (path f) (lit "/yarn.lock")
       || bool_decide (path f = lit "pnpm-lock.yaml")
       || endsWith (path f) (lit "/pnpm-lock.yaml"))
    fs.

End file_reader.

(** [v.slice(0, n)] for [0 <= n]: strings and arrays have the method; any
    other value has none that can be called. *)
Definition slice_from_start (v : JsValue) (n : Z) : Result JsValue :=
  match v with
  | JString text => Ok (JString (slice0 text n))
  | JArray elements => Ok (JArray (firstn (Z.to_nat n) elements))
  | _ => Throw (lit "TypeError")
  end.

(** [getCWESummary(cweId)] of security-data/cwe-api.ts; nothing here is
    inside a try block. *)
Definition getCWESummary (numberToString : JsNumber -> jsstring)
    (remote : jsstring -> Result Response)
    (cweId : jsstring) (st : CweState) : Result jsstring * CweState :=
  let '(fetched, st') := fetchCWE numberToString remote cweId st in
  (let* cwe := fetched in
   match cwe with
   | None => Ok (lit "CWE-" ++ strip_cwe_prefix cweId)
   | Some record =>
       let* name := interpolate numberToString (rec_name record) in
       let* cut := slice_from_start (rec_description record) 200 in
       let* description := ToString numberToString cut in
       Ok (rec_id record ++ lit ": " ++ name ++ lit " - " ++
           description ++ lit "...")
   end,
   st').

(** *** tools/check-dependencies.ts *)

Record CheckDependenciesInput : Type := mkCheckInput {
  cd_path : jsstring;
  cd_includeDevDependencies : option bool
}.

Record CheckDependenciesResult : Type := mkCheckResult {
  cd_vulnerabilities : list DependencyVulnerability;
  cd_summary : VulnCounts;
  cd_error : option jsstring;
  npmAvailable : bool
}.

(** What the tool observes outside itself: the outcome of a command run
    without a working directory (command, timeout), and the environment
    of the audit. *)
Record CheckEnv : Type := mkCheckEnv {
  probe : jsstring -> Z -> ExecOutcome;
  check_audit_env : AuditEnv
}.

(** [isNpmAvailable()] of core/npm-audit.ts *)
Definition isNpmAvailable (env : CheckEnv) : bool :=
  match probe env (lit "npm --version") 5000 with
  | ExecDone _ _ => true
  | ExecFailed _ _ => false
  end.

Definition executeCheckDependencies (env : CheckEnv)
    (input : CheckDependenciesInput) : CheckDependenciesResult :=
  if negb (isNpmAvailable env) then
    mkCheckResult [] zero_counts
      (Some (lit "npm is not available. Please install Node.js/npm."))
      false
  else
    let result :=
      runNpmAudit (check_audit_env env) (cd_path input)
        (match cd_includeDevDependencies input with
         | Some b => b
         | None => false
         end)
        60000 in
    mkCheckResult (ar_vulnerabilities result) (ar_summary result)
      (ar_error result) true.

(** A run of lookups one after the other, each against its own answer of
    the remote end. *)
Fixpoint fetch_sequence (numberToString : JsNumber -> jsstring)
    (calls : list ((jsstring -> Result Response) * jsstring)) (st : CweState)
  : CweState :=
  match calls with
  | [] => st
  | (remote, cweId) :: calls' =>
      fetch_sequence numberToString calls'
        (snd (fetchCWE numberToString remote cweId st))
  end.

(** The six categories in the order of the table. *)
Definition ALL_CATEGORIES : list HotspotCategory :=
  [auth; api; database_rules; secrets_env; dependencies; data_flow].

(** The total length of the bodies serialized in a list of parts. *)
Definition bodies_total (ps : list part) : Z :=
  fold_right
    (fun p acc => match p with
                  | FilePart _ body => (jslength body + acc)%Z
                  | OmittedPart _ => acc
                  end)
    0%Z ps.

(** A readme written in another case. *)
Definition shouting_readme : ParsedFile :=
  mkFile (lit "Readme.MD") (lit "# PROJECT") 9 (lit ".md").

(** Every cached record has an id of the form CWE-..., as the records
    that [transformCWEResponse] builds have. *)
Definition cache_ids_prefixed (st : CweState) : Prop :=
  forall k d, cweCache st !! k = Some d -> exists n, rec_id d = lit "CWE-" ++ n.

(** The strings of an optional list of the payload. *)
Definition payload_strings (xs : option (list jsstring)) : list jsstring :=
  match xs with
  | Some items => items
  | None => []
  end.

(** {"findings": [], "summary": "ok"} *)
Definition example_object_inside : jsstring :=
  dq ++ lit "findings" ++ dq ++ lit ": [], " ++
  dq ++ lit "summary" ++ dq ++ lit ": " ++ dq ++ lit "ok" ++ dq.

(** The tree in which the listing of every skipped directory below the
    root is replaced by [other]. *)
Fixpoint hide_skipped (other : Result (list (jsstring * FsNode))) (n : FsNode)
  : FsNode :=
  match n with
  | FsDir (Ok entries) =>
      FsDir (Ok (List.map
        (fun e =>
           match snd e with
           | FsDir _ =>
               if set_has SKIP_DIRECTORIES (fst e) then (fst e, FsDir other)
               else (fst e, hide_skipped other (snd e))
           | _ => e
           end) entries))
  | _ => n
  end.

(** A directory with a source file, a directory that cannot be listed and
    another source file. *)
Definition one_source_file (name : string) : jsstring * FsNode :=
  (lit name, FsFile (Ok 1%Z) (Ok (lit "x"))).

(** A value that is neither an object nor an array. *)
Definition is_primitive (v : JsValue) : bool :=
  match v with
  | JObject _ | JArray _ => false
  | _ => true
  end.

(** The input with another list of categories. *)
Definition with_categories (input : ScanCodebaseInput)
    (categories : option (list HotspotCategory)) : ScanCodebaseInput :=
  mkScanInput (in_path input) (in_files input) categories
    (severityThreshold input).

(** The analysis that a scan of [fs] reports on. *)
Definition reported_analysis (input : ScanCodebaseInput) (fs : list ParsedFile)
  : HotspotAnalysis :=
  match in_categories input with
  | Some (c :: cs) => filterHotspots (collectSecurityHotspots fs) (c :: cs)
  | _ => collectSecurityHotspots fs
  end.

(** The directories audited by a scan with base path [basePath] and
    context [ctx]. *)
Definition audited (basePath : option jsstring) (ctx : ProjectContext)
  : list jsstring :=
  match basePath with
  | Some base => if hasPackageLock ctx then [base] else []
  | None => []
  end.

(** What the scan of the repository with lock files returns. *)
Definition repo_files : list ParsedFile :=
  [ mkFile (lit "package.json") (lit "{}") 2 (lit ".json");
    mkFile (lit "src/login.ts") (lit "authenticate(") 13 (lit ".ts") ].

Definition repo_scan_result : ScanCodebaseResult :=
  mkScanResult
    (List.map transformHotspot (hotspots (collectSecurityHotspots repo_files)))
    [] (mkProjectContext true false None None None true)
    (mkScanSummary 2 2 0 2 0) 1.

(** ** security-data/owasp.ts *)

Record OWASPCategory : Type := mkOWASP {
  owasp_id : jsstring;
  owasp_name : jsstring;
  owasp_description : jsstring;
  year : Z;
  rank : Z
}.

Definition OWASP_TOP_10_WEB : list OWASPCategory :=
  [ mkOWASP (lit "A01:2021") (lit "Broken Access Control")
      (lit "Failures related to access control that allows users to act outside their intended permissions.")
      2021 1;
    mkOWASP (lit "A02:2021") (lit "Cryptographic Failures")
      (lit "Failures related to cryptography which often lead to exposure of sensitive data.")
      2021 2;
    mkOWASP (lit "A03:2021") (lit "Injection")
      (lit "Injection flaws such as SQL, NoSQL, OS, and LDAP injection occur when untrusted data is sent to an interpreter.")
      2021 3;
    mkOWASP (lit "A04:2021") (lit "Insecure Design")
      (lit "Missing or ineffective security controls, often from missing threat modeling during design.")
      2021 4;
    mkOWASP (lit "A05:2021") (lit "Security Misconfiguration")
      (lit "Missing or incorrect security hardening, insecure default configurations, or verbose error messages.")
      2021 5;
    mkOWASP (lit "A06:2021") (lit "Vulnerable and Outdated Components")
      (lit "Using components with known vulnerabilities or unsupported/outdated software.")
      2021 6;
    mkOWASP (lit "A07:2021") (lit "Identification and Authentication Failures")
      (lit "Failures in confirming user identity, authentication, and session management.")
      2021 7;
    mkOWASP (lit "A08:2021") (lit "Software and Data Integrity Failures")
      (lit "Code and infrastructure that does not protect against integrity violations.")
      2021 8;
    mkOWASP (lit "A09:2021") (lit "Security Logging and Monitoring Failures")
      (lit "Insufficient logging, detection, monitoring, and active response.")
      2021 9;
    mkOWASP (lit "A10:2021") (lit "Server-Side Request Forgery (SSRF)")
      (lit "SSRF flaws occur when a web application fetches a remote resource without validating the user-supplied URL.")
      2021 10 ].

Definition OWASP_API_TOP_10 : list OWASPCategory :=
  [ mkOWASP (lit "API1:2023") (lit "Broken Object Level Authorization")
      (lit "APIs expose endpoints that handle object identifiers, creating attack surface for object level access control issues.")
      2023 1;
    mkOWASP (lit "API2:2023") (lit "Broken Authentication")
      (lit "Authentication mechanisms are often implemented incorrectly, allowing attackers to compromise authentication tokens.")
      2023 2;
    mkOWASP (lit "API3:2023") (lit "Broken Object Property Level Authorization")
      (lit "Lack of or improper authorization validation at object property level leading to information exposure or manipulation.")
      2023 3;
    mkOWASP (lit "API4:2023") (lit "Unrestricted Resource Consumption")
      (lit "API requests consume resources such as network bandwidth, CPU, memory, and storage without proper limits.")
      2023 4;
    mkOWASP (lit "API5:2023") (lit "Broken Function Level Authorization")
      (lit "Complex access control policies with different hierarchies, groups, and roles create authorization flaws.")
      2023 5;
    mkOWASP (lit "API6:2023") (lit "Unrestricted Access to Sensitive Business Flows")
      (lit "APIs vulnerable to abuse through excessive access to certain business flows, harming the business.")
      2023 6;
    mkOWASP (lit "API7:2023") (lit "Server Side Request Forgery")
      (lit "SSRF can occur when an API fetches a remote resource without validating the user-supplied URI.")
      2023 7;
    mkOWASP (lit "API8:2023") (lit "Security Misconfiguration")
      (lit "Complex and customizable API configurations can lead to insecure default settings and misconfigurations.")
      2023 8;
    mkOWASP (lit "API9:2023") (lit "Improper Inventory Management")
      (lit "APIs tend to expose more endpoints than traditional web applications, making proper documentation important.")
      2023 9;
    mkOWASP (lit "API10:2023") (lit "Unsafe Consumption of APIs")
      (lit "Developers tend to trust data received from third-party APIs more than user input, adopting weaker security standards.")
      2023 10 ].

(** [getOWASPCategory(id)]: [None] is undefined. *)
Definition getOWASPCategory (id : jsstring) : option OWASPCategory :=
  let allCategories := OWASP_TOP_10_WEB ++ OWASP_API_TOP_10 in
  List.find (fun c => bool_decide (owasp_id c = id)) allCategories.

(** [getRelevantOWASP(topic)], with [String.prototype.toLowerCase] as it
    comes from the platform. *)
Definition getRelevantOWASP (toLowerCase : jsstring -> jsstring)
    (topic : jsstring) : list OWASPCategory :=
  let topicLower := toLowerCase topic in
  let allCategories := OWASP_TOP_10_WEB ++ OWASP_API_TOP_10 in
  List.filter
    (fun c => includes (toLowerCase (owasp_name c)) topicLower
              || includes (toLowerCase (owasp_description c)) topicLower)
    allCategories.

(** The own properties of [FINDING_TO_OWASP], in order. *)
Definition FINDING_TO_OWASP : list (jsstring * list jsstring) :=
  [ (lit "missing-auth", [lit "A01:2021"; lit "API1:2023"; lit "API5:2023"]);
    (lit "broken-auth", [lit "A07:2021"; lit "API2:2023"]);
    (lit "sql-injection", [lit "A03:2021"]);
    (lit "command-injection", [lit "A03:2021"]);
    (lit "xss", [lit "A03:2021"]);
    (lit "ssrf", [lit "A10:2021"; lit "API7:2023"]);
    (lit "hardcoded-secret", [lit "A02:2021"]);
    (lit "exposed-env", [lit "A02:2021"; lit "A05:2021"]);
    (lit "insecure-config", [lit "A05:2021"; lit "API8:2023"]);
    (lit "vulnerable-dependency", [lit "A06:2021"]);
    (lit "missing-rate-limit", [lit "API4:2023"]);
    (lit "data-exposure", [lit "API3:2023"]) ].

(** [FINDING_TO_OWASP[key] || []] for a key that [Object.prototype] does
    not define, as the names of the six categories are. *)
Definition finding_to_owasp (key : jsstring) : list jsstring :=
  match List.find (fun row => bool_decide (fst row = key)) FINDING_TO_OWASP with
  | Some row => snd row
  | None => []
  end.

(** ** core/prompt-builder.ts: the system prompt *)













(** The dependencies of a manifest declare the package [k]. *)
Definition declares (ms : list (jsstring * JsValue)) (k : string) : bool :=
  match lookup_member (lit k) ms with
  | Some _ => true
  | None => false
  end.

(** [fs] is [acc] followed by files that satisfy [Q], and is no longer than
    the longer of [acc] and the limit. *)
Definition reads_well (Q : ParsedFile -> Prop) (acc : list ParsedFile)
    (maxFiles : Z) (fs : list ParsedFile) : Prop :=
  exists new, fs = acc ++ new /\ List.Forall Q new
              /\ (Z.of_nat (length fs) <= Z.max (Z.of_nat (length acc)) maxFiles)%Z.

(* ===================================================================== *)
(** * Part II. Properties                                                 *)
(* ===================================================================== *)

(** ** The matcher decides the language of a pattern *)

Lemma nullable_lang i r : nullable r = true <-> lang i r [].
Proof.
  split.
  - induction r as [| | | | |r1 IH1 r2 IH2|r1 IH1 r2 IH2|r IH]; simpl;
      intros Hn; try discriminate.
    + constructor.
    + apply andb_prop in Hn as [H1 H2].
      change (@nil N) with (@nil N ++ []). constructor; auto.
    + apply orb_prop in Hn as [H1|H2];
        [apply lang_alt_l|apply lang_alt_r]; auto.
    + constructor.
  - intros H. remember [] as s eqn:Hs. revert Hs.
    induction H as [|c d Hm|c|c Hsp|r1 r2 s1 s2 _ IH1 _ IH2
                    |r1 r2 s _ IH|r1 r2 s _ IH|r|r s1 s2 _ _ _ _];
      intros Hs; simpl; try discriminate; try reflexivity.
    + apply app_eq_nil in Hs as [-> ->]. now rewrite IH1, IH2.
    + now rewrite IH.
    + rewrite IH by assumption. apply orb_true_r.
Qed.

Lemma deriv_sound i c r s : lang i (deriv i c r) s -> lang i r (c :: s).
Proof.
  revert s.
  induction r as [| | d | | |r1 IH1 r2 IH2|r1 IH1 r2 IH2|r IH];
    intros s; simpl.
  - inversion 1.
  - inversion 1.
  - destruct (unit_matches i c d) eqn:Hm; inversion 1; subst.
    now constructor.
  - inversion 1; subst. constructor.
  - destruct (is_space c) eqn:Hsp; inversion 1; subst. now constructor.
  - destruct (nullable r1) eqn:Hn.
    + inversion 1 as [| | | | |? ? ? Hl|? ? ? Hr| |]; subst.
      * inversion Hl as [| | | |? ? s1 s2 H1 H2| | | |]; subst.
        change (c :: s1 ++ s2) with ((c :: s1) ++ s2).
        constructor; auto.
      * change (c :: s) with ([] ++ c :: s).
        constructor; [now apply nullable_lang|auto].
    + inversion 1 as [| | | |? ? s1 s2 H1 H2| | | |]; subst.
      change (c :: s1 ++ s2) with ((c :: s1) ++ s2). constructor; auto.
  - inversion 1; subst; [apply lang_alt_l|apply lang_alt_r]; auto.
  - inversion 1 as [| | | |? ? s1 s2 H1 H2| | | |]; subst.
    change (c :: s1 ++ s2) with ((c :: s1) ++ s2). constructor; auto.
Qed.

Lemma deriv_complete i c r s : lang i r (c :: s) -> lang i (deriv i c r) s.
Proof.
  intros H. remember (c :: s) as t eqn:Ht. revert c s Ht.
  induction H as [|c' d Hm|c'|c' Hsp|r1 r2 s1 s2 H1 IH1 H2 IH2
                  |r1 r2 t H IH|r1 r2 t H IH|r|r s1 s2 H1 IH1 H2 IH2];
    intros c s Ht; simpl; try discriminate.
  - injection Ht as -> <-. rewrite Hm. constructor.
  - injection Ht as -> <-. constructor.
  - injection Ht as -> <-. rewrite Hsp. constructor.
  - destruct s1 as [|c1 s1]; simpl in Ht.
    + subst s2. apply nullable_lang in H1. rewrite H1.
      apply lang_alt_r. now apply IH2.
    + injection Ht as -> <-.
      assert (Hseq : lang i (Seq (deriv i c r1) r2) (s1 ++ s2))
        by (constructor; auto).
      destruct (nullable r1); [now apply lang_alt_l|exact Hseq].
  - apply lang_alt_l. now apply IH.
  - apply lang_alt_r. now apply IH.
  - destruct s1 as [|c1 s1]; simpl in Ht.
    + now apply IH2.
    + injection Ht as -> <-. constructor; auto.
Qed.

Lemma matches_lang i r s : matches i r s = true <-> lang i r s.
Proof.
  revert r. induction s as [|c s IH]; intros r; simpl.
  - apply nullable_lang.
  - rewrite IH. split; [apply deriv_sound|apply deriv_complete].
Qed.

Lemma lang_any_text i s : lang i (Star AnyUnit) s.
Proof.
  induction s as [|c s IH]; [constructor|].
  change (c :: s) with ([c] ++ s). constructor; [constructor|exact IH].
Qed.

(** [re.test(s)] holds exactly when some stretch of [s] is in the language
    of the pattern, at the start of [s] under [^] and at its end under
    [$]. *)
Lemma test_lang re s :
  test re s = true <->
  exists pre m post,
    s = pre ++ m ++ post
    /\ lang (ignoreCase re) (body re) m
    /\ (atStart re = true -> pre = [])
    /\ (atEnd re = true -> post = []).
Proof.
  unfold test. rewrite matches_lang. split.
  - inversion 1 as [| | | |? ? pre rest Hpre Hrest| | | |]; subst.
    inversion Hrest as [| | | |? ? m post Hm Hpost| | | |]; subst.
    exists pre, m, post. split; [reflexivity|]. split; [exact Hm|].
    split; intros Ha; rewrite Ha in *.
    + now inversion Hpre.
    + now inversion Hpost.
  - intros (pre & m & post & -> & Hm & Hs & He).
    constructor; [|constructor; [exact Hm|]].
    + destruct (atStart re); [rewrite Hs by reflexivity; constructor|].
      apply lang_any_text.
    + destruct (atEnd re); [rewrite He by reflexivity; constructor|].
      apply lang_any_text.
Qed.

(** ** Lists and sorting *)

Lemma fold_left_push_if {A B : Type} (p : A -> bool) (g : A -> B)
    (l : list A) (acc : list B) :
  fold_left (fun acc x => if p x then acc ++ [g x] else acc) l acc
  = acc ++ List.map g (List.filter p l).
Proof.
  revert acc. induction l as [|x l IH]; intros acc; simpl.
  - now rewrite app_nil_r.
  - rewrite IH. destruct (p x); simpl; [|reflexivity].
    now rewrite <- app_assoc.
Qed.

Section SortFacts.
Context {A : Type} (key : A -> Z).

Let cmp (a b : A) : Z := (key a - key b)%Z.

Lemma sort_insert_In (x y : A) (l : list A) :
  In y (sort_insert cmp x l) <-> y = x \/ In y l.
Proof.
  induction l as [|z l IH]; simpl.
  - intuition.
  - destruct (cmp x z >? 0)%Z; simpl; rewrite ?IH; intuition.
Qed.

Lemma js_sort_In (y : A) (l : list A) : In y (js_sort cmp l) <-> In y l.
Proof.
  induction l as [|x l IH]; simpl; [tauto|].
  rewrite sort_insert_In, IH. intuition.
Qed.



(** Stability: the elements of one key keep their relative order. *)
Lemma sort_insert_filter (v : Z) (x : A) (l : list A) :
  List.filter (fun a => (key a =? v)%Z) (sort_insert cmp x l)
  = List.filter (fun a => (key a =? v)%Z) (x :: l).
Proof.
  induction l as [|z l IH]; [reflexivity|].
  simpl sort_insert. unfold cmp at 1.
  destruct (key x - key z >? 0)%Z eqn:Hgt; [|reflexivity].
  simpl. simpl in IH. rewrite IH.
  destruct (key x =? v)%Z eqn:Hx, (key z =? v)%Z eqn:Hz; try reflexivity.
  lia.
Qed.

Lemma js_sort_filter (v : Z) (l : list A) :
  List.filter (fun a => (key a =? v)%Z) (js_sort cmp l)
  = List.filter (fun a => (key a =? v)%Z) l.
Proof.
  induction l as [|x l IH]; [reflexivity|].
  simpl js_sort. rewrite sort_insert_filter. simpl. now rewrite IH.
Qed.

Lemma sort_insert_sorted (x : A) (l : list A) :
  StronglySorted (fun a b => (key a <= key b)%Z) l ->
  StronglySorted (fun a b => (key a <= key b)%Z) (sort_insert cmp x l).
Proof.
  induction l as [|z l IH]; intros Hs; simpl.
  - constructor; constructor.
  - inversion Hs as [|? ? Hs' Hall]; subst.
    unfold cmp at 1. destruct (key x - key z >? 0)%Z eqn:Hgt.
    + constructor; [now apply IH|].
      apply List.Forall_forall. intros y Hy. apply sort_insert_In in Hy.
      destruct Hy as [->|Hy]; [lia|].
      rewrite List.Forall_forall in Hall. now apply Hall.
    + constructor; [assumption|].
      constructor; [lia|].
      rewrite List.Forall_forall in Hall |- *. intros y Hy.
      specialize (Hall y Hy). lia.
Qed.

Lemma js_sort_sorted (l : list A) :
  StronglySorted (fun a b => (key a <= key b)%Z) (js_sort cmp l).
Proof.
  induction l as [|x l IH]; simpl; [constructor|].
  now apply sort_insert_sorted.
Qed.

End SortFacts.

(** ** The ordered map *)

Section OrderedMapFacts.
Context {K V : Type} `{EqDecision K}.
Implicit Types (m : omap K V) (k : K).

Lemma map_has_keys k m : map_has k m = true <-> In k (List.map fst m).
Proof.
  induction m as [|[k' v] m IH]; simpl; [intuition discriminate|].
  destruct (decide (k = k')) as [->|Hne]; [intuition|].
  rewrite IH. intuition congruence.
Qed.

Lemma map_get_absent k m : ~ In k (List.map fst m) -> map_get k m = None.
Proof.
  induction m as [|[k' v] m IH]; simpl; [reflexivity|].
  intros Hn. destruct (decide (k = k')) as [->|Hne]; [tauto|].
  apply IH. tauto.
Qed.

Lemma map_get_present k m :
  In k (List.map fst m) -> exists v, map_get k m = Some v.
Proof.
  induction m as [|[k' v] m IH]; simpl; [tauto|].
  intros Hin. destruct (decide (k = k')) as [->|Hne]; [eauto|].
  apply IH. destruct Hin; congruence.
Qed.

Lemma map_get_entry k (v : V) m :
  NoDup (List.map fst m) -> In (k, v) m -> map_get k m = Some v.
Proof.
  induction m as [|[k' v'] m IH]; simpl; [tauto|].
  intros Hnd Hin. apply NoDup_cons in Hnd as [Hk' Hnd].
  destruct Hin as [Heq|Hin].
  - injection Heq as -> ->. now rewrite decide_True.
  - destruct (decide (k = k')) as [->|Hne]; [|now apply IH].
    exfalso. apply Hk'. apply list_elem_of_In.
    change k' with (fst (k', v)). now apply in_map.
Qed.

Lemma map_set_fresh_keys k (v : V) m :
  ~ In k (List.map fst m) -> List.map fst (map_set k v m) = List.map fst m ++ [k].
Proof.
  induction m as [|[k' v'] m IH]; simpl; [reflexivity|].
  intros Hn. destruct (decide (k = k')) as [->|Hne]; [tauto|].
  simpl. f_equal. apply IH. tauto.
Qed.

Lemma map_get_set_fresh k k' (v : V) m :
  ~ In k (List.map fst m) ->
  map_get k' (map_set k v m) = if decide (k' = k) then Some v else map_get k' m.
Proof.
  induction m as [|[k0 v0] m IH]; simpl; [reflexivity|].
  intros Hn. destruct (decide (k = k0)) as [->|Hne]; [tauto|].
  simpl. destruct (decide (k' = k0)) as [->|Hne'].
  - now rewrite decide_False by congruence.
  - apply IH. tauto.
Qed.

Lemma map_modify_keys k (f : V -> V) m :
  List.map fst (map_modify k f m) = List.map fst m.
Proof.
  induction m as [|[k' v] m IH]; simpl; [reflexivity|].
  destruct (decide (k = k')); simpl; congruence.
Qed.

Lemma map_get_modify k k' (f : V -> V) m :
  map_get k' (map_modify k f m)
  = if decide (k' = k) then option_map f (map_get k m) else map_get k' m.
Proof.
  induction m as [|[k0 v0] m IH]; simpl.
  - now destruct (decide (k' = k)).
  - destruct (decide (k = k0)) as [->|Hne]; simpl.
    + destruct (decide (k' = k0)); reflexivity.
    + destruct (decide (k' = k0)) as [->|Hne'].
      * now rewrite decide_False by congruence.
      * apply IH.
Qed.

End OrderedMapFacts.

(** ** The classification loop *)

Lemma first_seen_from_In c seen cs :
  In c (first_seen_from seen cs) <-> In c seen \/ In c cs.
Proof.
  revert seen. induction cs as [|c' cs IH]; intros seen; simpl.
  - unfold first_seen_from. simpl. tauto.
  - unfold first_seen_from in *. simpl. rewrite IH.
    case_bool_decide as Hc.
    + apply list_elem_of_In in Hc. intuition congruence.
    + rewrite in_app_iff. simpl. intuition.
Qed.

Lemma first_seen_from_NoDup seen cs :
  NoDup seen -> NoDup (first_seen_from seen cs).
Proof.
  revert seen. induction cs as [|c' cs IH]; intros seen Hnd; simpl.
  - exact Hnd.
  - unfold first_seen_from in *. simpl. apply IH.
    case_bool_decide as Hc; [exact Hnd|].
    apply NoDup_app. split; [exact Hnd|]. split.
    + intros x Hx Hx'. apply list_elem_of_singleton in Hx'. now subst.
    + apply NoDup_singleton.
Qed.

Lemma first_seen_from_app seen cs1 cs2 :
  first_seen_from seen (cs1 ++ cs2)
  = first_seen_from (first_seen_from seen cs1) cs2.
Proof. unfold first_seen_from. apply fold_left_app. Qed.

Lemma add_to_bucket_keys f m c :
  List.map fst (add_to_bucket f m c) = first_seen_from (List.map fst m) [c].
Proof.
  unfold add_to_bucket, first_seen_from. simpl.
  rewrite map_modify_keys.
  destruct (map_has c m) eqn:Hhas.
  - apply map_has_keys in Hhas. rewrite bool_decide_true; [reflexivity|].
    now apply list_elem_of_In.
  - assert (Hn : ~ In c (List.map fst m)).
    { intros Hin. apply map_has_keys in Hin. congruence. }
    rewrite bool_decide_false by (now rewrite list_elem_of_In).
    now apply map_set_fresh_keys.
Qed.

Lemma add_to_bucket_bucket f m c c' :
  bucket (add_to_bucket f m c) c'
  = if decide (c' = c) then bucket m c ++ [f] else bucket m c'.
Proof.
  unfold add_to_bucket, bucket. rewrite map_get_modify.
  destruct (map_has c m) eqn:Hhas.
  - destruct (decide (c' = c)) as [->|]; [|reflexivity].
    apply map_has_keys, map_get_present in Hhas as [b Hb].
    now rewrite Hb.
  - assert (Hn : ~ In c (List.map fst m)).
    { intros Hin. apply map_has_keys in Hin. congruence. }
    rewrite !map_get_set_fresh by assumption.
    rewrite (map_get_absent c m Hn).
    destruct (decide (c' = c)) as [->|Hne].
    + now rewrite decide_True.
    + reflexivity.
Qed.

(** All the categories of one file. *)
Lemma add_all_keys f cs m :
  List.map fst (fold_left (add_to_bucket f) cs m)
  = first_seen_from (List.map fst m) cs.
Proof.
  revert m. induction cs as [|c cs IH]; intros m; [reflexivity|].
  simpl fold_left. rewrite IH, add_to_bucket_keys.
  change (c :: cs) with ([c] ++ cs). now rewrite first_seen_from_app.
Qed.

Lemma add_all_bucket f cs m c' :
  NoDup cs ->
  bucket (fold_left (add_to_bucket f) cs m) c'
  = bucket m c' ++ (if bool_decide (c' ∈ cs) then [f] else []).
Proof.
  revert m. induction cs as [|c cs IH]; intros m Hnd.
  - simpl fold_left. case_bool_decide as Hin.
    + now apply not_elem_of_nil in Hin.
    + now rewrite app_nil_r.
  - apply NoDup_cons in Hnd as [Hc Hnd]. simpl fold_left.
    rewrite IH by assumption. rewrite add_to_bucket_bucket.
    destruct (decide (c' = c)) as [->|Hne].
    + rewrite (bool_decide_false (c ∈ cs)) by assumption.
      rewrite bool_decide_true by apply list_elem_of_here.
      now rewrite app_nil_r.
    + case_bool_decide as H1; case_bool_decide as H2; try reflexivity.
      * exfalso. apply H2. now apply list_elem_of_further.
      * exfalso. apply elem_of_cons in H2 as [?|?]; [congruence|tauto].
Qed.

Lemma find_existsb {A : Type} (p : A -> bool) (l : list A) :
  match List.find p l with
  | Some _ => existsb p l = true
  | None => existsb p l = false
  end.
Proof.
  induction l as [|x l IH]; simpl; [reflexivity|].
  destruct (p x); simpl; [reflexivity|exact IH].
Qed.

Lemma shouldSkipFile_skip_match f :
  match shouldSkipFile f with
  | Some _ => skip_match f = true
  | None => skip_match f = false
  end.
Proof. unfold shouldSkipFile, skip_match. apply find_existsb. Qed.

Lemma categorizeFile_filter f :
  categorizeFile f
  = List.map cp_category
      (List.filter (fun cp => category_matches cp f) CATEGORY_PATTERNS).
Proof. unfold categorizeFile. now rewrite fold_left_push_if. Qed.

Lemma categorizeFile_In c f :
  In c (categorizeFile f) <-> category_match c f = true.
Proof.
  rewrite categorizeFile_filter. unfold category_match.
  rewrite in_map_iff, existsb_exists. split.
  - intros (cp & Hc & Hin). apply filter_In in Hin as [Hin Hm].
    exists cp. split; [exact Hin|].
    rewrite bool_decide_true by exact Hc. exact Hm.
  - intros (cp & Hin & Hm). apply andb_prop in Hm as [Hc Hm].
    apply bool_decide_eq_true in Hc. exists cp. split; [exact Hc|].
    apply filter_In. now split.
Qed.

Lemma NoDup_map_filter {A B : Type} (g : A -> B) (p : A -> bool) (l : list A) :
  NoDup (List.map g l) -> NoDup (List.map g (List.filter p l)).
Proof.
  induction l as [|x l IH]; simpl; [trivial|].
  intros Hnd. apply NoDup_cons in Hnd as [Hx Hnd].
  destruct (p x); simpl; [|now apply IH].
  apply NoDup_cons. split; [|now apply IH].
  intros Hin. apply Hx. apply list_elem_of_In in Hin.
  apply list_elem_of_In. apply in_map_iff in Hin as (y & Hy & Hin).
  apply filter_In in Hin as [Hin _]. apply in_map_iff. eauto.
Qed.

Lemma table_categories :
  List.map cp_category CATEGORY_PATTERNS
  = [auth; api; database_rules; secrets_env; dependencies; data_flow].
Proof. reflexivity. Qed.

Lemma categorizeFile_NoDup f : NoDup (categorizeFile f).
Proof.
  rewrite categorizeFile_filter. apply NoDup_map_filter.
  rewrite table_categories. apply (bool_decide_unpack _). reflexivity.
Qed.

Lemma collect_loop fs m sk :
  exists m',
    fold_left collect_step fs (m, sk)
    = (m', sk ++ List.map path (List.filter skip_match fs))
    /\ List.map fst m' = first_seen_from (List.map fst m) (scan_categories fs)
    /\ forall c, bucket m' c = bucket m c ++ List.filter (lands_in c) fs.
Proof.
  revert m sk. induction fs as [|f fs IH]; intros m sk.
  - exists m. simpl. rewrite app_nil_r. split; [reflexivity|].
    split; [reflexivity|]. intros c. now rewrite app_nil_r.
  - change (fold_left collect_step (f :: fs) (m, sk))
      with (fold_left collect_step fs (collect_step (m, sk) f)).
    pose proof (shouldSkipFile_skip_match f) as Hskip.
    unfold scan_categories, lands_in. simpl List.filter.
    unfold collect_step at 2.
    destruct (shouldSkipFile f) as [sp|]; rewrite Hskip; simpl.
    + destruct (IH m (sk ++ [path f])) as (m' & Hfold & Hkeys & Hb).
      exists m'. rewrite Hfold, <- app_assoc. simpl.
      split; [reflexivity|]. split; [exact Hkeys|exact Hb].
    + destruct (IH (fold_left (add_to_bucket f) (categorizeFile f) m) sk)
        as (m' & Hfold & Hkeys & Hb).
      exists m'. split; [exact Hfold|]. split.
      * rewrite Hkeys, add_all_keys, first_seen_from_app. reflexivity.
      * intros c. rewrite Hb, add_all_bucket by apply categorizeFile_NoDup.
        rewrite <- app_assoc. f_equal.
        destruct (category_match c f) eqn:Hc.
        -- apply categorizeFile_In in Hc.
           rewrite bool_decide_true by (now apply list_elem_of_In).
           reflexivity.
        -- rewrite bool_decide_false; [reflexivity|].
           rewrite list_elem_of_In, categorizeFile_In. congruence.
Qed.

(** The map after the loop: its keys in first-seen order, and under each
    key the files that land in the category, in scan order. *)
Lemma collect_map fs :
  exists m,
    fold_left collect_step fs ([], [])
    = (m, List.map path (List.filter skip_match fs))
    /\ List.map fst m = first_seen (scan_categories fs)
    /\ NoDup (List.map fst m)
    /\ forall c b, In (c, b) m -> b = List.filter (lands_in c) fs.
Proof.
  destruct (collect_loop fs [] []) as (m & Hfold & Hkeys & Hb).
  exists m. split; [exact Hfold|]. split; [exact Hkeys|].
  assert (Hnd : NoDup (List.map fst m)).
  { rewrite Hkeys. apply first_seen_from_NoDup. constructor. }
  split; [exact Hnd|]. intros c b Hin.
  specialize (Hb c). unfold bucket in Hb.
  rewrite (map_get_entry c b m Hnd Hin) in Hb. exact Hb.
Qed.

Lemma sort_insert_perm {A : Type} (cmp : A -> A -> Z) (x : A) (l : list A) :
  sort_insert cmp x l ≡ₚ x :: l.
Proof.
  induction l as [|y l IH]; simpl; [reflexivity|].
  destruct (cmp x y >? 0)%Z; [|reflexivity].
  rewrite IH. apply perm_swap.
Qed.

Lemma js_sort_perm {A : Type} (cmp : A -> A -> Z) (l : list A) :
  js_sort cmp l ≡ₚ l.
Proof.
  induction l as [|x l IH]; simpl; [reflexivity|].
  now rewrite sort_insert_perm, IH.
Qed.

Lemma by_priority_key : by_priority = fun a b => (priority_key a - priority_key b)%Z.
Proof. reflexivity. Qed.

Lemma build_hotspot_category e : category (build_hotspot e) = fst e.
Proof. now destruct e. Qed.

Lemma build_hotspot_priority e :
  priority (build_hotspot e) = getCategoryPriority (fst e).
Proof. now destruct e. Qed.

(** The analysis in terms of the map left by the loop. *)
Lemma collect_analysis fs :
  exists m,
    hotspots (collectSecurityHotspots fs)
    = js_sort by_priority (List.map build_hotspot m)
    /\ skippedFiles (collectSecurityHotspots fs)
       = List.map path (List.filter skip_match fs)
    /\ List.map fst m = first_seen (scan_categories fs)
    /\ NoDup (List.map fst m)
    /\ forall c b, In (c, b) m -> b = List.filter (lands_in c) fs.
Proof.
  destruct (collect_map fs) as (m & Hfold & Hkeys & Hnd & Hb).
  exists m. unfold collectSecurityHotspots. rewrite Hfold. simpl.
  auto.
Qed.

Lemma hotspot_entry fs h :
  In h (hotspots (collectSecurityHotspots fs)) ->
  files h = List.filter (lands_in (category h)) fs
  /\ In (category h) (first_seen (scan_categories fs))
  /\ priority h = getCategoryPriority (category h).
Proof.
  destruct (collect_analysis fs) as (m & Hh & _ & Hkeys & _ & Hb).
  rewrite Hh, by_priority_key. intros Hin.
  apply js_sort_In in Hin. apply in_map_iff in Hin as ([c b] & <- & Hin).
  simpl. split; [now apply Hb|]. split; [|reflexivity].
  rewrite <- Hkeys. change c with (fst (c, b)). now apply in_map.
Qed.

Lemma scan_categories_In c fs :
  In c (scan_categories fs) <-> exists f, In f fs /\ lands_in c f = true.
Proof.
  unfold scan_categories, lands_in. rewrite in_flat_map. split.
  - intros (f & Hf & Hc). apply filter_In in Hf as [Hf Hs].
    exists f. split; [exact Hf|]. rewrite Hs. simpl.
    now apply categorizeFile_In.
  - intros (f & Hf & Hl). apply andb_prop in Hl as [Hs Hc].
    exists f. split; [apply filter_In; now split|].
    now apply categorizeFile_In.
Qed.

Lemma first_seen_In c cs : In c (first_seen cs) <-> In c cs.
Proof.
  change (first_seen cs) with (first_seen_from [] cs).
  rewrite first_seen_from_In. simpl. tauto.
Qed.

Lemma hotspot_categories fs :
  List.map category (hotspots (collectSecurityHotspots fs))
  ≡ₚ first_seen (scan_categories fs).
Proof.
  destruct (collect_analysis fs) as (m & Hh & _ & Hkeys & _ & _).
  rewrite Hh, js_sort_perm, <- Hkeys, List.map_map.
  erewrite List.map_ext; [reflexivity|]. intros e. apply build_hotspot_category.
Qed.

(** ** Distinct paths *)

Lemma securityRelevantSet_paths hs :
  securityRelevantSet hs = list_to_set (all_hotspot_paths hs).
Proof.
  unfold securityRelevantSet.
  assert (Hinner : forall (l : list ParsedFile) (acc : gset jsstring),
    fold_left (fun acc' file => acc' ∪ {[ path file ]}) l acc
    = acc ∪ list_to_set (List.map path l)).
  { induction l as [|f l IH]; intros acc; simpl.
    - set_solver.
    - rewrite IH. set_solver. }
  assert (Houter : forall (l : list SecurityHotspot) (acc : gset jsstring),
    fold_left
      (fun acc hotspot =>
         fold_left (fun acc' file => acc' ∪ {[ path file ]}) (files hotspot) acc)
      l acc
    = acc ∪ list_to_set (all_hotspot_paths l)).
  { induction l as [|h l IH]; intros acc; simpl.
    - set_solver.
    - rewrite IH, Hinner, list_to_set_app_L. set_solver. }
  rewrite Houter. set_solver.
Qed.

Lemma size_list_to_set_remove_dups (l : list jsstring) :
  base.size (list_to_set l : gset jsstring) = length (remove_dups l).
Proof.
  rewrite <- (size_list_to_set (C := gset jsstring) (remove_dups l))
    by apply NoDup_remove_dups.
  f_equal. apply set_eq. intros x.
  rewrite !elem_of_list_to_set. now rewrite elem_of_remove_dups.
Qed.

Lemma remove_dups_length (l : list jsstring) :
  length (remove_dups l) <= length l
  /\ (~ NoDup l -> length (remove_dups l) < length l).
Proof.
  induction l as [|x l [IHle IHlt]]; simpl.
  - split; [lia|]. intros Hn. exfalso. apply Hn. constructor.
  - case_decide as Hx; simpl.
    + split; lia.
    + split; [lia|]. intros Hn. apply -> Nat.succ_lt_mono. apply IHlt.
      intros Hnd. apply Hn. now constructor.
Qed.

Lemma flat_map_length_sum {A B : Type} (g : A -> list B) (l : list A) :
  length (flat_map g l) = list_sum (List.map (fun a => length (g a)) l).
Proof.
  induction l as [|a l IH]; simpl; [reflexivity|].
  now rewrite length_app, IH.
Qed.

(** C1. For every list of scanned files, [securityRelevantFiles] of the
    analysis is the number of distinct file paths occurring across all the
    hotspots. It never exceeds the sum of the per-hotspot file counts, and
    it is strictly smaller than that sum as soon as some path occurs more
    than once across the hotspots, as it does when one file lands in
    several of them. *)
Theorem C1_securityRelevantFiles_counts_distinct_paths (fs : list ParsedFile) :
  let analysis := collectSecurityHotspots fs in
  let paths := all_hotspot_paths (hotspots analysis) in
  securityRelevantFiles analysis = Z.of_nat (length (remove_dups paths))
  /\ (securityRelevantFiles analysis
      <= Z.of_nat (per_hotspot_total (hotspots analysis)))%Z
  /\ (~ NoDup paths ->
      (securityRelevantFiles analysis
       < Z.of_nat (per_hotspot_total (hotspots analysis)))%Z).
Proof.
  intros analysis paths.
  assert (Hsrf : securityRelevantFiles analysis
                 = Z.of_nat (length (remove_dups paths))).
  { subst analysis paths. unfold collectSecurityHotspots.
    destruct (fold_left collect_step fs ([], [])) as [m sk]. simpl.
    now rewrite securityRelevantSet_paths, size_list_to_set_remove_dups. }
  assert (Hsum : per_hotspot_total (hotspots analysis) = length paths).
  { subst paths. unfold per_hotspot_total, all_hotspot_paths.
    rewrite flat_map_length_sum. f_equal. apply List.map_ext.
    intros h. now rewrite length_map. }
  destruct (remove_dups_length paths) as [Hle Hlt].
  rewrite Hsrf, Hsum. split; [reflexivity|]. split; [lia|].
  intros Hn. specialize (Hlt Hn). lia.
Qed.

(** ** Membership of the hotspots *)

Lemma skip_match_path f g : path f = path g -> skip_match f = skip_match g.
Proof. unfold skip_match. now intros ->. Qed.

(** C2. For every list of scanned files: the skipped paths are those of the
    files whose path matches a skip pattern, in scan order; such a file is
    in [skippedFiles] and no hotspot holds a file of its path, whatever its
    content. The files of a hotspot are exactly the scanned files that match
    no skip pattern and match the hotspot's category by a path or a content
    pattern, in scan order; every such file is in the hotspot of each
    category it matches, and there is one hotspot per category. *)
Theorem C2_skip_and_category_membership (fs : list ParsedFile) :
  let analysis := collectSecurityHotspots fs in
  skippedFiles analysis = List.map path (List.filter skip_match fs)
  /\ (forall f, In f fs -> skip_match f = true ->
        In (path f) (skippedFiles analysis)
        /\ forall h g, In h (hotspots analysis) -> In g (files h) ->
             path g <> path f)
  /\ (forall h, In h (hotspots analysis) ->
        files h = List.filter (lands_in (category h)) fs)
  /\ (forall f c, In f fs -> skip_match f = false ->
        category_match c f = true ->
        exists h, In h (hotspots analysis) /\ category h = c /\ In f (files h))
  /\ NoDup (List.map category (hotspots analysis)).
Proof.
  intros analysis. subst analysis.
  destruct (collect_analysis fs) as (m & Hh & Hsk & Hkeys & Hnd & Hb).
  split; [exact Hsk|]. split; [|split; [|split]].
  - intros f Hf Hskip. split.
    + rewrite Hsk. apply in_map. apply filter_In. now split.
    + intros h g Hin Hg Hpath.
      apply hotspot_entry in Hin as (Hfiles & _ & _).
      rewrite Hfiles in Hg. apply filter_In in Hg as [_ Hl].
      unfold lands_in in Hl. rewrite (skip_match_path g f Hpath), Hskip in Hl.
      discriminate.
  - intros h Hin. now apply hotspot_entry in Hin as (Hfiles & _ & _).
  - intros f c Hf Hskip Hc.
    assert (Hl : lands_in c f = true) by (unfold lands_in; now rewrite Hskip, Hc).
    assert (Hin : In c (List.map category (hotspots (collectSecurityHotspots fs)))).
    { apply list_elem_of_In. rewrite hotspot_categories.
      apply list_elem_of_In, first_seen_In, scan_categories_In. eauto. }
    apply in_map_iff in Hin as (h & Hcat & Hin). exists h.
    split; [exact Hin|]. split; [exact Hcat|].
    apply hotspot_entry in Hin as (Hfiles & _ & _).
    rewrite Hfiles, Hcat. apply filter_In. now split.
  - rewrite hotspot_categories.
    change (first_seen (scan_categories fs))
      with (first_seen_from [] (scan_categories fs)).
    apply first_seen_from_NoDup. constructor.
Qed.

(** ** Order of the hotspots *)

Lemma filter_priority_key (p : HotspotPriority) (hs : list SecurityHotspot) :
  List.filter (fun h => bool_decide (priority h = p)) hs
  = List.filter (fun h => (priority_key h =? priorityOrder p)%Z) hs.
Proof.
  apply List.filter_ext. intros h. unfold priority_key.
  destruct (priority h), p; reflexivity.
Qed.

Lemma filter_map_comm {A B : Type} (g : A -> B) (p : B -> bool) (l : list A) :
  List.filter p (List.map g l) = List.map g (List.filter (fun a => p (g a)) l).
Proof.
  induction l as [|a l IH]; simpl; [reflexivity|].
  destruct (p (g a)); simpl; now rewrite IH.
Qed.

Lemma api_then_auth_hotspots :
  List.map category (hotspots (collectSecurityHotspots api_then_auth))
  = [api; auth].
Proof. vm_compute. reflexivity. Qed.

(** C3 as stated fails: an api file scanned before an auth file puts the
    api hotspot first, although auth precedes api in the table and both are
    critical. *)
Lemma C3_table_order_counterexample :
  ~ table_order_tie_break (hotspots (collectSecurityHotspots api_then_auth)).
Proof.
  assert (Hfirst_two : exists h0 h1,
    nth_error (hotspots (collectSecurityHotspots api_then_auth)) 0 = Some h0
    /\ nth_error (hotspots (collectSecurityHotspots api_then_auth)) 1 = Some h1
    /\ priority h0 = priority h1
    /\ table_index (category h0) = 1%Z
    /\ table_index (category h1) = 0%Z).
  { vm_compute. eexists. eexists. repeat split. }
  destruct Hfirst_two as (h0 & h1 & H0 & H1 & Hp & Hc0 & Hc1).
  intros Hclaim.
  destruct (Hclaim 0%nat 1%nat h0 h1 ltac:(lia) H0 H1) as [_ Htie].
  specialize (Htie Hp). lia.
Qed.

(** C3, amended. For every list of scanned files the hotspots are in
    ascending priority (critical, then high, then medium), every hotspot
    carries the priority of its category in the table, and the hotspots of
    one priority are in the order in which their categories were first
    matched during the scan (table order only among categories first
    matched by the same file). *)
Theorem C3_priority_then_first_seen_order (fs : list ParsedFile) :
  let hs := hotspots (collectSecurityHotspots fs) in
  StronglySorted
    (fun a b => (priorityOrder (priority a) <= priorityOrder (priority b))%Z) hs
  /\ (forall h, In h hs -> priority h = getCategoryPriority (category h))
  /\ (forall p,
        List.map category
          (List.filter (fun h => bool_decide (priority h = p)) hs)
        = List.filter (fun c => bool_decide (getCategoryPriority c = p))
            (first_seen (scan_categories fs))).
Proof.
  intros hs. subst hs.
  destruct (collect_analysis fs) as (m & Hh & _ & Hkeys & _ & _).
  split; [|split].
  - rewrite Hh, by_priority_key. apply (js_sort_sorted priority_key).
  - intros h Hin. now apply hotspot_entry in Hin as (_ & _ & Hp).
  - intros p. rewrite filter_priority_key, Hh, by_priority_key.
    rewrite (js_sort_filter priority_key), <- filter_priority_key.
    rewrite <- Hkeys, !filter_map_comm, List.map_map.
    rewrite (List.map_ext _ fst) by apply build_hotspot_category.
    f_equal. apply List.filter_ext. intros e.
    now rewrite build_hotspot_priority.
Qed.

(** ** filterHotspots *)

(** C7. For every analysis and every list of categories, the hotspots of
    [filterHotspots] are the hotspots of the analysis whose category is in
    the list, in their original order, and [totalFiles], [skippedFiles] and
    [securityRelevantFiles] are those of the analysis. *)
Theorem C7_filterHotspots_frame (analysis : HotspotAnalysis)
    (categories : list HotspotCategory) :
  let filtered := filterHotspots analysis categories in
  hotspots filtered
  = List.filter (fun h => bool_decide (category h ∈ categories))
      (hotspots analysis)
  /\ (forall h, In h (hotspots filtered) <->
        In h (hotspots analysis) /\ In (category h) categories)
  /\ totalFiles filtered = totalFiles analysis
  /\ skippedFiles filtered = skippedFiles analysis
  /\ securityRelevantFiles filtered = securityRelevantFiles analysis.
Proof.
  intros filtered. subst filtered. unfold filterHotspots. simpl.
  split; [reflexivity|]. split; [|auto].
  intros h. rewrite filter_In. rewrite bool_decide_eq_true.
  now rewrite list_elem_of_In.
Qed.

(** ** The user prompt *)


Lemma format_loop_cut n rest parts total :
  exists k,
    (k <= length rest)%nat
    /\ format_loop n rest parts total
       = parts ++ List.map file_part (firstn k rest)
         ++ (if (k <? length rest)%nat
             then [OmittedPart (n - Z.of_nat (length parts + k))]
             else [])
    /\ (forall j, (j < k)%nat ->
          (total + serialized_total (firstn j rest) <= maxTotalChars)%Z)
    /\ ((k < length rest)%nat ->
          (total + serialized_total (firstn k rest) > maxTotalChars)%Z).
Proof.
  revert parts total. induction rest as [|f rest IH]; intros parts total.
  - exists 0%nat. simpl. rewrite app_nil_r.
    split; [lia|]. split; [reflexivity|]. split; intros; lia.
  - simpl format_loop. destruct (total >? maxTotalChars)%Z eqn:Hgt.
    + exists 0%nat. simpl. rewrite Nat.add_0_r.
      split; [lia|]. split; [reflexivity|]. split; intros; lia.
    + destruct (IH (parts ++ [file_part f])
                  (total + jslength (truncateContent (content f) default_maxChars))%Z)
        as (k & Hk & Heq & Hbelow & Hover).
      exists (S k). split; [simpl; lia|]. split; [|split].
      * unfold file_part in Heq at 1. rewrite Heq. simpl firstn. simpl List.map.
        rewrite <- app_assoc. simpl. rewrite length_app. simpl.
        replace (length parts + 1 + k)%nat with (length parts + S k)%nat by lia.
        change (S k <? S (length rest))%nat with (k <? length rest)%nat.
        reflexivity.
      * intros j Hj. destruct j as [|j]; simpl; [lia|].
        specialize (Hbelow j ltac:(lia)). lia.
      * intros Hlt. simpl in Hlt. simpl. specialize (Hover ltac:(lia)). lia.
Qed.

Lemma by_size_key : by_size = fun a b => (size a - size b)%Z.
Proof. reflexivity. Qed.

Lemma truncateContent_cases (text : jsstring) :
  ((jslength text <= default_maxChars)%Z
   /\ truncateContent text default_maxChars = text)
  \/ ((jslength text > default_maxChars)%Z
      /\ truncateContent text default_maxChars
         = slice0 text 8000 ++ truncation_marker
      /\ jslength (slice0 text 8000) = 8000%Z).
Proof.
  unfold truncateContent, default_maxChars, jslength, slice0.
  destruct (Z.of_nat (length text) <=? 8000)%Z eqn:Hle.
  - left. split; [lia|reflexivity].
  - right. split; [lia|]. split; [reflexivity|].
    rewrite firstn_length_le; lia.
Qed.

Lemma truncation_marker_text :
  truncation_marker = [10%N] ++ lit "... " ++ lit "[truncated]"
  /\ jslength truncation_marker = 16%Z.
Proof. split; reflexivity. Qed.

Lemma firstn_incl {A : Type} (x : A) (n : nat) (l : list A) :
  In x (firstn n l) -> In x l.
Proof.
  revert l. induction n as [|n IH]; intros [|y l]; simpl; try tauto.
  intros [->|Hin]; [now left|right; now apply IH].
Qed.

Lemma format_parts_bodies fs f body :
  In (FilePart f body) (format_parts fs) ->
  In f fs /\ body = truncateContent (content f) default_maxChars.
Proof.
  unfold format_parts.
  destruct (format_loop_cut (Z.of_nat (length (js_sort by_size fs)))
              (js_sort by_size fs) [] 0) as (k & _ & Heq & _ & _).
  rewrite Heq. simpl. rewrite in_app_iff. intros [Hin|Hin].
  - apply in_map_iff in Hin as (g & Hg & Hin). injection Hg as -> <-.
    split; [|reflexivity].
    apply firstn_incl in Hin.
    rewrite by_size_key in Hin. now apply js_sort_In in Hin.
  - destruct (k <? length (js_sort by_size fs))%nat; simpl in Hin.
    + destruct Hin as [Hin|[]]. discriminate.
    + destruct Hin.
Qed.

(** The prompt in full, given where the serialization stops. *)
Lemma prompt_of_parts (hotspot : SecurityHotspot) (k : nat) :
  let sorted := js_sort by_size (files hotspot) in
  let n := length sorted in
  format_parts (files hotspot)
  = List.map file_part (firstn k sorted)
    ++ (if (k <? n)%nat then [OmittedPart (Z.of_nat n - Z.of_nat k)] else []) ->
  buildUserPrompt hotspot
  = lit "Analyze these " ++ category_name (category hotspot) ++
    lit " files for security vulnerabilities:" ++ nl ++ nl ++
    join nl
      (List.map
         (fun f =>
            nl ++ lit "### File: " ++ path f ++ nl ++ lit "```" ++
            (if truthy_string (slice1 (extension f))
             then slice1 (extension f) else lit "text") ++
            nl ++ truncateContent (content f) 8000 ++ nl ++ lit "```")
         (firstn k sorted)
       ++ (if (k <? n)%nat
           then [nl ++ lit "... and " ++ decimal (Z.of_nat n - Z.of_nat k) ++
                 lit " more files (truncated for size)"]
           else []))
    ++ nl ++ nl ++ lit "Respond with a JSON object containing your findings.".
Proof.
  intros sorted n Hparts. unfold buildUserPrompt, formatFilesForPrompt.
  rewrite Hparts, List.map_app, List.map_map.
  now destruct (k <? n)%nat.
Qed.

(** C8. The prompt of [buildUserPrompt] is its opening line, the blocks of
    the files serialized (the smallest first), the line about omitted files
    if there is one, and its closing line. The body in the block of a file
    is the content itself when the content has at most 8000 units, and
    otherwise the first 8000 units of the content followed by the marker,
    a newline and "... [truncated]"; so no body is longer than 8000 units
    plus the 16 of the marker. *)
Theorem C8_serialized_body_bounded (hotspot : SecurityHotspot) :
  let sorted := js_sort by_size (files hotspot) in
  let n := length sorted in
  (exists k,
     (k <= n)%nat
     /\ buildUserPrompt hotspot
        = lit "Analyze these " ++ category_name (category hotspot) ++
          lit " files for security vulnerabilities:" ++ nl ++ nl ++
          join nl
            (List.map
               (fun f =>
                  nl ++ lit "### File: " ++ path f ++ nl ++ lit "```" ++
                  (if truthy_string (slice1 (extension f))
                   then slice1 (extension f) else lit "text") ++
                  nl ++ truncateContent (content f) 8000 ++ nl ++ lit "```")
               (firstn k sorted)
             ++ (if (k <? n)%nat
                 then [nl ++ lit "... and " ++
                       decimal (Z.of_nat n - Z.of_nat k) ++
                       lit " more files (truncated for size)"]
                 else []))
          ++ nl ++ nl ++
          lit "Respond with a JSON object containing your findings.")
  /\ (forall text,
        let body := truncateContent text 8000 in
        (jslength body <= 8000 + 16)%Z
        /\ ((jslength text <= 8000)%Z -> body = text)
        /\ ((jslength text > 8000)%Z ->
            body = slice0 text 8000 ++ nl ++ lit "... [truncated]"
            /\ jslength (slice0 text 8000) = 8000%Z))
  /\ endsWith (nl ++ lit "... [truncated]") (lit "[truncated]") = true
  /\ buildUserPrompt hotspot
     = lit "Analyze these " ++ category_name (category hotspot) ++
       lit " files for security vulnerabilities:" ++ nl ++ nl ++
       join nl (List.map render_part (format_parts (files hotspot))) ++
       nl ++ nl ++
       lit "Respond with a JSON object containing your findings."
  /\ forall f body,
       In (FilePart f body) (format_parts (files hotspot)) ->
       In f (files hotspot)
       /\ render_part (FilePart f body)
          = nl ++ lit "### File: " ++ path f ++ nl ++ lit "```" ++
            (if truthy_string (slice1 (extension f))
             then slice1 (extension f) else lit "text") ++
            nl ++ body ++ nl ++ lit "```"
       /\ (jslength body <= 8000 + jslength truncation_marker)%Z
       /\ ((jslength (content f) <= 8000)%Z -> body = content f)
       /\ ((jslength (content f) > 8000)%Z ->
           body = slice0 (content f) 8000 ++ truncation_marker
           /\ jslength (slice0 (content f) 8000) = 8000%Z).
Proof.
  intros sorted n.
  assert (Hcases : forall text,
    let body := truncateContent text 8000 in
    (jslength body <= 8000 + 16)%Z
    /\ ((jslength text <= 8000)%Z -> body = text)
    /\ ((jslength text > 8000)%Z ->
        body = slice0 text 8000 ++ nl ++ lit "... [truncated]"
        /\ jslength (slice0 text 8000) = 8000%Z)).
  { intros text body. subst body.
    destruct truncation_marker_text as [_ Hm].
    destruct (truncateContent_cases text) as [[Hle Heq]|(Hgt & Heq & Hlen)];
      unfold default_maxChars in *; rewrite Heq.
    - split; [lia|]. split; [reflexivity|lia].
    - split.
      + unfold jslength in *. rewrite length_app. lia.
      + split; [lia|]. intros _. split; [reflexivity|exact Hlen]. }
  split; [|split; [exact Hcases|split; [reflexivity|split; [reflexivity|]]]].
  - destruct (format_loop_cut (Z.of_nat n) sorted [] 0)
      as (k & Hk & Heq & _ & _).
    exists k. split; [exact Hk|].
    apply prompt_of_parts. unfold format_parts. fold sorted. fold n.
    rewrite Heq. reflexivity.
  - intros f body Hin. apply format_parts_bodies in Hin as [Hf ->].
    split; [exact Hf|]. split; [reflexivity|].
    destruct truncation_marker_text as [_ Hm]. rewrite Hm.
    destruct (Hcases (content f)) as (Hlen & Hshort & Hlong).
    split; [exact Hlen|]. split; [exact Hshort|exact Hlong].
Qed.

(** C4 as stated fails: the single file of a hotspot is serialized (cut to
    8000 units) however long it is, and no line about omitted files is
    produced. *)
Lemma C4_budget_counterexample : ~ budget_claim one_large_file.
Proof.
  assert (Hlong : (total_content (files one_large_file) > 100000)%Z)
    by (vm_compute; reflexivity).
  assert (Hnone : has_omitted_line (format_parts (files one_large_file)) = false)
    by (vm_compute; reflexivity).
  intros Hclaim. destruct (Hclaim Hlong) as [Hline _].
  rewrite Hnone in Hline. discriminate.
Qed.

Lemma serialized_count_app ps qs :
  serialized_count (ps ++ qs) = (serialized_count ps + serialized_count qs)%nat.
Proof. unfold serialized_count. now rewrite List.filter_app, length_app. Qed.

Lemma serialized_count_file_parts l :
  serialized_count (List.map file_part l) = length l.
Proof.
  unfold serialized_count. induction l as [|f l IH]; simpl; congruence.
Qed.

Lemma has_omitted_line_file_parts l tail :
  has_omitted_line (List.map file_part l ++ tail) = has_omitted_line tail.
Proof.
  unfold has_omitted_line. rewrite existsb_app.
  induction l as [|f l IH]; simpl; [reflexivity|exact IH].
Qed.

(** C4, amended. The files of a hotspot are visited in ascending size.
    Serialization stops at the first point where the running total of the
    serialized (truncated) bodies exceeds 100000 units while files remain:
    the [k] files before it are serialized whole, one line reports the
    [n - k] files that remain, and none of these is serialized, not even in
    part. When the running total never exceeds 100000 before the last file
    is reached, every file is serialized and there is no such line. The
    prompt of [buildUserPrompt] is then its opening line, the blocks of the
    [k] files, each with the path, the language tag and the body of the
    file between fences, the line "... and n - k more files (truncated for
    size)" if files remain, and its closing line, and nothing else. *)
Theorem C4_budget_stops_serialization (hotspot : SecurityHotspot) :
  let sorted := js_sort by_size (files hotspot) in
  let n := length sorted in
  let parts := format_parts (files hotspot) in
  sorted ≡ₚ files hotspot
  /\ StronglySorted (fun a b => (size a <= size b)%Z) sorted
  /\ exists k,
       (k <= n)%nat
       /\ parts
          = List.map file_part (firstn k sorted)
            ++ (if (k <? n)%nat
                then [OmittedPart (Z.of_nat n - Z.of_nat k)]
                else [])
       /\ serialized_count parts = k
       /\ has_omitted_line parts = (k <? n)%nat
       /\ (forall j, (j < k)%nat ->
             (serialized_total (firstn j sorted) <= 100000)%Z)
       /\ ((k < n)%nat -> (serialized_total (firstn k sorted) > 100000)%Z)
       /\ buildUserPrompt hotspot
          = lit "Analyze these " ++ category_name (category hotspot) ++
            lit " files for security vulnerabilities:" ++ nl ++ nl ++
            join nl
              (List.map
                 (fun f =>
                    nl ++ lit "### File: " ++ path f ++ nl ++ lit "```" ++
                    (if truthy_string (slice1 (extension f))
                     then slice1 (extension f) else lit "text") ++
                    nl ++ truncateContent (content f) 8000 ++ nl ++ lit "```")
                 (firstn k sorted)
               ++ (if (k <? n)%nat
                   then [nl ++ lit "... and " ++
                         decimal (Z.of_nat n - Z.of_nat k) ++
                         lit " more files (truncated for size)"]
                   else []))
            ++ nl ++ nl ++
            lit "Respond with a JSON object containing your findings.".
Proof.
  intros sorted n parts.
  split; [apply js_sort_perm|].
  split; [subst sorted; rewrite by_size_key; apply (js_sort_sorted size)|].
  subst parts. unfold format_parts. fold sorted. fold n.
  destruct (format_loop_cut (Z.of_nat n) sorted [] 0)
    as (k & Hk & Heq & Hbelow & Hover).
  exists k. fold n in Hk, Heq, Hover. simpl in Heq.
  assert (Hparts : format_loop (Z.of_nat n) sorted [] 0
                   = List.map file_part (firstn k sorted)
                     ++ (if (k <? n)%nat
                         then [OmittedPart (Z.of_nat n - Z.of_nat k)]
                         else [])).
  { rewrite Heq. reflexivity. }
  split; [exact Hk|]. split; [exact Hparts|].
  assert (Htext := prompt_of_parts hotspot k Hparts).
  rewrite Hparts, serialized_count_app, serialized_count_file_parts,
    has_omitted_line_file_parts.
  assert (Hlen : length (firstn k sorted) = k).
  { apply firstn_length_le. exact Hk. }
  unfold maxTotalChars in *. split; [|split; [|split; [|split]]].
  - rewrite Hlen. unfold serialized_count.
    destruct (k <? n)%nat; simpl; lia.
  - now destruct (k <? n)%nat.
  - intros j Hj. specialize (Hbelow j Hj). lia.
  - intros Hlt. specialize (Hover Hlt). lia.
  - exact Htext.
Qed.

(** The budget at work: of fourteen files of 8000 units, thirteen are
    serialized and one is reported as omitted. *)
Lemma C4_budget_witness :
  serialized_count (format_parts (files fourteen_files)) = 13%nat
  /\ has_omitted_line (format_parts (files fourteen_files)) = true
  /\ In (OmittedPart 1) (format_parts (files fourteen_files)).
Proof.
  destruct (C4_budget_stops_serialization fourteen_files)
    as (_ & _ & k & Hk & Hparts & Hcount & Hline & Hbelow & Hover & _).
  assert (Hk13 : k = 13%nat).
  { rewrite <- Hcount. vm_compute. reflexivity. }
  split; [rewrite Hcount; exact Hk13|]. split.
  - rewrite Hline, Hk13. vm_compute. reflexivity.
  - rewrite Hparts, Hk13. apply in_or_app. right.
    vm_compute. left. reflexivity.
Defined.

(** ** The audit normalization *)

Lemma transformAuditResult_cveIds result v :
  In v (transformAuditResult result) -> cveIds v = [].
Proof.
  unfold transformAuditResult. intros Hin.
  apply in_map_iff in Hin as ([name vuln] & <- & _). reflexivity.
Qed.

Lemma runNpmAudit_cveIds env dir dev timeout v :
  In v (ar_vulnerabilities (runNpmAudit env dir dev timeout)) -> cveIds v = [].
Proof.
  unfold runNpmAudit, audit_success, audit_failure.
  destruct (negb _ && negb _ && negb _); simpl; [tauto|].
  destruct (execAsync env _ dir timeout) as [stdout stderr|captured message].
  - destruct (truthy_string stderr && negb (truthy_string stdout));
      simpl; [tauto|].
    destruct (parseReport env stdout); simpl; [|tauto].
    apply transformAuditResult_cveIds.
  - destruct captured as [stdout|]; simpl; [|tauto].
    destruct (truthy_string stdout); simpl; [|tauto].
    destruct (parseReport env stdout); simpl; [|tauto].
    apply transformAuditResult_cveIds.
Qed.

(** C10. For every audit report, every vulnerability that
    [transformAuditResult] produces has an empty [cveIds]; so has every
    vulnerability in the response of [runNpmAudit], whatever the lock files,
    the outcome of the command and the report, and every dependency
    vulnerability in the result of a scan. *)
Theorem C10_cveIds_always_empty :
  (forall result v, In v (transformAuditResult result) -> cveIds v = [])
  /\ (forall env dir dev timeout v,
        In v (ar_vulnerabilities (runNpmAudit env dir dev timeout)) ->
        cveIds v = [])
  /\ (forall extname toLowerCase env input result v,
        fst (executeScanCodebase extname toLowerCase env input) = Ok result ->
        In v (dependencyVulnerabilities result) -> cveIds v = []).
Proof.
  split; [exact transformAuditResult_cveIds|].
  split; [exact runNpmAudit_cveIds|].
  intros extname toLowerCase env input result v.
  unfold executeScanCodebase.
  destruct (bind (scan_inputs extname toLowerCase env input) _)
    as [[[basePath context] analysis]|e]; [|discriminate].
  destruct basePath as [base|]; [destruct (hasPackageLock context)|];
    simpl; intros Hres; injection Hres as <-; simpl; try tauto.
  destruct (ar_error _) as [[|c msg]|]; simpl; try tauto;
    apply runNpmAudit_cveIds.
Qed.

(** ** The weakness-record cache *)

Lemma push_leaves_strings {A : Type} (leaf : jsstring)
    (f : JsValue -> Result A) (g : jsstring -> A) (es : list JsValue) :
  (forall text, f (JString text) = Ok (g text)) ->
  forall texts,
    leaf_strings leaf es = Some texts ->
    push_leaves leaf f (JArray es)
    = Ok (List.map g (List.filter truthy_string texts)).
Proof.
  intros Hf. unfold push_leaves.
  induction es as [|e es IH]; intros texts Hshape.
  - injection Hshape as <-. reflexivity.
  - cbn [leaf_strings] in Hshape.
    destruct e as [| | | | |members]; try discriminate.
    destruct (lookup_member leaf members) as [[| | |text| |]|] eqn:Hleaf;
      try discriminate.
    cbn [string_of] in Hshape.
    destruct (leaf_strings leaf es) as [rest|]; [|discriminate].
    injection Hshape as <-.
    cbn [get_prop bind]. rewrite Hleaf. cbn [truthy List.filter].
    rewrite (IH rest eq_refl).
    destruct (truthy_string text); [|reflexivity].
    rewrite Hf. reflexivity.
Qed.

Lemma leaves_of_member {A : Type} (leaf : jsstring)
    (f : JsValue -> Result A) (g : jsstring -> A) (found : option JsValue)
    (xs : option (list jsstring)) :
  (forall text, f (JString text) = Ok (g text)) ->
  optional_member (array_shape leaf) found = Some xs ->
  match found with
  | Some v => if truthy v then push_leaves leaf f v else Ok []
  | None => Ok []
  end = Ok (List.map g (List.filter truthy_string (payload_strings xs))).
Proof.
  intros Hf Hshape. destruct found as [v|]; cbn in Hshape.
  - destruct v as [| | | |es|]; try discriminate.
    cbn in Hshape. destruct (leaf_strings leaf es) as [texts|] eqn:Hes;
      [|discriminate].
    injection Hshape as <-. cbn [truthy].
    now apply push_leaves_strings.
  - injection Hshape as <-. reflexivity.
Qed.

Lemma collect_section_shape {A : Type} (outer inner leaf : jsstring)
    (f : JsValue -> Result A) (g : jsstring -> A)
    (members : list (jsstring * JsValue)) (xs : option (list jsstring)) :
  (forall text, f (JString text) = Ok (g text)) ->
  optional_member (section_shape inner leaf) (lookup_member outer members)
  = Some xs ->
  collect_section (JObject members) outer inner leaf f
  = Ok (List.map g (List.filter truthy_string (payload_strings xs))).
Proof.
  intros Hf Hshape. unfold collect_section. cbn [get_prop bind].
  destruct (lookup_member outer members) as [section|]; cbn in Hshape.
  - destruct section as [| | | | |inside]; try discriminate.
    cbn in Hshape. cbn [optional_prop get_prop bind].
    destruct (lookup_member inner inside) as [v|] eqn:Hv; [|discriminate].
    apply (leaves_of_member leaf f g (Some v)); [exact Hf|].
    cbn. destruct (array_shape leaf v); [|discriminate].
    injection Hshape as <-. reflexivity.
  - injection Hshape as <-. reflexivity.
Qed.

Lemma collect_platforms_shape {A : Type} (inner : jsstring)
    (pick : Platforms -> option (list jsstring))
    (f : JsValue -> Result A) (g : jsstring -> A)
    (members : list (jsstring * JsValue)) (plats : option Platforms) :
  (forall text, f (JString text) = Ok (g text)) ->
  (forall inside p,
     platforms_shape (JObject inside) = Some p ->
     optional_member (array_shape (lit "Name")) (lookup_member inner inside)
     = Some (pick p)) ->
  optional_member platforms_shape
    (lookup_member (lit "Applicable_Platforms") members) = Some plats ->
  collect_section (JObject members) (lit "Applicable_Platforms") inner
    (lit "Name") f
  = Ok (match plats with
        | Some p =>
            List.map g (List.filter truthy_string (payload_strings (pick p)))
        | None => []
        end).
Proof.
  intros Hf Hpick Hshape. unfold collect_section. cbn [get_prop bind].
  destruct (lookup_member (lit "Applicable_Platforms") members) as [section|];
    cbn [optional_member] in Hshape.
  - destruct (platforms_shape section) as [p|] eqn:Hp; [|discriminate].
    injection Hshape as <-.
    destruct section as [| | | | |inside]; try discriminate.
    cbn [optional_prop get_prop bind].
    apply (leaves_of_member (lit "Name") f g); [exact Hf|].
    now apply Hpick.
  - injection Hshape as <-. reflexivity.
Qed.

Lemma platforms_shape_members inside p :
  platforms_shape (JObject inside) = Some p ->
  optional_member (array_shape (lit "Name"))
    (lookup_member (lit "Language") inside) = Some (Language p)
  /\ optional_member (array_shape (lit "Name"))
       (lookup_member (lit "Technology") inside) = Some (Technology p).
Proof.
  unfold platforms_shape.
  destruct (optional_member _ (lookup_member (lit "Language") inside))
    as [languages|]; [|discriminate].
  destruct (optional_member _ (lookup_member (lit "Technology") inside))
    as [technologies|]; [|discriminate].
  now intros [= <-].
Qed.

Lemma collect_leaves_strings f xs :
  collect_leaves f xs
  = List.map f (List.filter truthy_string (payload_strings xs)).
Proof. now destruct xs. Qed.

Lemma string_of_Some found text :
  string_of found = Some text -> found = Some (JString text).
Proof. destruct found as [[| | |t| |]|]; try discriminate. now intros [= ->]. Qed.

(** A payload of the declared shape is normalized as the function does at
    its declared type. *)
Lemma transformCWEResponse_at_declared_type numberToString body data :
  decode body = Some data ->
  unchecked.transformCWEResponse numberToString body
  = Ok (record_of (transformCWEResponse data)).
Proof.
  intros Hdecode. destruct body as [| | | | |members]; try discriminate.
  cbn [decode] in Hdecode.
  destruct (string_of (lookup_member (lit "ID") members)) as [id|] eqn:Hid;
    [|discriminate].
  destruct (string_of (lookup_member (lit "Name") members)) as [name|] eqn:Hname;
    [|discriminate].
  destruct (optional_member _ (lookup_member (lit "Description") members))
    as [description|] eqn:Hdesc; [|discriminate].
  destruct (optional_member _ (lookup_member (lit "Extended_Description") members))
    as [extended|] eqn:Hext; [|discriminate].
  destruct (optional_member _ (lookup_member (lit "Potential_Mitigations") members))
    as [mits|] eqn:Hmits; [|discriminate].
  destruct (optional_member _ (lookup_member (lit "Detection_Methods") members))
    as [dets|] eqn:Hdets; [|discriminate].
  destruct (optional_member _ (lookup_member (lit "Demonstrative_Examples") members))
    as [exs|] eqn:Hexs; [|discriminate].
  destruct (optional_member _ (lookup_member (lit "Related_Weaknesses") members))
    as [rels|] eqn:Hrels; [|discriminate].
  destruct (optional_member _ (lookup_member (lit "Applicable_Platforms") members))
    as [plats|] eqn:Hplats; [|discriminate].
  injection Hdecode as <-.
  unfold unchecked.transformCWEResponse. cbv zeta.
  rewrite (collect_section_shape _ _ _ (fun v : JsValue => Ok v) JString
             members mits ltac:(reflexivity) Hmits).
  rewrite (collect_section_shape _ _ _ (fun v : JsValue => Ok v) JString
             members dets ltac:(reflexivity) Hdets).
  rewrite (collect_section_shape _ _ _ (fun v : JsValue => Ok v) JString
             members exs ltac:(reflexivity) Hexs).
  rewrite (collect_section_shape _ _ _
             (fun v : JsValue =>
                let* text := ToString numberToString v in
                Ok (lit "CWE-" ++ text))
             (fun i => lit "CWE-" ++ i) members rels
             ltac:(reflexivity) Hrels).
  rewrite (collect_platforms_shape (lit "Language") Language
             (fun v : JsValue => Ok v) JString members
             plats ltac:(reflexivity)
             (fun inside p H => proj1 (platforms_shape_members inside p H))
             Hplats).
  rewrite (collect_platforms_shape (lit "Technology") Technology
             (fun v : JsValue => Ok v) JString
             members plats ltac:(reflexivity)
             (fun inside p H => proj2 (platforms_shape_members inside p H))
             Hplats).
  cbn [bind get_prop].
  rewrite (string_of_Some _ _ Hid), (string_of_Some _ _ Hname).
  cbn [interpolate ToString bind].
  unfold record_of, transformCWEResponse.
  cbn [cwe_id cwe_name cwe_description extendedDescription mitigations
       detectionMethods examples relatedWeaknesses applicablePlatforms
       ID Name Description Extended_Description Potential_Mitigations
       Detection_Methods Demonstrative_Examples Related_Weaknesses
       Applicable_Platforms].
  rewrite !collect_leaves_strings, !map_id.
  f_equal. f_equal.
  - destruct (lookup_member (lit "Description") members) as [v|];
      cbn in Hdesc.
    + destruct v as [| | |text| |]; try discriminate.
      injection Hdesc as <-. now destruct text.
    + now injection Hdesc as <-.
  - destruct (lookup_member (lit "Extended_Description") members) as [v|];
      cbn in Hext.
    + destruct v as [| | |text| |]; try discriminate.
      now injection Hext as <-.
    + now injection Hext as <-.
  - destruct plats as [p|]; [|reflexivity].
    now rewrite !collect_leaves_strings, !map_id, map_app.
Qed.

Lemma xss_body_decodes : decode xss_body = Some xss_payload.
Proof. reflexivity. Qed.

Lemma fetchCWE_hit numberToString remote cweId st d :
  cweCache st !! cache_key cweId = Some d ->
  fetchCWE numberToString remote cweId st = (Ok (Some d), st).
Proof. unfold fetchCWE, cache_key. now intros ->. Qed.

Lemma strip_cwe_prefix_any_case (p n : jsstring) :
  List.map canonicalize p = List.map canonicalize (lit "CWE-") ->
  strip_cwe_prefix (p ++ n) = n.
Proof.
  intros Hp.
  destruct p as [|a [|b [|c [|d [|e p]]]]]; try discriminate.
  injection Hp as Ha Hb Hc Hd.
  unfold strip_cwe_prefix. simpl firstn. simpl skipn.
  unfold test, CWE_PREFIX. simpl. rewrite Ha. simpl. rewrite Hb. simpl.
  rewrite Hc. simpl. rewrite Hd. reflexivity.
Qed.

(** A lookup that misses the cache, step by step. *)
Lemma fetchCWE_miss numberToString remote cweId st :
  cweCache st !! cache_key cweId = None ->
  fetchCWE numberToString remote cweId st
  = let issued := requests st ++ [cwe_url cweId] in
    let nothing := (Ok None, mkCweState (cweCache st) issued) in
    match remote (cwe_url cweId) with
    | Throw _ => nothing
    | Ok response =>
        if response_ok response then
          match json response with
          | Throw _ => nothing
          | Ok body =>
              match unchecked.transformCWEResponse numberToString body with
              | Throw _ => nothing
              | Ok record =>
                  (Ok (Some record),
                   mkCweState (<[cache_key cweId := record]> (cweCache st))
                     issued)
              end
          end
        else nothing
    end.
Proof.
  intros Hnone. unfold fetchCWE. fold (cache_key cweId) (cwe_url cweId).
  rewrite Hnone. unfold fetch_attempt. cbv zeta.
  destruct (remote (cwe_url cweId)) as [response|e]; [|reflexivity].
  cbn [bind]. destruct (response_ok response); cbn [negb].
  - destruct (json response) as [body|e]; [|reflexivity]. cbn [bind].
    now destruct (unchecked.transformCWEResponse numberToString body).
  - now destruct (status response =? 404)%Z.
Qed.

(** C5 as stated fails: the payload is cast to its declared type without
    a check, so the empty object, which has no ID and no Name, is
    normalized to the record "CWE-undefined", returned and cached. *)
Lemma C5_unchecked_payload_counterexample : ~ fetchCWE_claim.
Proof.
  intros Hclaim.
  assert (Hnone : cweCache empty_state !! cache_key (lit "79") = None)
    by apply lookup_empty.
  assert (Hfound :
    fst (fetchCWE no_numbers remote_empty_object (lit "79") empty_state)
    = Ok (Some undefined_record)).
  { rewrite (fetchCWE_miss _ _ _ _ Hnone). reflexivity. }
  destruct (Hclaim no_numbers remote_empty_object (lit "79") empty_state)
    as [_ Hmiss].
  destruct (Hmiss Hnone) as [_ Hresponse].
  destruct (Hresponse (mkResponse 200 (Ok (JObject []))) eq_refl) as [_ Hok].
  destruct (Hok eq_refl) as [_ Hbody].
  destruct (Hbody (JObject []) eq_refl) as [Hmalformed _].
  destruct (Hmalformed eq_refl) as [Habsent _].
  rewrite Hfound in Habsent. discriminate.
Qed.

(** C5, amended. [fetchCWE] never throws. On a cache hit it returns the
    cached record and leaves the state as it is: no request is issued. On a
    miss it issues one request. When [fetch] rejects, when the status is
    not a 2xx one (404 or any other), when the body is no JSON text, or when
    the normalization of the payload throws, as it does on null, it returns
    nothing and the cache is unchanged. Every other payload is a success,
    whatever its shape: the payload is checked against nothing, so a
    payload of the declared shape is normalized as declared, and the empty
    object gives the record "CWE-undefined". On success the record is
    returned and stored under the normalized key, after which every lookup
    of an identifier with that key, whatever the remote end would answer,
    returns that record without a request. The key is "CWE-" followed by
    the identifier without its prefix, in whatever case the prefix is
    written. *)
Theorem C5_fetchCWE_degrades_and_caches
    (numberToString : JsNumber -> jsstring)
    (remote : jsstring -> Result Response) (cweId : jsstring) (st : CweState) :
  let out := fetchCWE numberToString remote cweId st in
  (exists r, fst out = Ok r)
  /\ (forall d, cweCache st !! cache_key cweId = Some d ->
        out = (Ok (Some d), st))
  /\ (cweCache st !! cache_key cweId = None ->
        requests (snd out) = requests st ++ [cwe_url cweId]
        /\ match remote (cwe_url cweId) with
           | Throw _ =>
               fst out = Ok None /\ cweCache (snd out) = cweCache st
           | Ok response =>
               if response_ok response then
                 match json response with
                 | Throw _ =>
                     fst out = Ok None /\ cweCache (snd out) = cweCache st
                 | Ok body =>
                     match unchecked.transformCWEResponse numberToString body
                     with
                     | Throw _ =>
                         fst out = Ok None
                         /\ cweCache (snd out) = cweCache st
                     | Ok record =>
                         fst out = Ok (Some record)
                         /\ cweCache (snd out)
                            = <[cache_key cweId := record]> (cweCache st)
                         /\ forall remote' cweId',
                              cache_key cweId' = cache_key cweId ->
                              fetchCWE numberToString remote' cweId' (snd out)
                              = (Ok (Some record), snd out)
                     end
                 end
               else fst out = Ok None /\ cweCache (snd out) = cweCache st
           end)
  /\ (forall body data,
        decode body = Some data ->
        unchecked.transformCWEResponse numberToString body
        = Ok (record_of (transformCWEResponse data)))
  /\ unchecked.transformCWEResponse numberToString JNull
     = Throw (lit "TypeError")
  /\ unchecked.transformCWEResponse numberToString (JObject [])
     = Ok undefined_record
  /\ (forall p n,
        List.map canonicalize p = List.map canonicalize (lit "CWE-") ->
        cache_key (p ++ n) = lit "CWE-" ++ n).
Proof.
  intros out. subst out.
  split; [|split; [|split; [|split; [|split; [|split]]]]].
  - destruct (cweCache st !! cache_key cweId) as [d|] eqn:Hlook.
    + rewrite (fetchCWE_hit numberToString remote cweId st d Hlook). eauto.
    + rewrite (fetchCWE_miss _ _ _ _ Hlook). cbv zeta.
      destruct (remote (cwe_url cweId)) as [response|e]; [|eauto].
      destruct (response_ok response); [|eauto].
      destruct (json response) as [body|e]; [|eauto].
      destruct (unchecked.transformCWEResponse numberToString body); eauto.
  - intros d Hd. now apply fetchCWE_hit.
  - intros Hnone. rewrite (fetchCWE_miss _ _ _ _ Hnone). cbv zeta.
    destruct (remote (cwe_url cweId)) as [response|e]; [|now split].
    destruct (response_ok response); [|now split].
    destruct (json response) as [body|e]; [|now split].
    destruct (unchecked.transformCWEResponse numberToString body)
      as [record|e]; [|now split].
    cbn [fst snd requests cweCache].
    split; [reflexivity|]. split; [reflexivity|]. split; [reflexivity|].
    intros remote' cweId' Hkey. apply fetchCWE_hit. cbn [cweCache].
    rewrite Hkey. apply lookup_insert_eq.
  - intros body data. apply transformCWEResponse_at_declared_type.
  - reflexivity.
  - reflexivity.
  - intros p n Hp. unfold cache_key. now rewrite strip_cwe_prefix_any_case.
Qed.

(** C5 at work: after the lookup of "79" succeeds, the lookup of "cwe-79"
    is served from the cache although the remote end is down, and one
    request was issued in all. *)
Lemma C5_fetchCWE_witness :
  let after := snd (fetchCWE no_numbers remote_up (lit "79") empty_state) in
  fetchCWE no_numbers remote_down (lit "cwe-79") after
  = (Ok (Some (record_of (transformCWEResponse xss_payload))), after)
  /\ requests after = [cwe_url (lit "79")].
Proof.
  intros after.
  destruct (C5_fetchCWE_degrades_and_caches no_numbers remote_up (lit "79")
              empty_state)
    as (_ & _ & Hmiss & Hshape & _).
  destruct (Hmiss (lookup_empty _)) as [Hreq Hok].
  change (remote_up (cwe_url (lit "79")))
    with (Ok (mkResponse 200 (Ok xss_body))) in Hok.
  cbn [response_ok status json] in Hok.
  change ((200 <=? 200)%Z && (200 <=? 299)%Z) with true in Hok.
  cbv iota in Hok.
  rewrite (Hshape xss_body xss_payload xss_body_decodes) in Hok.
  destruct Hok as (_ & _ & Hnext).
  split; [|exact Hreq].
  apply (Hnext remote_down (lit "cwe-79")). reflexivity.
Defined.

(** ** The response parser *)

Lemma from_first_open_Some s after :
  from_first_open s = Some after ->
  exists pre, s = pre ++ open_brace :: after /\ ~ In open_brace pre.
Proof.
  revert after. induction s as [|c s IH]; intros after; simpl; [discriminate|].
  destruct (c =? 123)%N eqn:Hc.
  - intros [= <-]. apply N.eqb_eq in Hc as ->. exists []. simpl. tauto.
  - intros Hs. destruct (IH _ Hs) as (pre & -> & Hpre).
    exists (c :: pre). split; [reflexivity|].
    simpl. intros [Heq|Hin]; [|tauto]. subst c. discriminate Hc.
Qed.

Lemma from_first_open_suffix pre rest :
  exists x, from_first_open (pre ++ open_brace :: rest) = Some (x ++ rest).
Proof.
  induction pre as [|c pre IH]; simpl.
  - exists []. reflexivity.
  - destruct (c =? 123)%N.
    + exists (pre ++ [open_brace]). now rewrite <- app_assoc.
    + exact IH.
Qed.

Lemma through_last_close_Some s t :
  through_last_close s = Some t ->
  exists mid post,
    s = mid ++ close_brace :: post /\ t = mid ++ [close_brace]
    /\ ~ In close_brace post.
Proof.
  revert t. induction s as [|c s IH]; intros t; simpl; [discriminate|].
  destruct (through_last_close s) as [u|] eqn:Hu.
  - intros [= <-]. destruct (IH u eq_refl) as (mid & post & -> & -> & Hpost).
    exists (c :: mid), post. auto.
  - destruct (c =? 125)%N eqn:Hc; [|discriminate].
    intros [= <-]. apply N.eqb_eq in Hc as ->.
    exists [], s. split; [reflexivity|]. split; [reflexivity|].
    clear IH. induction s as [|d s IHs]; simpl; [tauto|].
    simpl in Hu. destruct (through_last_close s); [discriminate|].
    destruct (d =? 125)%N eqn:Hd; [discriminate|].
    intros [Heq|Hin]; [|now apply IHs].
    subst d. discriminate Hd.
Qed.

Lemma through_last_close_In s :
  In close_brace s -> exists t, through_last_close s = Some t.
Proof.
  induction s as [|c s IH]; simpl; [tauto|].
  intros [->|Hin].
  - destruct (through_last_close s); eauto.
  - destruct (IH Hin) as [t ->]. eauto.
Qed.

(** The match is the leftmost one and the longest at its place: it begins
    at the first opening brace and ends at the last closing brace. *)
Lemma jsonMatch_Some response text :
  jsonMatch response = Some text ->
  exists pre mid post,
    response = pre ++ text ++ post
    /\ text = open_brace :: mid ++ [close_brace]
    /\ ~ In open_brace pre /\ ~ In close_brace post.
Proof.
  unfold jsonMatch.
  destruct (from_first_open response) as [after|] eqn:Hopen; [|discriminate].
  destruct (through_last_close after) as [t|] eqn:Hclose; [|discriminate].
  intros [= <-].
  apply from_first_open_Some in Hopen as (pre & -> & Hpre).
  apply through_last_close_Some in Hclose as (mid & post & -> & -> & Hpost).
  exists pre, mid, post. split; [|auto].
  simpl. now rewrite <- !app_assoc.
Qed.

Lemma jsonMatch_None response :
  jsonMatch response = None <->
  ~ exists pre mid post,
      response = pre ++ open_brace :: mid ++ close_brace :: post.
Proof.
  split.
  - intros Hnone (pre & mid & post & ->). unfold jsonMatch in Hnone.
    destruct (from_first_open_suffix pre (mid ++ close_brace :: post))
      as [x Hx].
    rewrite Hx in Hnone.
    destruct (through_last_close_In (x ++ mid ++ close_brace :: post))
      as [t Ht].
    { rewrite !in_app_iff. right. right. now left. }
    rewrite Ht in Hnone. discriminate.
  - intros Hno. destruct (jsonMatch response) as [text|] eqn:Hm; [|reflexivity].
    exfalso. apply Hno.
    apply jsonMatch_Some in Hm as (pre & mid & post & -> & -> & _).
    exists pre, mid, post. simpl. now rewrite <- app_assoc.
Qed.

Lemma lang_braces text :
  lang false (body BRACES) text <->
  exists mid, text = open_brace :: mid ++ [close_brace].
Proof.
  unfold BRACES. simpl. split.
  - inversion 1 as [| | | |? ? s1 rest H1 Hrest| | | |]; subst.
    inversion H1 as [|c ? Hc| | | | | | |]; subst.
    inversion Hrest as [| | | |? ? mid s3 _ H3| | | |]; subst.
    inversion H3 as [|c' ? Hc'| | | | | | |]; subst.
    simpl in Hc, Hc'. apply N.eqb_eq in Hc as ->, Hc' as ->.
    now exists mid.
  - intros [mid ->]. change (open_brace :: mid ++ [close_brace])
      with ([open_brace] ++ mid ++ [close_brace]).
    constructor; [now constructor|].
    constructor; [apply lang_any_text|now constructor].
Qed.

(** The direct definition agrees with the matcher on whether the pattern
    matches at all. *)
Lemma jsonMatch_test response :
  test BRACES response = true <-> exists text, jsonMatch response = Some text.
Proof.
  rewrite test_lang. split.
  - intros (pre & m & post & -> & Hm & _ & _).
    apply lang_braces in Hm as [mid ->].
    destruct (jsonMatch _) as [text|] eqn:Hj; [eauto|].
    exfalso. apply jsonMatch_None in Hj. apply Hj.
    exists pre, mid, post. simpl. now rewrite <- app_assoc.
  - intros [text Hj].
    apply jsonMatch_Some in Hj as (pre & mid & post & -> & -> & _).
    exists pre, (open_brace :: mid ++ [close_brace]), post.
    split; [reflexivity|]. split; [apply lang_braces; eauto|].
    split; discriminate.
Qed.

(** C6. [parseAIResponse] returns a result for every text and never throws.
    The example response yields no findings and the summary "ok". A text
    with no opening brace followed somewhere by a closing brace, such as
    "not json at all", and a text whose stretch from the first opening brace
    to the last closing brace does not parse, both yield no findings and a
    diagnostic summary. *)
Theorem C6_parseAIResponse_total :
  (forall response, exists r, parseAIResponse response = Ok r)
  /\ parseAIResponse example_response
     = Ok (mkAIResponse [] (JString (lit "ok")))
  /\ parseAIResponse (lit "not json at all")
     = Ok (no_findings "Could not parse AI response")
  /\ (forall response,
        (~ exists pre mid post,
             response = pre ++ open_brace :: mid ++ close_brace :: post) ->
        parseAIResponse response
        = Ok (no_findings "Could not parse AI response"))
  /\ (forall response text e,
        jsonMatch response = Some text -> JSON_parse text = Throw e ->
        parseAIResponse response
        = Ok (no_findings "Could not parse AI response as JSON"))
  /\ (forall response text,
        jsonMatch response = Some text ->
        exists pre mid post,
          response = pre ++ text ++ post
          /\ text = open_brace :: mid ++ [close_brace]
          /\ ~ In open_brace pre /\ ~ In close_brace post).
Proof.
  split; [|split; [|split; [|split; [|split]]]].
  - intros response. unfold parseAIResponse.
    destruct (jsonMatch response) as [text|]; [|eauto].
    destruct (JSON_parse text) as [parsed|e]; simpl; [|eauto].
    destruct (get_prop parsed (lit "findings")) as [pf|e]; simpl; [|eauto].
    destruct (get_prop parsed (lit "summary")) as [ps|e]; simpl; eauto.
  - vm_compute. reflexivity.
  - vm_compute. reflexivity.
  - intros response Hno. apply jsonMatch_None in Hno.
    unfold parseAIResponse. now rewrite Hno.
  - intros response text e Hm Hp. unfold parseAIResponse.
    rewrite Hm, Hp. reflexivity.
  - exact jsonMatch_Some.
Qed.

(** A text with braces that is not JSON. *)
Lemma C6_parseAIResponse_witness :
  parseAIResponse (lit "see {findings: none} above")
  = Ok (no_findings "Could not parse AI response as JSON").
Proof.
  destruct C6_parseAIResponse_total as (_ & _ & _ & _ & Hbad & _).
  apply (Hbad _ (lit "{findings: none}") syntax_error); reflexivity.
Defined.

(** ** Lock files and the audit *)

Section FsNode_induction.
Variable P : FsNode -> Prop.
Hypothesis Hfile : forall stat read, P (FsFile stat read).
Hypothesis Hdir :
  forall entries, List.Forall (fun e => P (snd e)) entries ->
                  P (FsDir (Ok entries)).
Hypothesis Hunreadable : forall e, P (FsDir (Throw e)).
Hypothesis Hother : P FsOther.

Fixpoint FsNode_nested_ind (n : FsNode) : P n :=
  match n with
  | FsFile stat read => Hfile stat read
  | FsDir (Ok entries) =>
      Hdir entries
        ((fix go (es : list (jsstring * FsNode))
            : List.Forall (fun e => P (snd e)) es :=
            match es with
            | [] => List.Forall_nil _
            | e :: es' =>
                @List.Forall_cons _ (fun e => P (snd e)) e es'
                  (match e as e0 return P (snd e0) with
                   | (_, child) => FsNode_nested_ind child
                   end)
                  (go es')
            end) entries)
  | FsDir (Throw e) => Hunreadable e
  | FsOther => Hother
  end.

End FsNode_induction.

Lemma split_on_cons sep s : exists seg segs, split_on sep s = seg :: segs.
Proof.
  induction s as [|c s (seg & segs & IH)]; simpl; [eauto|].
  destruct (c =? sep)%N; [eauto|]. rewrite IH. eauto.
Qed.

Lemma split_on_separator a b :
  exists seg1 seg2 segs,
    split_on 47 (a ++ 47%N :: b) = seg1 :: seg2 :: segs
    /\ List.last (seg2 :: segs) [] = List.last (split_on 47 b) [].
Proof.
  induction a as [|c a (seg1 & seg2 & segs & Heq & Hlast)]; simpl.
  - destruct (split_on_cons 47 b) as (seg & segs & Hb). rewrite Hb. eauto.
  - rewrite Heq. destruct (c =? 47)%N.
    + exists [], seg1, (seg2 :: segs). split; [reflexivity|exact Hlast].
    + eauto.
Qed.

Lemma last_segment_after_slash a b :
  last_segment (a ++ lit "/" ++ b) = last_segment b.
Proof.
  unfold last_segment. change (lit "/" ++ b) with (47%N :: b).
  destruct (split_on_separator a b) as (seg1 & seg2 & segs & -> & Hlast).
  exact Hlast.
Qed.

Lemma last_segment_entry_full dirPath name :
  last_segment (entry_full dirPath name) = last_segment name.
Proof. apply last_segment_after_slash. Qed.

Lemma last_segment_entry_relative relDir name :
  last_segment (entry_relative relDir name) = last_segment name.
Proof.
  destruct relDir as [|c r]; [reflexivity|].
  apply (last_segment_after_slash (c :: r)).
Qed.

Lemma lock_name_in_skip_list s :
  is_lock_name s = true -> set_has SKIP_FILES s = true.
Proof.
  unfold is_lock_name, set_has, LOCK_FILE_NAMES, SKIP_FILES.
  rewrite !bool_decide_eq_true, !elem_of_cons. tauto.
Qed.

Section ReaderFacts.
Context (extname : jsstring -> jsstring) (toLowerCase : jsstring -> jsstring).

Lemma shouldIncludeFile_skip_list filePath sz :
  set_has SKIP_FILES (last_segment filePath) = true ->
  shouldIncludeFile extname toLowerCase filePath sz = false.
Proof. unfold shouldIncludeFile. now intros ->. Qed.

Lemma read_file_entry_no_lock fullPath dirPath relDir name stat read acc :
  fullPath = entry_full dirPath name ->
  List.Forall no_lock_file acc ->
  List.Forall no_lock_file
    (read_file_entry extname toLowerCase fullPath
       (entry_relative relDir name) stat read acc).
Proof.
  intros -> Hacc. unfold read_file_entry.
  destruct stat as [sz|]; [|exact Hacc].
  destruct (shouldIncludeFile _ _ _ sz) eqn:Hinc; [|exact Hacc].
  destruct read as [text|]; [|exact Hacc].
  apply List.Forall_app. split; [exact Hacc|].
  constructor; [|constructor]. unfold no_lock_file. simpl.
  rewrite last_segment_entry_relative.
  destruct (is_lock_name (last_segment name)) eqn:Hlock; [|reflexivity].
  apply lock_name_in_skip_list in Hlock.
  rewrite (shouldIncludeFile_skip_list _ sz) in Hinc; [discriminate|].
  now rewrite last_segment_entry_full.
Qed.

Lemma read_entries_no_lock recurse dirPath relDir maxFiles entries :
  List.Forall
    (fun e => forall fullPath rel acc fs,
       List.Forall no_lock_file acc ->
       recurse (snd e) fullPath rel acc = Ok fs ->
       List.Forall no_lock_file fs) entries ->
  forall acc fs,
    List.Forall no_lock_file acc ->
    read_entries extname toLowerCase recurse dirPath relDir maxFiles entries acc
    = Ok fs ->
    List.Forall no_lock_file fs.
Proof.
  induction 1 as [|[name child] es Hchild _ IH]; intros acc fs Hacc; simpl.
  - now intros [= <-].
  - destruct (Z.of_nat (length acc) >=? maxFiles)%Z; [now intros [= <-]|].
    destruct child as [stat read|listing|].
    + apply IH. now apply (read_file_entry_no_lock _ dirPath).
    + destruct (set_has SKIP_DIRECTORIES name); [now apply IH|].
      destruct (recurse (FsDir listing) _ _ acc) as [acc'|e] eqn:Hrec;
        simpl; [|discriminate].
      apply IH. exact (Hchild _ _ _ _ Hacc Hrec).
    + now apply IH.
Qed.

Lemma readDirectoryRecursive_no_lock dir :
  forall dirPath relDir acc maxFiles fs,
    List.Forall no_lock_file acc ->
    readDirectoryRecursive extname toLowerCase dir dirPath relDir acc maxFiles
    = Ok fs ->
    List.Forall no_lock_file fs.
Proof.
  induction dir as [stat read|entries IH|e|] using FsNode_nested_ind;
    intros dirPath relDir acc maxFiles fs Hacc; simpl;
    destruct (Z.of_nat (length acc) >=? maxFiles)%Z;
    try (now intros [= <-]); try discriminate.
  apply read_entries_no_lock; [|exact Hacc].
  eapply List.Forall_impl; [|exact IH].
  intros [name child] Hc fullPath rel acc' fs' Hacc'. simpl.
  now apply Hc.
Qed.

End ReaderFacts.

Lemma detectProjectContext_hasPackageLock fs ctx :
  detectProjectContext fs = Ok ctx -> hasPackageLock ctx = lock_file_seen fs.
Proof.
  unfold detectProjectContext.
  repeat match goal with
         | |- context [bind ?x _] => destruct x; simpl; [|discriminate]
         end.
  now intros [= <-].
Qed.

Lemma lock_file_seen_false fs :
  (forall f, In f fs -> includes_lock_name (path f) = false) ->
  lock_file_seen fs = false.
Proof.
  intros Hno. unfold lock_file_seen.
  destruct (existsb _ fs) eqn:Hex; [|reflexivity].
  apply existsb_exists in Hex as (f & Hf & Hinc).
  specialize (Hno f Hf). unfold includes_lock_name, LOCK_FILE_NAMES in Hno.
  simpl in Hno. apply orb_false_elim in Hno as [H1 Hno].
  apply orb_false_elim in Hno as [H2 Hno].
  apply orb_false_elim in Hno as [H3 _].
  now rewrite H1, H2, H3 in Hinc.
Qed.

(** The scan up to the decision on the audit. *)
Lemma executeScanCodebase_calls extname toLowerCase env input c p :
  in_path input = Some (c :: p) ->
  snd (executeScanCodebase extname toLowerCase env input)
  = match readFilesFromPath extname toLowerCase
            (lookup_path env (c :: p)) (c :: p) with
    | Ok fs =>
        if bool_decide (fs = []) then []
        else match detectProjectContext fs with
             | Ok ctx => if hasPackageLock ctx then [c :: p] else []
             | Throw _ => []
             end
    | Throw _ => []
    end.
Proof.
  intros Hpath. unfold executeScanCodebase, scan_inputs. rewrite Hpath.
  destruct (readFilesFromPath _ _ _ _) as [fs|e]; simpl; [|reflexivity].
  destruct (bool_decide (fs = [])); simpl; [reflexivity|].
  destruct (detectProjectContext fs) as [ctx|e]; simpl; [|reflexivity].
  destruct (hasPackageLock ctx); reflexivity.
Qed.

(** Whatever the path names, a scan none of whose files has a lock-file
    name in its path does not invoke the audit. *)
Lemma scan_without_lock_names_never_audits extname toLowerCase env input p :
  in_path input = Some p -> p <> [] ->
  (forall fs,
     readFilesFromPath extname toLowerCase (lookup_path env p) p = Ok fs ->
     forall f, In f fs -> includes_lock_name (path f) = false) ->
  snd (executeScanCodebase extname toLowerCase env input) = [].
Proof.
  intros Hpath Hp Hnone. destruct p as [|c p']; [congruence|].
  rewrite (executeScanCodebase_calls _ _ _ _ c p' Hpath).
  destruct (readFilesFromPath _ _ _ _) as [fs|e] eqn:Hread; [|reflexivity].
  destruct (bool_decide (fs = [])); [reflexivity|].
  destruct (detectProjectContext fs) as [ctx|e] eqn:Hctx; [|reflexivity].
  rewrite (detectProjectContext_hasPackageLock fs ctx Hctx).
  now rewrite (lock_file_seen_false fs (Hnone fs eq_refl)).
Qed.

(** A scan of contents given directly never invokes the audit. *)
Lemma content_scan_never_audits extname toLowerCase env input :
  in_path input = None ->
  snd (executeScanCodebase extname toLowerCase env input) = [].
Proof.
  intros Hpath. unfold executeScanCodebase, scan_inputs. rewrite Hpath.
  destruct (in_files input) as [[|f inputs]|]; simpl; try reflexivity.
  destruct (detectProjectContext _) as [ctx|e]; reflexivity.
Qed.

(** C9 as stated fails: a path that names a file is read without the
    filter of the directory reader, so a scan of a lock file sees it, sets
    [hasPackageLock] and invokes the audit. *)
Lemma C9_single_file_counterexample : ~ lock_files_never_audited_claim.
Proof.
  intros (_ & _ & Hscan).
  assert (Hread :
    readFilesFromPath posix_extname ascii_toLowerCase
      (lookup_path only_a_lock_file lock_file_path) lock_file_path
    = Ok [mkFile (lit "package-lock.json") (lit "{}") 2 (lit ".json")])
    by (vm_compute; reflexivity).
  assert (Hcalls :
    snd (executeScanCodebase posix_extname ascii_toLowerCase
           only_a_lock_file scan_the_lock_file) = [lock_file_path])
    by (vm_compute; reflexivity).
  destruct (Hscan posix_extname ascii_toLowerCase only_a_lock_file
              scan_the_lock_file lock_file_path _ eq_refl
              ltac:(discriminate) Hread) as [_ Hnone].
  - intros f [<-|[]] _. vm_compute. reflexivity.
  - rewrite Hcalls in Hnone. discriminate.
Qed.

(** C9, amended. A file whose last path segment is package-lock.json,
    yarn.lock, pnpm-lock.yaml or bun.lockb is never included, whatever its
    size, so the files read from a directory hold no lock file. For every
    scan whose path names a directory, and whose scanned files have no
    other path that includes the name of a lock file: the flag computed for
    [hasPackageLock] is false, every project context that
    [detectProjectContext] returns carries it, and the audit is never
    invoked. *)
Theorem C9_directory_scan_never_audits
    (extname toLowerCase : jsstring -> jsstring) (env : ScanEnv)
    (input : ScanCodebaseInput) (p : jsstring)
    (listing : Result (list (jsstring * FsNode))) :
  in_path input = Some p -> p <> [] ->
  lookup_path env p = Some (FsDir listing) ->
  (forall fs, readFilesFromPath extname toLowerCase (lookup_path env p) p = Ok fs ->
              no_other_lock_path fs) ->
  (forall filePath sz,
     is_lock_name (last_segment filePath) = true ->
     shouldIncludeFile extname toLowerCase filePath sz = false)
  /\ (forall fs,
        readFilesFromPath extname toLowerCase (lookup_path env p) p = Ok fs ->
        (forall f, In f fs -> is_lock_name (last_segment (path f)) = false)
        /\ lock_file_seen fs = false
        /\ (forall ctx, detectProjectContext fs = Ok ctx ->
                        hasPackageLock ctx = false))
  /\ snd (executeScanCodebase extname toLowerCase env input) = [].
Proof.
  intros Hpath Hp Hdir Hother.
  assert (Hfiles : forall fs,
    readFilesFromPath extname toLowerCase (lookup_path env p) p = Ok fs ->
    (forall f, In f fs -> is_lock_name (last_segment (path f)) = false)
    /\ lock_file_seen fs = false).
  { intros fs Hread. specialize (Hother fs Hread).
    rewrite Hdir in Hread.
    change (readDirectoryRecursive extname toLowerCase (FsDir listing) p []
              [] DEFAULT_MAX_FILES = Ok fs) in Hread.
    apply readDirectoryRecursive_no_lock in Hread; [|constructor].
    rewrite List.Forall_forall in Hread.
    split; [exact Hread|].
    apply lock_file_seen_false. intros f Hf.
    destruct (includes_lock_name (path f)) eqn:Hinc; [|reflexivity].
    pose proof (Hother f Hf Hinc) as Hlock.
    pose proof (Hread f Hf) as Hno. unfold no_lock_file in Hno.
    congruence. }
  split; [|split].
  - intros filePath sz Hlock. apply shouldIncludeFile_skip_list.
    now apply lock_name_in_skip_list.
  - intros fs Hread. destruct (Hfiles fs Hread) as [Hno Hseen].
    split; [exact Hno|]. split; [exact Hseen|].
    intros ctx Hctx.
    now rewrite (detectProjectContext_hasPackageLock fs ctx Hctx).
  - destruct p as [|c p']; [congruence|].
    rewrite (executeScanCodebase_calls _ _ _ _ c p' Hpath).
    destruct (readFilesFromPath _ _ _ _) as [fs|e] eqn:Hread; [|reflexivity].
    destruct (bool_decide (fs = [])); [reflexivity|].
    destruct (detectProjectContext fs) as [ctx|e] eqn:Hctx; [|reflexivity].
    rewrite (detectProjectContext_hasPackageLock fs ctx Hctx).
    destruct (Hfiles fs eq_refl) as [_ ->]. reflexivity.
Qed.

(** C9 at work: the scan of a repository with package-lock.json at its
    root and yarn.lock below does not invoke the audit. *)
Lemma C9_directory_scan_witness :
  snd (executeScanCodebase posix_extname ascii_toLowerCase repo_env scan_repo)
  = [].
Proof.
  assert (Hread :
    readFilesFromPath posix_extname ascii_toLowerCase
      (lookup_path repo_env (lit "/repo")) (lit "/repo")
    = Ok [ mkFile (lit "package.json") (lit "{}") 2 (lit ".json");
           mkFile (lit "src/login.ts") (lit "authenticate(") 13 (lit ".ts") ])
    by (vm_compute; reflexivity).
  apply (C9_directory_scan_never_audits posix_extname ascii_toLowerCase
           repo_env scan_repo (lit "/repo")
           (Ok [ (lit "package-lock.json", FsFile (Ok 10%Z) (Ok (lit "{}")));
                 (lit "package.json", FsFile (Ok 2%Z) (Ok (lit "{}")));
                 (lit "src",
                  FsDir (Ok
                    [ (lit "login.ts",
                       FsFile (Ok 13%Z) (Ok (lit "authenticate(")));
                      (lit "yarn.lock", FsFile (Ok 3%Z) (Ok (lit "abc"))) ]));
                 (lit "node_modules", FsDir (Throw (lit "EACCES"))) ])).
  - reflexivity.
  - discriminate.
  - reflexivity.
  - intros fs Hfs. rewrite Hread in Hfs. injection Hfs as <-.
    intros f [<-|[<-|[]]]; vm_compute; discriminate.
Defined.

(** ** Worked examples *)

(** The end-to-end example of the specification. *)
Example login_and_readme :
  let analysis := collectSecurityHotspots [login_file; readme_file] in
  List.map (fun h => (category h, files h)) (hotspots analysis)
  = [(auth, [login_file])]
  /\ skippedFiles analysis = [lit "README.md"]
  /\ option_map sp_reason (shouldSkipFile readme_file)
     = Some (lit "Documentation")
  /\ totalFiles analysis = 2%Z
  /\ securityRelevantFiles analysis = 1%Z.
Proof. vm_compute. repeat split. Qed.

(** The project-context example of the specification. *)
Example next_is_detected :
  detectProjectContext [next_manifest]
  = Ok (mkProjectContext true false (Some fw_nextjs) None None false).
Proof. vm_compute. reflexivity. Qed.

(** C1 at work: a file in two hotspots counts once. *)
Lemma C1_shared_file_witness :
  let analysis := collectSecurityHotspots [route_file] in
  securityRelevantFiles analysis = 1%Z
  /\ per_hotspot_total (hotspots analysis) = 2%nat.
Proof.
  intros analysis.
  destruct (C1_securityRelevantFiles_counts_distinct_paths [route_file])
    as (Hcount & _ & _).
  split; [|vm_compute; reflexivity].
  fold analysis in Hcount. rewrite Hcount. vm_compute. reflexivity.
Defined.

(** C2 at work: the readme is skipped and the login file is in the auth
    hotspot. *)
Lemma C2_membership_witness :
  let analysis := collectSecurityHotspots [login_file; readme_file] in
  In (path readme_file) (skippedFiles analysis)
  /\ exists h, In h (hotspots analysis) /\ category h = auth
               /\ In login_file (files h).
Proof.
  intros analysis.
  destruct (C2_skip_and_category_membership [login_file; readme_file])
    as (_ & Hskipped & _ & Hlands & _).
  split.
  - apply (Hskipped readme_file); [right; left|]; reflexivity.
  - apply (Hlands login_file auth); [left|vm_compute|vm_compute]; reflexivity.
Defined.

(** C8 at work: a content of 8001 units is serialized as its first 8000
    units and the marker. *)
Lemma C8_truncation_witness :
  let body := truncateContent (content long_file) default_maxChars in
  body = slice0 (content long_file) 8000 ++ truncation_marker
  /\ jslength body = 8016%Z.
Proof.
  intros body.
  destruct (C8_serialized_body_bounded
              (mkHotspot data_flow [long_file] medium []))
    as (_ & _ & _ & _ & Hbody).
  destruct (Hbody long_file body) as (_ & _ & _ & _ & Hcut).
  - left. reflexivity.
  - destruct Hcut as [Heq Hlen]; [vm_compute; reflexivity|].
    split; [exact Heq|].
    rewrite Heq. unfold jslength in *. rewrite length_app.
    destruct truncation_marker_text as [_ Hm]. unfold jslength in Hm. lia.
Defined.

(* ===================================================================== *)
(** * Part III. Further properties of the code                            *)
(* ===================================================================== *)

(** ** The analysis as a whole *)

Lemma filter_split_length {A : Type} (p : A -> bool) (l : list A) :
  (length (List.filter p l) + length (List.filter (fun a => negb (p a)) l)
   = length l)%nat.
Proof.
  induction l as [|a l IH]; simpl; [reflexivity|].
  destruct (p a); simpl; lia.
Qed.

Lemma NoDup_incl_length (l k : list jsstring) :
  NoDup l -> (forall x, In x l -> In x k) -> (length l <= length k)%nat.
Proof.
  intros Hnd Hincl. apply submseteq_length, NoDup_submseteq; [exact Hnd|].
  intros x Hx. apply list_elem_of_In, Hincl, list_elem_of_In, Hx.
Qed.

Lemma collect_totalFiles (fs : list ParsedFile) :
  totalFiles (collectSecurityHotspots fs) = Z.of_nat (length fs).
Proof.
  unfold collectSecurityHotspots.
  now destruct (fold_left collect_step fs ([], [])).
Qed.

(** The relevant paths are paths of files that were not skipped. *)
Lemma relevant_files_bound (fs : list ParsedFile) :
  exists n : nat,
    securityRelevantFiles (collectSecurityHotspots fs) = Z.of_nat n
    /\ (n <= length (List.filter (fun f => negb (skip_match f)) fs))%nat.
Proof.
  exists (length (remove_dups
                    (all_hotspot_paths (hotspots (collectSecurityHotspots fs))))).
  split.
  - unfold collectSecurityHotspots.
    destruct (fold_left collect_step fs ([], [])) as [m sk]. simpl.
    now rewrite securityRelevantSet_paths, size_list_to_set_remove_dups.
  - rewrite <- (length_map path).
    apply NoDup_incl_length; [apply NoDup_remove_dups|].
    intros x Hx. apply list_elem_of_In in Hx.
    apply (proj1 (elem_of_remove_dups _ _)) in Hx.
    apply list_elem_of_In in Hx.
    unfold all_hotspot_paths in Hx. apply in_flat_map in Hx as (h & Hh & Hx).
    apply in_map_iff in Hx as (f & <- & Hf).
    apply hotspot_entry in Hh as (Hfiles & _ & _). rewrite Hfiles in Hf.
    apply filter_In in Hf as [Hf Hl]. apply in_map. apply filter_In.
    split; [exact Hf|]. unfold lands_in in Hl.
    now apply andb_prop in Hl as [Hl _].
Qed.

(** X1. [totalFiles] is the number of scanned files, and the files counted
    as security relevant and the skipped files together never exceed it:
    a relevant path is the path of a file that was not skipped. *)
Theorem collect_counts_are_consistent (fs : list ParsedFile) :
  let analysis := collectSecurityHotspots fs in
  totalFiles analysis = Z.of_nat (length fs)
  /\ (0 <= securityRelevantFiles analysis)%Z
  /\ (securityRelevantFiles analysis
      + Z.of_nat (length (skippedFiles analysis))
      <= totalFiles analysis)%Z.
Proof.
  intros analysis. subst analysis.
  destruct (relevant_files_bound fs) as (n & Hsrf & Hle).
  destruct (collect_analysis fs) as (m & _ & Hsk & _ & _ & _).
  pose proof (filter_split_length skip_match fs) as Hsplit.
  rewrite Hsrf, collect_totalFiles, Hsk, length_map. lia.
Qed.

Lemma hotspot_categories_NoDup (fs : list ParsedFile) :
  NoDup (List.map category (hotspots (collectSecurityHotspots fs))).
Proof.
  rewrite hotspot_categories.
  change (first_seen (scan_categories fs))
    with (first_seen_from [] (scan_categories fs)).
  apply first_seen_from_NoDup. constructor.
Qed.

Lemma hotspots_at_most_six (fs : list ParsedFile) :
  (length (hotspots (collectSecurityHotspots fs)) <= 6)%nat.
Proof.
  rewrite <- (length_map category).
  change 6%nat with (length ALL_CATEGORIES).
  apply submseteq_length, NoDup_submseteq; [apply hotspot_categories_NoDup|].
  intros c _. unfold ALL_CATEGORIES. rewrite !elem_of_cons.
  destruct c; tauto.
Qed.

Lemma hotspot_files_nonempty (fs : list ParsedFile) (h : SecurityHotspot) :
  In h (hotspots (collectSecurityHotspots fs)) -> files h <> [].
Proof.
  intros Hin. pose proof (hotspot_entry fs h Hin) as (Hfiles & Hseen & _).
  apply first_seen_In, scan_categories_In in Hseen as (f & Hf & Hl).
  rewrite Hfiles. intros Hnil.
  assert (Hin' : In f (List.filter (lands_in (category h)) fs))
    by (apply filter_In; now split).
  now rewrite Hnil in Hin'.
Qed.

(** X2. No two hotspots have the same category, so there are at most six,
    one per category of the table; each holds at least one file, and
    carries the priority and the description that the table gives for its
    category. *)
Theorem hotspots_are_well_formed (fs : list ParsedFile) :
  let hs := hotspots (collectSecurityHotspots fs) in
  NoDup (List.map category hs)
  /\ (length hs <= 6)%nat
  /\ forall h, In h hs ->
       files h <> []
       /\ exists cp, In cp CATEGORY_PATTERNS
                     /\ cp_category cp = category h
                     /\ priority h = cp_priority cp
                     /\ reason h = cp_description cp.
Proof.
  intros hs. subst hs. split; [apply hotspot_categories_NoDup|].
  split; [apply hotspots_at_most_six|].
  - intros h Hin.
    destruct (collect_analysis fs) as (m & Hh & _ & _ & _ & _).
    split; [now apply (hotspot_files_nonempty fs)|].
    + rewrite Hh, by_priority_key in Hin. apply js_sort_In in Hin.
      apply in_map_iff in Hin as ([c b] & <- & _). simpl.
      unfold getCategoryPriority, getCategoryDescription, find_pattern.
      destruct c; eexists; (split; [|split; [|split]]);
        try reflexivity; simpl; tauto.
Qed.

(** ** Classification does not depend on letter case *)

Lemma letters_are_no_space c : (65 <= c <= 122)%N -> is_space c = false.
Proof.
  intros Hc. apply not_true_is_false. unfold is_space.
  rewrite !orb_true_iff, !andb_true_iff, !N.leb_le, !N.eqb_eq. lia.
Qed.

Lemma canonicalize_cases c c' :
  canonicalize c = canonicalize c' ->
  c = c' \/ ((65 <= c <= 122)%N /\ (65 <= c' <= 122)%N).
Proof.
  unfold canonicalize.
  destruct (N.leb_spec 97 c), (N.leb_spec c 122), (N.leb_spec 97 c'),
    (N.leb_spec c' 122); simpl; intros Heq; lia.
Qed.

Lemma deriv_canonical c c' r :
  canonicalize c = canonicalize c' -> deriv true c r = deriv true c' r.
Proof.
  intros Heq.
  induction r as [| | d | | |r1 IH1 r2 IH2|r1 IH1 r2 IH2|r IH]; simpl;
    try reflexivity.
  - unfold unit_matches. now rewrite Heq.
  - destruct (canonicalize_cases c c' Heq) as [->|[Hc Hc']]; [reflexivity|].
    now rewrite !letters_are_no_space.
  - now rewrite IH1, IH2.
  - now rewrite IH1, IH2.
  - now rewrite IH.
Qed.

Lemma matches_canonical r s s' :
  List.map canonicalize s = List.map canonicalize s' ->
  matches true r s = matches true r s'.
Proof.
  revert r s'. induction s as [|c s IH]; intros r [|c' s'] Heq;
    try discriminate; simpl; [reflexivity|].
  injection Heq as Hc Hs. rewrite (deriv_canonical c c' r Hc). now apply IH.
Qed.

Lemma test_canonical re s s' :
  ignoreCase re = true ->
  List.map canonicalize s = List.map canonicalize s' ->
  test re s = test re s'.
Proof. unfold test. intros ->. apply matches_canonical. Qed.

Lemma every_pattern_ignores_case :
  forallb (fun sp => ignoreCase (sp_pattern sp)) SKIP_PATTERNS = true
  /\ forallb
       (fun cp => forallb ignoreCase (pathPatterns cp)
                  && forallb ignoreCase (contentPatterns cp))
       CATEGORY_PATTERNS = true.
Proof. split; reflexivity. Qed.

Lemma find_ext_in {A : Type} (p q : A -> bool) (l : list A) :
  (forall x, In x l -> p x = q x) -> List.find p l = List.find q l.
Proof.
  induction l as [|x l IH]; intros Hext; simpl; [reflexivity|].
  rewrite <- (Hext x) by now left. destruct (p x); [reflexivity|].
  apply IH. intros y Hy. apply Hext. now right.
Qed.

Lemma existsb_ext_in {A : Type} (p q : A -> bool) (l : list A) :
  (forall x, In x l -> p x = q x) -> existsb p l = existsb q l.
Proof.
  induction l as [|x l IH]; intros Hext; simpl; [reflexivity|].
  rewrite (Hext x) by now left. f_equal. apply IH.
  intros y Hy. apply Hext. now right.
Qed.

(** X3. Two files whose paths agree up to the case of ASCII letters, and
    whose contents do, are skipped by the same pattern or not at all, and
    fall in the same categories: every pattern of both tables carries the
    i flag. *)
Theorem classification_ignores_case (f g : ParsedFile) :
  List.map canonicalize (path f) = List.map canonicalize (path g) ->
  List.map canonicalize (content f) = List.map canonicalize (content g) ->
  shouldSkipFile f = shouldSkipFile g
  /\ categorizeFile f = categorizeFile g.
Proof.
  intros Hpath Hcontent.
  destruct every_pattern_ignores_case as [Hskip Hcat].
  rewrite forallb_forall in Hskip, Hcat. split.
  - unfold shouldSkipFile. apply find_ext_in. intros sp Hsp.
    apply test_canonical; [now apply Hskip|exact Hpath].
  - rewrite !categorizeFile_filter. f_equal. apply filter_ext_in.
    intros cp Hcp. specialize (Hcat cp Hcp).
    apply andb_prop in Hcat as [Hp Hc]. rewrite forallb_forall in Hp, Hc.
    unfold category_matches. f_equal; apply existsb_ext_in; intros re Hre;
      apply test_canonical; auto.
Qed.

(** X3 at work: Readme.MD is skipped as README.md is. *)
Lemma classification_ignores_case_witness :
  shouldSkipFile readme_file = shouldSkipFile shouting_readme
  /\ categorizeFile readme_file = categorizeFile shouting_readme.
Proof.
  apply (classification_ignores_case readme_file shouting_readme);
    reflexivity.
Defined.

(** ** Filtering twice *)

Lemma filter_filter {A : Type} (p q : A -> bool) (l : list A) :
  List.filter p (List.filter q l) = List.filter (fun a => q a && p a) l.
Proof.
  induction l as [|a l IH]; simpl; [reflexivity|].
  destruct (q a); simpl; [destruct (p a)|]; now rewrite IH.
Qed.

Lemma StronglySorted_filter {A : Type} (R : A -> A -> Prop) (p : A -> bool)
    (l : list A) :
  StronglySorted R l -> StronglySorted R (List.filter p l).
Proof.
  induction 1 as [|a l Hs IH Hall]; simpl; [constructor|].
  destruct (p a); [|exact IH]. constructor; [exact IH|].
  rewrite List.Forall_forall in Hall |- *. intros x Hx.
  apply filter_In in Hx as [Hx _]. now apply Hall.
Qed.

(** X4. Filtering by one list of categories and then by another keeps the
    hotspots whose category is in both, in either order of the two
    filters; filtering twice by the same list changes nothing more;
    filtering keeps the hotspots in ascending priority; and filtering an
    analysis by all six categories returns it as it is. *)
Theorem filterHotspots_composes (analysis : HotspotAnalysis)
    (cs1 cs2 : list HotspotCategory) :
  filterHotspots (filterHotspots analysis cs1) cs2
  = filterHotspots (filterHotspots analysis cs2) cs1
  /\ (forall h, In h (hotspots (filterHotspots (filterHotspots analysis cs1) cs2))
        <-> In h (hotspots analysis)
            /\ In (category h) cs1 /\ In (category h) cs2)
  /\ filterHotspots (filterHotspots analysis cs1) cs1
     = filterHotspots analysis cs1
  /\ filterHotspots analysis ALL_CATEGORIES = analysis
  /\ (StronglySorted
        (fun a b => (priorityOrder (priority a) <= priorityOrder (priority b))%Z)
        (hotspots analysis) ->
      StronglySorted
        (fun a b => (priorityOrder (priority a) <= priorityOrder (priority b))%Z)
        (hotspots (filterHotspots analysis cs1))).
Proof.
  unfold filterHotspots. simpl. split; [|split; [|split; [|split]]].
  - f_equal. rewrite !filter_filter. apply List.filter_ext.
    intros h. apply andb_comm.
  - intros h. rewrite filter_filter, filter_In, andb_true_iff,
      !bool_decide_eq_true, !list_elem_of_In. tauto.
  - f_equal. rewrite filter_filter. apply List.filter_ext.
    intros h. now destruct (bool_decide _).
  - destruct analysis as [hs sk total srf]. simpl. f_equal.
    induction hs as [|h hs IH]; simpl; [reflexivity|].
    rewrite bool_decide_true; [now rewrite IH|].
    unfold ALL_CATEGORIES. rewrite !elem_of_cons. destruct (category h); tauto.
  - apply StronglySorted_filter.
Qed.

(** ** The size of the user prompt *)

Lemma truncateContent_length (text : jsstring) :
  (jslength (truncateContent text default_maxChars) <= 8016)%Z.
Proof.
  destruct truncation_marker_text as [_ Hm].
  destruct (truncateContent_cases text) as [[Hle ->]|(Hgt & -> & Hlen)];
    unfold default_maxChars in *; [lia|].
  unfold jslength in *. rewrite length_app. lia.
Qed.

Lemma serialized_total_step (j : nat) (l : list ParsedFile) :
  (serialized_total (firstn (S j) l) <= serialized_total (firstn j l) + 8016)%Z.
Proof.
  revert l. induction j as [|j IH]; intros [|f l]; simpl; try lia.
  - pose proof (truncateContent_length (content f)). lia.
  - specialize (IH l). simpl in IH. lia.
Qed.

Lemma bodies_total_app ps qs :
  bodies_total (ps ++ qs) = (bodies_total ps + bodies_total qs)%Z.
Proof.
  induction ps as [|[f body|count] ps IH]; simpl; lia.
Qed.

Lemma bodies_total_file_parts l :
  bodies_total (List.map file_part l) = serialized_total l.
Proof. induction l as [|f l IH]; simpl; congruence. Qed.

(** X5. Whatever the files of a hotspot, the parts of its prompt are no
    more than the files; the bodies serialized in it total at most 100000
    units plus one body of at most 8016; and a line about omitted files can
    only be the last part, its count being at least 1 and, added to the
    number of serialized files, the number of files. *)
Theorem prompt_parts_are_bounded (fs : list ParsedFile) :
  let parts := format_parts fs in
  (length parts <= length fs)%nat
  /\ (bodies_total parts <= 108016)%Z
  /\ forall i count,
       nth_error parts i = Some (OmittedPart count) ->
       S i = length parts
       /\ (1 <= count)%Z
       /\ (Z.of_nat (serialized_count parts) + count = Z.of_nat (length fs))%Z.
Proof.
  intros parts. subst parts. unfold format_parts.
  pose proof (js_sort_perm by_size fs) as Hperm.
  apply Permutation_length in Hperm.
  set (sorted := js_sort by_size fs) in *.
  destruct (format_loop_cut (Z.of_nat (length sorted)) sorted [] 0)
    as (k & Hk & Heq & Hbelow & Hover).
  simpl in Heq. rewrite Heq. clear Heq.
  assert (Hlen : length (firstn k sorted) = k) by (apply firstn_length_le; lia).
  assert (Htotal : (serialized_total (firstn k sorted) <= 108016)%Z).
  { destruct k as [|j]; [simpl; lia|].
    pose proof (serialized_total_step j sorted).
    specialize (Hbelow j ltac:(lia)). unfold maxTotalChars in Hbelow. lia. }
  rewrite length_app, length_map, Hlen, bodies_total_app,
    bodies_total_file_parts, serialized_count_app,
    serialized_count_file_parts, Hlen.
  destruct (k <? length sorted)%nat eqn:Hlt.
  - apply Nat.ltb_lt in Hlt. simpl. split; [lia|]. split; [lia|].
    intros i count Hnth.
    destruct (Nat.lt_ge_cases i k) as [Hi|Hi].
    + rewrite nth_error_app1 in Hnth by (rewrite length_map; lia).
      apply nth_error_In, in_map_iff in Hnth as (f & Hf & _). discriminate.
    + rewrite nth_error_app2 in Hnth by (rewrite length_map; lia).
      rewrite length_map, Hlen in Hnth.
      destruct (i - k)%nat as [|d] eqn:Hd;
        [|destruct d; discriminate].
      injection Hnth as <-. unfold serialized_count. simpl. lia.
  - simpl. split; [apply Nat.ltb_ge in Hlt; lia|]. split; [lia|].
    intros i count Hnth. rewrite app_nil_r in Hnth.
    apply nth_error_In, in_map_iff in Hnth as (f & Hf & _). discriminate.
Qed.

(** ** The response parser, further *)

Lemma from_first_open_exact pre rest :
  ~ In open_brace pre ->
  from_first_open (pre ++ open_brace :: rest) = Some rest.
Proof.
  induction pre as [|c pre IH]; simpl; [reflexivity|].
  intros Hn. destruct (c =? 123)%N eqn:Hc.
  - apply N.eqb_eq in Hc. exfalso. apply Hn. now left.
  - apply IH. tauto.
Qed.

Lemma through_last_close_none post :
  ~ In close_brace post -> through_last_close post = None.
Proof.
  induction post as [|c post IH]; simpl; [reflexivity|].
  intros Hn. rewrite IH by tauto. destruct (c =? 125)%N eqn:Hc;
    [|reflexivity].
  apply N.eqb_eq in Hc. exfalso. apply Hn. now left.
Qed.

Lemma through_last_close_exact mid post :
  ~ In close_brace post ->
  through_last_close (mid ++ close_brace :: post) = Some (mid ++ [close_brace]).
Proof.
  intros Hn. induction mid as [|c mid IH]; simpl.
  - now rewrite through_last_close_none.
  - now rewrite IH.
Qed.

(** X6. Text around the object is ignored: when nothing before the object
    holds an opening brace and nothing after it holds a closing brace, the
    response parses exactly as the object alone does. *)
Theorem parseAIResponse_ignores_prose (pre mid post : jsstring) :
  ~ In open_brace pre -> ~ In close_brace post ->
  let object := open_brace :: mid ++ [close_brace] in
  jsonMatch (pre ++ object ++ post) = Some object
  /\ parseAIResponse (pre ++ object ++ post) = parseAIResponse object.
Proof.
  intros Hpre Hpost object.
  assert (Hmatch : forall a b, ~ In open_brace a -> ~ In close_brace b ->
            jsonMatch (a ++ object ++ b) = Some object).
  { intros a b Ha Hb. unfold jsonMatch, object. simpl.
    rewrite from_first_open_exact by exact Ha.
    rewrite <- app_assoc. simpl.
    now rewrite through_last_close_exact by exact Hb. }
  split; [now apply Hmatch|].
  unfold parseAIResponse. rewrite (Hmatch pre post Hpre Hpost).
  specialize (Hmatch [] [] ltac:(simpl; tauto) ltac:(simpl; tauto)).
  change ([] ++ object ++ []) with (object ++ []) in Hmatch.
  rewrite app_nil_r in Hmatch. now rewrite Hmatch.
Qed.

(** X7. [parseAIResponse] always returns, and the summary it returns is
    never falsy. Without a brace pair it is "Could not parse AI response".
    When the text between the braces does not parse, or parses to null, it
    is "Could not parse AI response as JSON", with no findings. Otherwise
    it is the summary of the parsed value when that is truthy, and
    "Analysis complete" when the summary is missing, null, false, zero or
    the empty string. *)
Theorem parseAIResponse_summary_is_truthy (response : jsstring) :
  exists r,
    parseAIResponse response = Ok r
    /\ truthy (summary r) = true
    /\ match jsonMatch response with
       | None =>
           r = mkAIResponse [] (JString (lit "Could not parse AI response"))
       | Some text =>
           match JSON_parse text with
           | Throw _ | Ok JNull =>
               r = mkAIResponse []
                     (JString (lit "Could not parse AI response as JSON"))
           | Ok (JObject members) =>
               summary r
               = match lookup_member (lit "summary") members with
                 | Some v => if truthy v then v
                             else JString (lit "Analysis complete")
                 | None => JString (lit "Analysis complete")
                 end
           | Ok _ => summary r = JString (lit "Analysis complete")
           end
       end.
Proof.
  unfold parseAIResponse.
  destruct (jsonMatch response) as [text|]; [|eauto].
  destruct (JSON_parse text) as [parsed|e]; cbn [bind try_catch]; [|eauto].
  destruct parsed as [|b|n|t|elements|members];
    cbn [get_prop bind try_catch];
    (eexists; split; [reflexivity|]; cbn [summary]; split; [|reflexivity]);
    try reflexivity.
  destruct (lookup_member (lit "summary") members) as [v|]; [|reflexivity].
  destruct (truthy v) eqn:Hv; [exact Hv|reflexivity].
Qed.

(** X6 at work: the example response with a closing remark. *)
Lemma parseAIResponse_ignores_prose_witness :
  parseAIResponse
    (lit "here you go: " ++ (open_brace :: example_object_inside ++ [close_brace])
     ++ lit " - that is all")
  = parseAIResponse (open_brace :: example_object_inside ++ [close_brace]).
Proof.
  apply (parseAIResponse_ignores_prose (lit "here you go: ")
           example_object_inside (lit " - that is all"));
    simpl; intuition discriminate.
Defined.

(** ** Weakness records and their cache *)

Lemma collect_leaves_spec f xs s :
  In s (collect_leaves f xs) <->
  exists x, In x (payload_strings xs) /\ x <> [] /\ s = f x.
Proof.
  unfold collect_leaves, payload_strings. destruct xs as [items|]; simpl.
  - rewrite in_map_iff. split.
    + intros (x & <- & Hx). apply filter_In in Hx as [Hx Ht].
      exists x. split; [exact Hx|]. split; [|reflexivity].
      now destruct x.
    + intros (x & Hx & Hne & ->). exists x. split; [reflexivity|].
      apply filter_In. split; [exact Hx|]. now destruct x.
  - split; [tauto|]. now intros (x & [] & _).
Qed.

(** X8. The record built from a payload has the id "CWE-" followed by the
    payload's ID; its mitigations, detection methods and examples are the
    non-empty strings of the payload and nothing else; and its related
    weaknesses are the non-empty ids of the payload, each behind "CWE-". No
    list of the record holds an empty string. *)
Theorem transformCWEResponse_drops_empty_entries (data : CWEApiResponse) :
  let record := transformCWEResponse data in
  cwe_id record = lit "CWE-" ++ ID data
  /\ cwe_name record = Name data
  /\ (forall s, In s (mitigations record) <->
        In s (payload_strings (Potential_Mitigations data)) /\ s <> [])
  /\ (forall s, In s (detectionMethods record) <->
        In s (payload_strings (Detection_Methods data)) /\ s <> [])
  /\ (forall s, In s (examples record) <->
        In s (payload_strings (Demonstrative_Examples data)) /\ s <> [])
  /\ (forall s, In s (relatedWeaknesses record) <->
        exists n, In n (payload_strings (Related_Weaknesses data))
                  /\ n <> [] /\ s = lit "CWE-" ++ n)
  /\ (forall s, In s (applicablePlatforms record) -> s <> []).
Proof.
  intros record. subst record. unfold transformCWEResponse. simpl.
  assert (Hid : forall xs s,
    In s (collect_leaves (fun d => d) xs) <->
    In s (payload_strings xs) /\ s <> []).
  { intros xs s. rewrite collect_leaves_spec. split.
    - now intros (x & Hx & Hne & ->).
    - intros [Hx Hne]. eauto. }
  split; [reflexivity|]. split; [reflexivity|].
  split; [apply Hid|]. split; [apply Hid|]. split; [apply Hid|].
  split; [intros s; apply collect_leaves_spec|].
  intros s. destruct (Applicable_Platforms data) as [p|]; simpl; [|tauto].
  rewrite in_app_iff, !Hid. tauto.
Qed.

Lemma strip_cache_key cweId : strip_cwe_prefix (cache_key cweId) = strip_cwe_prefix cweId.
Proof.
  unfold cache_key. apply (strip_cwe_prefix_any_case (lit "CWE-")).
  reflexivity.
Qed.

(** X9. Normalizing is idempotent, and looking an identifier up by its
    normalized key is the same lookup: same result, same state, same
    request if one is issued. *)
Theorem lookup_by_normalized_key (numberToString : JsNumber -> jsstring)
    (remote : jsstring -> Result Response)
    (cweId : jsstring) (st : CweState) :
  cache_key (cache_key cweId) = cache_key cweId
  /\ cwe_url (cache_key cweId) = cwe_url cweId
  /\ fetchCWE numberToString remote (cache_key cweId) st
     = fetchCWE numberToString remote cweId st.
Proof.
  pose proof (strip_cache_key cweId) as Hstrip.
  split; [|split].
  - unfold cache_key at 1. now rewrite Hstrip.
  - unfold cwe_url. now rewrite Hstrip.
  - unfold fetchCWE. now rewrite Hstrip.
Qed.

(** What a lookup leaves in the cache: the cache as it was, or with one
    record more under a key that was free. *)
Lemma fetchCWE_cache numberToString remote cweId st :
  cweCache (snd (fetchCWE numberToString remote cweId st)) = cweCache st
  \/ exists body record,
       cweCache st !! cache_key cweId = None
       /\ unchecked.transformCWEResponse numberToString body = Ok record
       /\ fst (fetchCWE numberToString remote cweId st) = Ok (Some record)
       /\ cweCache (snd (fetchCWE numberToString remote cweId st))
          = <[cache_key cweId := record]> (cweCache st).
Proof.
  destruct (cweCache st !! cache_key cweId) as [d|] eqn:Hlook.
  - left. now rewrite (fetchCWE_hit _ _ _ _ d Hlook).
  - rewrite (fetchCWE_miss _ _ _ _ Hlook). cbv zeta.
    destruct (remote (cwe_url cweId)) as [response|e]; [|now left].
    destruct (response_ok response); [|now left].
    destruct (json response) as [body|e]; [|now left].
    destruct (unchecked.transformCWEResponse numberToString body)
      as [record|e] eqn:Hrecord; [|now left].
    right. now exists body, record.
Qed.

Lemma fetchCWE_keeps_entries numberToString remote cweId st k d :
  cweCache st !! k = Some d ->
  cweCache (snd (fetchCWE numberToString remote cweId st)) !! k = Some d.
Proof.
  intros Hk.
  destruct (fetchCWE_cache numberToString remote cweId st)
    as [->|(body & record & Hfree & _ & _ & ->)]; [exact Hk|].
  rewrite lookup_insert_ne; [exact Hk|]. intros <-. congruence.
Qed.

Lemma fetchCWE_requests numberToString remote cweId st :
  exists more,
    requests (snd (fetchCWE numberToString remote cweId st))
    = requests st ++ more
    /\ (length more <= 1)%nat.
Proof.
  destruct (cweCache st !! cache_key cweId) as [d|] eqn:Hlook.
  - rewrite (fetchCWE_hit _ _ _ _ d Hlook). exists [].
    rewrite app_nil_r. split; [reflexivity|simpl; lia].
  - rewrite (fetchCWE_miss _ _ _ _ Hlook). cbv zeta.
    exists [cwe_url cweId]. split; [|simpl; lia].
    destruct (remote (cwe_url cweId)) as [response|e]; [|reflexivity].
    destruct (response_ok response); [|reflexivity].
    destruct (json response) as [body|e]; [|reflexivity].
    now destruct (unchecked.transformCWEResponse numberToString body).
Qed.

(** Whatever the payload, the id of the record starts with "CWE-". *)
Lemma transformCWEResponse_id numberToString body record :
  unchecked.transformCWEResponse numberToString body = Ok record ->
  exists n, rec_id record = lit "CWE-" ++ n.
Proof.
  unfold unchecked.transformCWEResponse. cbv zeta.
  repeat match goal with
         | |- context [bind ?x _] => destruct x; cbn [bind]; [|discriminate]
         end.
  intros [= <-]. eauto.
Qed.

Lemma fetchCWE_keeps_ids_prefixed numberToString remote cweId st :
  cache_ids_prefixed st ->
  cache_ids_prefixed (snd (fetchCWE numberToString remote cweId st)).
Proof.
  intros Hwf k d.
  destruct (fetchCWE_cache numberToString remote cweId st)
    as [->|(body & record & _ & Hrecord & _ & ->)]; [apply Hwf|].
  rewrite lookup_insert. case_decide as Hk; [|apply Hwf].
  intros [= <-]. now apply (transformCWEResponse_id numberToString body).
Qed.

(** X10. Over any run of lookups, whatever the remote end answers to each
    and whatever the shape of its payloads: an entry of the cache is never
    removed nor replaced, the requests issued before stay the first of the
    log, at most one request is added per lookup, and when every cached
    record has an id of the form CWE-..., so has every record cached
    afterwards. *)
Theorem cache_only_grows (numberToString : JsNumber -> jsstring)
    (calls : list ((jsstring -> Result Response) * jsstring)) (st : CweState) :
  let st' := fetch_sequence numberToString calls st in
  (forall k d, cweCache st !! k = Some d -> cweCache st' !! k = Some d)
  /\ (exists more, requests st' = requests st ++ more
                   /\ (length more <= length calls)%nat)
  /\ (cache_ids_prefixed st -> cache_ids_prefixed st').
Proof.
  revert st. induction calls as [|[remote cweId] calls IH]; intros st; simpl.
  - split; [auto|]. split; [|auto].
    exists []. rewrite app_nil_r. split; [reflexivity|simpl; lia].
  - destruct (IH (snd (fetchCWE numberToString remote cweId st)))
      as (Hkeep & Hreq & Hwf).
    split; [|split].
    + intros k d Hk. apply Hkeep. now apply fetchCWE_keeps_entries.
    + destruct Hreq as (more & Hmore & Hlen).
      destruct (fetchCWE_requests numberToString remote cweId st)
        as (one & Hone & Hlen1).
      exists (one ++ more). rewrite Hmore, Hone, <- app_assoc.
      split; [reflexivity|]. rewrite length_app. lia.
    + intros H. apply Hwf. now apply fetchCWE_keeps_ids_prefixed.
Qed.

Lemma startsWith_app (p rest : jsstring) : startsWith (p ++ rest) p = true.
Proof.
  induction p as [|c p IH]; simpl; [now destruct rest|].
  now rewrite N.eqb_refl, IH.
Qed.

Lemma fetchCWE_found_prefixed numberToString remote cweId st record :
  cache_ids_prefixed st ->
  fst (fetchCWE numberToString remote cweId st) = Ok (Some record) ->
  exists n, rec_id record = lit "CWE-" ++ n.
Proof.
  intros Hwf.
  destruct (cweCache st !! cache_key cweId) as [d|] eqn:Hlook.
  - rewrite (fetchCWE_hit _ _ _ _ d Hlook). intros [= <-].
    now apply (Hwf _ _ Hlook).
  - rewrite (fetchCWE_miss _ _ _ _ Hlook). cbv zeta.
    destruct (remote (cwe_url cweId)) as [response|e]; [|discriminate].
    destruct (response_ok response); [|discriminate].
    destruct (json response) as [body|e]; [|discriminate].
    destruct (unchecked.transformCWEResponse numberToString body)
      as [r|e] eqn:Hr; [|discriminate].
    intros [= <-]. now apply (transformCWEResponse_id numberToString body).
Qed.

(** X11. [getCWESummary] leaves the state that the lookup leaves. When the
    lookup finds nothing the summary is the normalized key. When it finds
    a record whose name and description are strings, the summary is the
    id, the name and the first 200 units of the description. When the
    description of the record is neither a string nor an array, as it can
    be since payloads are not checked, [getCWESummary] throws: it takes the
    slice outside any try block. Whenever it returns and the cached
    records carry ids of the form CWE-..., the summary starts with
    "CWE-". *)
Theorem getCWESummary_outcomes (numberToString : JsNumber -> jsstring)
    (remote : jsstring -> Result Response) (cweId : jsstring) (st : CweState) :
  let looked := fetchCWE numberToString remote cweId st in
  let out := getCWESummary numberToString remote cweId st in
  snd out = snd looked
  /\ (fst looked = Ok None -> fst out = Ok (cache_key cweId))
  /\ (forall record, fst looked = Ok (Some record) ->
        (forall name text,
           rec_name record = Some (JString name) ->
           rec_description record = JString text ->
           fst out = Ok (rec_id record ++ lit ": " ++ name ++ lit " - " ++
                         slice0 text 200 ++ lit "..."))
        /\ (match rec_description record with
            | JString _ | JArray _ => False
            | _ => True
            end ->
            exists e, fst out = Throw e))
  /\ (cache_ids_prefixed st ->
      forall text, fst out = Ok text -> startsWith text (lit "CWE-") = true).
Proof.
  intros looked out. subst looked out. unfold getCWESummary.
  pose proof (fetchCWE_found_prefixed numberToString remote cweId st)
    as Hprefixed.
  destruct (fetchCWE numberToString remote cweId st) as [fetched st'].
  cbn [fst snd] in *. split; [reflexivity|]. split; [|split].
  - now intros ->.
  - intros record ->. cbn [bind]. split.
    + intros name text -> ->. reflexivity.
    + intros Hshape.
      destruct (interpolate numberToString (rec_name record)) as [name|e];
        cbn [bind]; [|eauto].
      destruct (rec_description record); cbn [slice_from_start bind];
        try contradiction; eauto.
  - intros Hwf text. destruct fetched as [[record|]|e]; cbn [bind].
    + destruct (Hprefixed record Hwf eq_refl) as [n Hn].
      destruct (interpolate numberToString (rec_name record)) as [name|e];
        cbn [bind]; [|discriminate].
      destruct (slice_from_start (rec_description record) 200) as [cut|e];
        cbn [bind]; [|discriminate].
      destruct (ToString numberToString cut) as [description|e];
        cbn [bind]; [|discriminate].
      intros [= <-]. rewrite Hn, <- app_assoc. apply startsWith_app.
    + intros [= <-]. exact (startsWith_app (lit "CWE-") _).
    + discriminate.
Qed.

(** X11 at work: a payload whose Description is true is cached, and the
    summary of that weakness throws. *)
Lemma getCWESummary_outcomes_witness :
  exists e,
    fst (getCWESummary no_numbers remote_true_description (lit "79")
           empty_state) = Throw e.
Proof.
  assert (Hfound :
    fst (fetchCWE no_numbers remote_true_description (lit "79") empty_state)
    = Ok (Some (mkCWERecord (lit "CWE-79")
                  (Some (JString (lit "Cross-site Scripting"))) (JBool true)
                  None [] [] [] [] []))).
  { rewrite (fetchCWE_miss _ _ _ _ (lookup_empty _)). reflexivity. }
  destruct (getCWESummary_outcomes no_numbers remote_true_description
              (lit "79") empty_state) as (_ & _ & Hrecord & _).
  destruct (Hrecord _ Hfound) as [_ Hthrows].
  apply Hthrows. exact I.
Defined.

(** ** The directory reader *)

Section ReaderInvariant.
Context (extname : jsstring -> jsstring) (toLowerCase : jsstring -> jsstring).
Variable Q : ParsedFile -> Prop.
Hypothesis HQ :
  forall dirPath relDir name sz text,
    shouldIncludeFile extname toLowerCase (entry_full dirPath name) sz = true ->
    Q (mkFile (entry_relative relDir name) text sz
         (toLowerCase (extname (entry_full dirPath name)))).

Lemma reads_well_refl acc maxFiles : reads_well Q acc maxFiles acc.
Proof.
  exists []. rewrite app_nil_r. split; [reflexivity|]. split; [constructor|lia].
Qed.

Lemma reads_well_trans acc acc' fs maxFiles :
  reads_well Q acc maxFiles acc' -> reads_well Q acc' maxFiles fs ->
  reads_well Q acc maxFiles fs.
Proof.
  intros (n1 & -> & H1 & L1) (n2 & -> & H2 & L2).
  exists (n1 ++ n2). rewrite app_assoc. split; [reflexivity|].
  split; [apply List.Forall_app; now split|lia].
Qed.

Lemma read_file_entry_reads_well dirPath relDir name stat read acc maxFiles :
  (Z.of_nat (length acc) < maxFiles)%Z ->
  reads_well Q acc maxFiles
    (read_file_entry extname toLowerCase (entry_full dirPath name)
       (entry_relative relDir name) stat read acc).
Proof using HQ.
  intros Hlt. unfold read_file_entry.
  destruct stat as [sz|]; [|apply reads_well_refl].
  destruct (shouldIncludeFile _ _ _ sz) eqn:Hinc; [|apply reads_well_refl].
  destruct read as [text|]; [|apply reads_well_refl].
  eexists. split; [reflexivity|]. split.
  - constructor; [|constructor]. now apply HQ.
  - rewrite length_app. simpl. lia.
Qed.

Lemma read_entries_reads_well recurse dirPath relDir maxFiles entries :
  List.Forall
    (fun e => forall fullPath rel acc fs,
       recurse (snd e) fullPath rel acc = Ok fs -> reads_well Q acc maxFiles fs)
    entries ->
  forall acc fs,
    read_entries extname toLowerCase recurse dirPath relDir maxFiles entries acc
    = Ok fs ->
    reads_well Q acc maxFiles fs.
Proof using HQ.
  induction 1 as [|[name child] es Hchild _ IH]; intros acc fs; simpl.
  - intros [= <-]. apply reads_well_refl.
  - destruct (Z.geb_spec (Z.of_nat (length acc)) maxFiles) as [Hge|Hlt];
      [intros [= <-]; apply reads_well_refl|].
    destruct child as [stat read|listing|].
    + intros Hrest. eapply reads_well_trans; [|exact (IH _ _ Hrest)].
      now apply read_file_entry_reads_well.
    + destruct (set_has SKIP_DIRECTORIES name); [apply IH|].
      destruct (recurse (FsDir listing) _ _ acc) as [acc'|e] eqn:Hrec;
        simpl; [|discriminate].
      intros Hrest. eapply reads_well_trans; [|exact (IH _ _ Hrest)].
      exact (Hchild _ _ _ _ Hrec).
    + apply IH.
Qed.

Lemma readDirectoryRecursive_reads_well dir :
  forall dirPath relDir acc maxFiles fs,
    readDirectoryRecursive extname toLowerCase dir dirPath relDir acc maxFiles
    = Ok fs ->
    reads_well Q acc maxFiles fs.
Proof using HQ.
  induction dir as [stat read|entries IH|e|] using FsNode_nested_ind;
    intros dirPath relDir acc maxFiles fs; simpl;
    destruct (Z.of_nat (length acc) >=? maxFiles)%Z;
    try (intros [= <-]; apply reads_well_refl); try discriminate.
  apply read_entries_reads_well.
  eapply List.Forall_impl; [|exact IH].
  intros [name child] Hc fullPath rel acc' fs'. simpl. apply Hc.
Qed.

End ReaderInvariant.

(** X12. The files read from a directory are at most 500; each is at most
    1 MiB in size, and none is named as a file of the skip list
    (the lock files and .DS_Store). *)
Theorem directory_read_is_bounded
    (extname toLowerCase : jsstring -> jsstring)
    (listing : Result (list (jsstring * FsNode))) (p : jsstring)
    (fs : list ParsedFile) :
  readFilesFromPath extname toLowerCase (Some (FsDir listing)) p = Ok fs ->
  (length fs <= 500)%nat
  /\ forall f, In f fs ->
       (size f <= 1048576)%Z
       /\ set_has SKIP_FILES (last_segment (path f)) = false.
Proof.
  intros Hread.
  change (readDirectoryRecursive extname toLowerCase (FsDir listing) p []
            [] DEFAULT_MAX_FILES = Ok fs) in Hread.
  apply (readDirectoryRecursive_reads_well extname toLowerCase
           (fun f => (size f <= 1048576)%Z
                     /\ set_has SKIP_FILES (last_segment (path f)) = false))
    in Hread.
  - destruct Hread as (new & -> & Hnew & Hlen). simpl in *.
    unfold DEFAULT_MAX_FILES in Hlen. split; [lia|].
    now apply List.Forall_forall.
  - intros dirPath relDir name sz text. unfold shouldIncludeFile. simpl.
    rewrite last_segment_entry_full, last_segment_entry_relative.
    destruct (set_has SKIP_FILES (last_segment name)); [discriminate|].
    destruct (Z.gtb_spec sz MAX_FILE_SIZE) as [Hgt|Hle]; [discriminate|].
    intros _. unfold MAX_FILE_SIZE in Hle. split; [lia|reflexivity].
Qed.

(** X12 at work: the repository with lock files at two levels. *)
Lemma directory_read_is_bounded_witness :
  (length [ mkFile (lit "package.json") (lit "{}") 2 (lit ".json");
            mkFile (lit "src/login.ts") (lit "authenticate(") 13 (lit ".ts") ]
   <= 500)%nat
  /\ forall f,
       In f [ mkFile (lit "package.json") (lit "{}") 2 (lit ".json");
              mkFile (lit "src/login.ts") (lit "authenticate(") 13 (lit ".ts") ] ->
       (size f <= 1048576)%Z
       /\ set_has SKIP_FILES (last_segment (path f)) = false.
Proof.
  apply (directory_read_is_bounded posix_extname ascii_toLowerCase
           (Ok [ (lit "package-lock.json", FsFile (Ok 10%Z) (Ok (lit "{}")));
                 (lit "package.json", FsFile (Ok 2%Z) (Ok (lit "{}")));
                 (lit "src",
                  FsDir (Ok
                    [ (lit "login.ts",
                       FsFile (Ok 13%Z) (Ok (lit "authenticate(")));
                      (lit "yarn.lock", FsFile (Ok 3%Z) (Ok (lit "abc"))) ]));
                 (lit "node_modules", FsDir (Throw (lit "EACCES"))) ])
           (lit "/repo")).
  vm_compute. reflexivity.
Defined.

Section ReaderSteps.
Context (extname : jsstring -> jsstring) (toLowerCase : jsstring -> jsstring).

Lemma read_entries_full recurse dirPath relDir maxFiles es acc :
  (Z.of_nat (length acc) >= maxFiles)%Z ->
  read_entries extname toLowerCase recurse dirPath relDir maxFiles es acc
  = Ok acc.
Proof.
  intros Hge. destruct es as [|[name child] es]; simpl; [reflexivity|].
  destruct (Z.geb_spec (Z.of_nat (length acc)) maxFiles); [reflexivity|lia].
Qed.

(** Reading a listing is reading its first entries, then the others. *)
Lemma read_entries_app recurse dirPath relDir maxFiles es1 es2 :
  forall acc,
    read_entries extname toLowerCase recurse dirPath relDir maxFiles
      (es1 ++ es2) acc
    = let* acc' := read_entries extname toLowerCase recurse dirPath relDir
                     maxFiles es1 acc in
      read_entries extname toLowerCase recurse dirPath relDir maxFiles es2 acc'.
Proof.
  induction es1 as [|[name child] es1 IH]; intros acc; [reflexivity|].
  cbn [app]. simpl.
  destruct (Z.geb_spec (Z.of_nat (length acc)) maxFiles) as [Hge|Hlt].
  - simpl. symmetry. apply read_entries_full. lia.
  - destruct child as [stat read|listing|]; [apply IH| |apply IH].
    destruct (set_has SKIP_DIRECTORIES name); [apply IH|].
    destruct (recurse (FsDir listing) _ _ acc) as [acc'|e]; simpl;
      [apply IH|reflexivity].
Qed.

Lemma read_entries_hide_skipped other recurse dirPath relDir maxFiles entries :
  List.Forall
    (fun e => forall fullPath rel acc,
       recurse (hide_skipped other (snd e)) fullPath rel acc
       = recurse (snd e) fullPath rel acc) entries ->
  forall acc,
    read_entries extname toLowerCase recurse dirPath relDir maxFiles
      (List.map
         (fun e =>
            match snd e with
            | FsDir _ =>
                if set_has SKIP_DIRECTORIES (fst e) then (fst e, FsDir other)
                else (fst e, hide_skipped other (snd e))
            | _ => e
            end) entries) acc
    = read_entries extname toLowerCase recurse dirPath relDir maxFiles
        entries acc.
Proof.
  induction 1 as [|[name child] es Hchild _ IH]; intros acc; [reflexivity|].
  cbn [List.map fst snd].
  destruct child as [stat read|listing|].
  - simpl. destruct (Z.of_nat (length acc) >=? maxFiles)%Z; [reflexivity|].
    apply IH.
  - destruct (set_has SKIP_DIRECTORIES name) eqn:Hskip.
    + simpl. rewrite Hskip.
      destruct (Z.of_nat (length acc) >=? maxFiles)%Z; [reflexivity|].
      apply IH.
    + cbn [snd] in Hchild.
      assert (Hdir : exists l, hide_skipped other (FsDir listing) = FsDir l)
        by (destruct listing; simpl; eauto).
      destruct Hdir as [l Hl]. specialize (Hchild (entry_full dirPath name)
                                 (entry_relative relDir name) acc).
      rewrite Hl in *. simpl. rewrite Hskip.
      destruct (Z.of_nat (length acc) >=? maxFiles)%Z; [reflexivity|].
      rewrite Hchild.
      destruct (recurse (FsDir listing) _ _ acc) as [acc'|e]; simpl;
        [apply IH|reflexivity].
  - simpl. destruct (Z.of_nat (length acc) >=? maxFiles)%Z; [reflexivity|].
    apply IH.
Qed.

Lemma readDirectoryRecursive_hide_skipped other dir :
  forall dirPath relDir acc maxFiles,
    readDirectoryRecursive extname toLowerCase (hide_skipped other dir)
      dirPath relDir acc maxFiles
    = readDirectoryRecursive extname toLowerCase dir dirPath relDir acc
        maxFiles.
Proof.
  induction dir as [stat read|entries IH|e|] using FsNode_nested_ind;
    intros dirPath relDir acc maxFiles; try reflexivity.
  simpl. destruct (Z.of_nat (length acc) >=? maxFiles)%Z; [reflexivity|].
  apply read_entries_hide_skipped.
  eapply List.Forall_impl; [|exact IH].
  intros [name child] Hc fullPath rel acc'. simpl. apply Hc.
Qed.

End ReaderSteps.

(** X13. The reader never opens a skipped directory (node_modules, .git,
    dist, ...) below the root: whatever such directories hold, and whether
    or not they can be listed, the read gives the same files or the same
    error. *)
Theorem skipped_directories_are_never_opened
    (extname toLowerCase : jsstring -> jsstring)
    (other : Result (list (jsstring * FsNode)))
    (listing : Result (list (jsstring * FsNode))) (p : jsstring) :
  readFilesFromPath extname toLowerCase
    (Some (hide_skipped other (FsDir listing))) p
  = readFilesFromPath extname toLowerCase (Some (FsDir listing)) p.
Proof.
  pose proof (readDirectoryRecursive_hide_skipped extname toLowerCase other
                (FsDir listing) p [] [] DEFAULT_MAX_FILES) as H.
  destruct listing as [entries|e]; exact H.
Qed.

(** X14. Below the limit, a directory that cannot be listed and is not on
    the skip list makes the whole read throw, with the error of the
    listing; a file that cannot be inspected or read is passed over, as if
    it were not there. *)
Theorem unreadable_directory_aborts_the_read
    (extname toLowerCase : jsstring -> jsstring)
    (before after : list (jsstring * FsNode)) (name e : jsstring)
    (dirPath relDir : jsstring) (acc files : list ParsedFile) (maxFiles : Z) :
  readDirectoryRecursive extname toLowerCase (FsDir (Ok before)) dirPath relDir
    acc maxFiles = Ok files ->
  (Z.of_nat (length files) < maxFiles)%Z ->
  set_has SKIP_DIRECTORIES name = false ->
  readDirectoryRecursive extname toLowerCase
    (FsDir (Ok (before ++ (name, FsDir (Throw e)) :: after)))
    dirPath relDir acc maxFiles = Throw e
  /\ (forall stat read,
        (exists e', stat = Throw e') \/ (exists e', read = Throw e') ->
        readDirectoryRecursive extname toLowerCase
          (FsDir (Ok (before ++ (name, FsFile stat read) :: after)))
          dirPath relDir acc maxFiles
        = readDirectoryRecursive extname toLowerCase
            (FsDir (Ok (before ++ after))) dirPath relDir acc maxFiles).
Proof.
  intros Hbefore Hlt Hskip. simpl in *.
  destruct (Z.geb_spec (Z.of_nat (length acc)) maxFiles) as [Hge|Hacc].
  - injection Hbefore as <-. lia.
  - split.
    + rewrite read_entries_app, Hbefore. simpl.
      destruct (Z.geb_spec (Z.of_nat (length files)) maxFiles); [lia|].
      rewrite Hskip. simpl.
      destruct (Z.geb_spec (Z.of_nat (length files)) maxFiles); [lia|].
      reflexivity.
    + intros stat read Hthrow.
      rewrite !read_entries_app, Hbefore. simpl.
      destruct (Z.geb_spec (Z.of_nat (length files)) maxFiles); [lia|].
      assert (Hsame : read_file_entry extname toLowerCase
                        (entry_full dirPath name) (entry_relative relDir name)
                        stat read files = files).
      { unfold read_file_entry. destruct Hthrow as [[e' ->]|[e' ->]];
          [reflexivity|].
        destruct stat as [sz|]; [|reflexivity].
        now destruct (shouldIncludeFile _ _ _ sz). }
      now rewrite Hsame.
Qed.

(** X14 at work: a directory that cannot be listed between two files. *)
Lemma unreadable_directory_aborts_the_read_witness :
  readDirectoryRecursive posix_extname ascii_toLowerCase
    (FsDir (Ok ([one_source_file "a.ts"]
                ++ (lit "private", FsDir (Throw (lit "EACCES")))
                   :: [one_source_file "b.ts"])))
    (lit "/repo") [] [] 500 = Throw (lit "EACCES").
Proof.
  apply (unreadable_directory_aborts_the_read posix_extname ascii_toLowerCase
           [one_source_file "a.ts"] [one_source_file "b.ts"] (lit "private")
           (lit "EACCES") (lit "/repo") [] []
           [mkFile (lit "a.ts") (lit "x") 1 (lit ".ts")] 500).
  - vm_compute. reflexivity.
  - simpl. lia.
  - vm_compute. reflexivity.
Defined.

(** ** The lock-file test of the reader *)

Lemma startsWith_inv (s p : jsstring) :
  startsWith s p = true -> exists rest, s = p ++ rest.
Proof.
  revert s. induction p as [|c p IH]; intros s H; [now exists s|].
  destruct s as [|d s]; simpl in H; [discriminate|].
  apply andb_true_iff in H as [Hc Hs]. apply N.eqb_eq in Hc as ->.
  destruct (IH s Hs) as [rest ->]. now exists rest.
Qed.

Lemma endsWith_inv (s p : jsstring) :
  endsWith s p = true -> exists front, s = front ++ p.
Proof.
  unfold endsWith. intros H. apply startsWith_inv in H as [rest H].
  exists (rev rest). apply (f_equal (@rev N)) in H.
  now rewrite rev_involutive, rev_app_distr, rev_involutive in H.
Qed.

Lemma endsWith_app (front p : jsstring) : endsWith (front ++ p) p = true.
Proof. unfold endsWith. rewrite rev_app_distr. apply startsWith_app. Qed.

Lemma includes_startsWith (s p : jsstring) :
  startsWith s p = true -> includes s p = true.
Proof. destruct s; simpl; now intros ->. Qed.

Lemma includes_app (front p rest : jsstring) :
  includes (front ++ p ++ rest) p = true.
Proof.
  induction front as [|c front IH]; simpl.
  - apply includes_startsWith, startsWith_app.
  - rewrite IH. apply orb_true_r.
Qed.

Lemma named_or_below (name p : jsstring) :
  bool_decide (p = name) || endsWith p (lit "/" ++ name) = true ->
  includes p name = true /\ last_segment p = last_segment name.
Proof.
  intros H. apply orb_true_iff in H as [H|H].
  - apply bool_decide_eq_true in H as ->. split; [|reflexivity].
    apply includes_startsWith. rewrite <- (app_nil_r name) at 1.
    apply startsWith_app.
  - apply endsWith_inv in H as [front ->]. split.
    + rewrite <- (app_nil_r name) at 1.
      rewrite (app_assoc front (lit "/") (name ++ [])).
      apply includes_app.
    + apply last_segment_after_slash.
Qed.

(** X15. The reader's own lock-file test, [hasPackageLock], is stricter
    than the test the project context uses: whenever it holds, the flag of
    the context holds too. On the files read from a directory it never
    holds, since the reader leaves the lock files out. *)
Theorem reader_lock_test_is_stricter :
  (forall fs, file_reader.hasPackageLock fs = true -> lock_file_seen fs = true)
  /\ (forall extname toLowerCase listing p fs,
        readFilesFromPath extname toLowerCase (Some (FsDir listing)) p = Ok fs ->
        file_reader.hasPackageLock fs = false).
Proof.
  assert (Hcases : forall fs, file_reader.hasPackageLock fs = true ->
    exists f name, In f fs /\ In name [lit "package-lock.json"; lit "yarn.lock";
                                       lit "pnpm-lock.yaml"]
                   /\ includes (path f) name = true
                   /\ last_segment (path f) = last_segment name).
  { intros fs H. unfold file_reader.hasPackageLock in H.
    apply existsb_exists in H as (f & Hf & H).
    rewrite !orb_true_iff in H.
    assert (Hname : exists name,
      In name [lit "package-lock.json"; lit "yarn.lock"; lit "pnpm-lock.yaml"]
      /\ bool_decide (path f = name) || endsWith (path f) (lit "/" ++ name)
         = true).
    { destruct H as [[[[[H|H]|H]|H]|H]|H];
        [ exists (lit "package-lock.json") | exists (lit "package-lock.json")
        | exists (lit "yarn.lock") | exists (lit "yarn.lock")
        | exists (lit "pnpm-lock.yaml") | exists (lit "pnpm-lock.yaml") ];
        (split;
         [ (left; reflexivity) || (right; left; reflexivity)
           || (right; right; left; reflexivity)
         | apply orb_true_iff; (left; exact H) || (right; exact H) ]). }
    destruct Hname as (name & Hname & Hor).
    apply named_or_below in Hor as [Hinc Hlast]. now exists f, name. }
  split.
  - intros fs H. destruct (Hcases fs H) as (f & name & Hf & Hname & Hinc & _).
    unfold lock_file_seen. apply existsb_exists. exists f.
    split; [exact Hf|].
    destruct Hname as [<-|[<-|[<-|[]]]]; rewrite Hinc;
      rewrite ?orb_true_r; reflexivity.
  - intros extname toLowerCase listing p fs Hread.
    change (readDirectoryRecursive extname toLowerCase (FsDir listing) p []
              [] DEFAULT_MAX_FILES = Ok fs) in Hread.
    apply readDirectoryRecursive_no_lock in Hread; [|constructor].
    rewrite List.Forall_forall in Hread.
    destruct (file_reader.hasPackageLock fs) eqn:H; [|reflexivity].
    destruct (Hcases fs H) as (f & name & Hf & Hname & _ & Hlast).
    specialize (Hread f Hf). unfold no_lock_file in Hread.
    rewrite Hlast in Hread.
    destruct Hname as [<-|[<-|[<-|[]]]]; vm_compute in Hread; discriminate.
Qed.

(** ** The audit and the dependency check *)

Lemma runNpmAudit_outcome (env : AuditEnv) (dir : jsstring)
    (includeDev : bool) (timeout : Z) :
  let r := runNpmAudit env dir includeDev timeout in
  (ar_error r = None
   /\ exists stdout report,
        parseReport env stdout = Ok report
        /\ ar_vulnerabilities r = transformAuditResult report
        /\ ar_summary r = metadata_vulnerabilities report)
  \/ (exists message,
        ar_error r = Some message /\ message <> []
        /\ ar_vulnerabilities r = [] /\ ar_summary r = zero_counts).
Proof.
  intros r. subst r. unfold runNpmAudit.
  destruct (negb _ && negb _ && negb _).
  { right. eexists. repeat split. discriminate. }
  destruct (execAsync env _ dir timeout) as [stdout stderr|captured message].
  - destruct (truthy_string stderr && negb (truthy_string stdout)) eqn:Herr.
    + right. exists stderr. repeat split.
      apply andb_true_iff in Herr as [Herr _]. now destruct stderr.
    + destruct (parseReport env stdout) as [report|message] eqn:Hparse.
      * left. split; [reflexivity|]. now exists stdout, report.
      * right. eexists. repeat split. discriminate.
  - assert (Hfail : exists m,
      ar_error (audit_failure message) = Some m /\ m <> []
      /\ ar_vulnerabilities (audit_failure message) = []
      /\ ar_summary (audit_failure message) = zero_counts).
    { eexists. repeat split. discriminate. }
    destruct captured as [stdout|]; [|now right].
    destruct (truthy_string stdout); [|now right].
    destruct (parseReport env stdout) as [report|m] eqn:Hparse; [|now right].
    left. split; [reflexivity|]. now exists stdout, report.
Qed.


(** X17. The audit report is normalized entry by entry, in order: one
    record per package, under the package's name. No record has an empty
    title or an empty description, and a record carries a patched version
    exactly when the report gives a fix object for the package. *)
Theorem transformAuditResult_keeps_every_package (report : NpmAuditResult) :
  List.map packageName (transformAuditResult report)
  = List.map fst (vulnerabilities report)
  /\ List.map version (transformAuditResult report)
     = List.map (fun entry => range (snd entry)) (vulnerabilities report)
  /\ List.map (fun d => bool_decide (patchedVersion d = None))
       (transformAuditResult report)
     = List.map (fun entry => match fixAvailable (snd entry) with
                              | FixBool _ => true
                              | FixObject _ => false
                              end) (vulnerabilities report)
  /\ forall d, In d (transformAuditResult report) ->
       title d <> [] /\ dv_description d <> []
       /\ endsWith (title d) (lit ": " ++ packageName d) = true.
Proof.
  unfold transformAuditResult. rewrite !map_map.
  split; [|split; [|split]].
  - apply map_ext. now intros [name vuln].
  - apply map_ext. now intros [name vuln].
  - apply map_ext. intros [name vuln]. simpl.
    now destruct (fixAvailable vuln).
  - intros d Hd. apply in_map_iff in Hd as ([name vuln] & <- & _).
    unfold transform_entry. cbn [title dv_description packageName].
    split; [now destruct (npm_severity vuln)|]. split.
    + destruct (via vuln) as [entries|]; [|discriminate].
      destruct (join _ _) eqn:Hjoin; simpl; discriminate.
    + apply endsWith_app.
Qed.

(** X18. The dependency check does not run the audit when npm is not
    available: it fails with its own message whatever the directory holds.
    Otherwise it hands on the audit of the given path, made without
    development dependencies unless they are asked for; so it lists no
    vulnerability and counts none whenever it carries an error. *)
Theorem executeCheckDependencies_outcomes (env : CheckEnv)
    (input : CheckDependenciesInput) :
  let r := executeCheckDependencies env input in
  (isNpmAvailable env = false ->
   forall audit,
     executeCheckDependencies (mkCheckEnv (probe env) audit) input
     = mkCheckResult [] zero_counts
         (Some (lit "npm is not available. Please install Node.js/npm."))
         false)
  /\ (isNpmAvailable env = true ->
      let audit :=
        runNpmAudit (check_audit_env env) (cd_path input)
          (bool_decide (cd_includeDevDependencies input = Some true)) 60000 in
      r = mkCheckResult (ar_vulnerabilities audit) (ar_summary audit)
            (ar_error audit) true)
  /\ (cd_error r <> None ->
      cd_vulnerabilities r = [] /\ cd_summary r = zero_counts)
  /\ (cd_error r = None -> npmAvailable r = true).
Proof.
  intros r. subst r. unfold executeCheckDependencies.
  split; [|split; [|split]].
  - intros Hno audit. unfold isNpmAvailable in *. simpl.
    now destruct (probe env _ _).
  - intros ->. simpl. now destruct (cd_includeDevDependencies input) as [[]|].
  - destruct (isNpmAvailable env); simpl; [|easy].
    intros Herr.
    destruct (runNpmAudit_outcome (check_audit_env env)
                (cd_path input)
                (match cd_includeDevDependencies input with
                 | Some b => b
                 | None => false
                 end) 60000) as [[Hnone _]|(m & _ & _ & Hv & Hs)];
      [congruence|easy].
  - destruct (isNpmAvailable env); simpl; [easy|discriminate].
Qed.

(** ** The scan as a whole *)

Section ScanFacts.
Context (extname : jsstring -> jsstring) (toLowerCase : jsstring -> jsstring).

(** The scan in terms of its steps. *)
Lemma executeScanCodebase_steps env input :
  executeScanCodebase extname toLowerCase env input
  = match scan_inputs extname toLowerCase env input with
    | Throw e => (Throw e, [])
    | Ok (fs, basePath) =>
        if bool_decide (fs = []) then (Throw (lit "No files found to scan"), [])
        else
          match detectProjectContext fs with
          | Throw e => (Throw e, [])
          | Ok ctx =>
              let analysis := reported_analysis input fs in
              let depVulns :=
                match audited basePath ctx with
                | base :: _ =>
                    ar_vulnerabilities
                      (runNpmAudit (audit_env env) base false 60000)
                | [] => []
                end in
              let hs := List.map transformHotspot (hotspots analysis) in
              (Ok (mkScanResult hs depVulns ctx
                     (mkScanSummary (totalFiles analysis)
                        (securityRelevantFiles analysis)
                        (Z.of_nat (length (skippedFiles analysis)))
                        (Z.of_nat (length hs))
                        (Z.of_nat (length depVulns)))
                     (endTime env - startTime env)),
               audited basePath ctx)
          end
    end.
Proof.
  unfold executeScanCodebase, reported_analysis, audited.
  destruct (scan_inputs _ _ env input) as [[fs basePath]|e]; simpl;
    [|reflexivity].
  destruct (bool_decide (fs = [])); simpl; [reflexivity|].
  destruct (detectProjectContext fs) as [ctx|e]; simpl; [|reflexivity].
  destruct basePath as [base|]; [|reflexivity].
  destruct (hasPackageLock ctx); [|reflexivity].
  destruct (runNpmAudit_outcome (audit_env env) base false 60000)
    as [[-> _]|(m & -> & Hm & -> & _)]; [reflexivity|].
  now destruct m.
Qed.

End ScanFacts.

(** X19. The summary of a scan is consistent with its result: it counts the
    hotspots and the dependency findings that the result lists, at most six
    hotspots; at least one file was scanned, and the relevant and the
    skipped files together are no more than the files scanned, also when a
    list of categories narrows the hotspots. The duration is the difference
    of the two readings of the clock. *)
Theorem scan_summary_is_consistent
    (extname toLowerCase : jsstring -> jsstring) (env : ScanEnv)
    (input : ScanCodebaseInput) (r : ScanCodebaseResult) :
  fst (executeScanCodebase extname toLowerCase env input) = Ok r ->
  let s := res_summary r in
  hotspotCategories s = Z.of_nat (length (res_hotspots r))
  /\ (length (res_hotspots r) <= 6)%nat
  /\ vulnerableDependencies s = Z.of_nat (length (dependencyVulnerabilities r))
  /\ (1 <= sum_totalFiles s)%Z
  /\ (0 <= sum_securityRelevantFiles s)%Z
  /\ (sum_securityRelevantFiles s + sum_skippedFiles s <= sum_totalFiles s)%Z
  /\ scanDuration r = (endTime env - startTime env)%Z.
Proof.
  rewrite executeScanCodebase_steps.
  destruct (scan_inputs _ _ env input) as [[fs basePath]|e]; [|discriminate].
  destruct (bool_decide (fs = [])) eqn:Hfs; [discriminate|].
  apply bool_decide_eq_false in Hfs.
  destruct (detectProjectContext fs) as [ctx|e]; [|discriminate].
  cbn [fst]. intros [= <-]. cbn.
  destruct (relevant_files_bound fs) as (n & Hsrf & Hle).
  destruct (collect_analysis fs) as (m & _ & Hsk & _ & _ & _).
  pose proof (filter_split_length skip_match fs) as Hsplit.
  pose proof (collect_totalFiles fs) as Htotal.
  pose proof (hotspots_at_most_six fs) as Hsix.
  assert (Hlen : (1 <= length fs)%nat) by (destruct fs; [easy|simpl; lia]).
  assert (Hsame : totalFiles (reported_analysis input fs)
                  = totalFiles (collectSecurityHotspots fs)
                  /\ securityRelevantFiles (reported_analysis input fs)
                     = securityRelevantFiles (collectSecurityHotspots fs)
                  /\ skippedFiles (reported_analysis input fs)
                     = skippedFiles (collectSecurityHotspots fs)
                  /\ (length (hotspots (reported_analysis input fs))
                      <= length (hotspots (collectSecurityHotspots fs)))%nat).
  { unfold reported_analysis.
    destruct (in_categories input) as [[|c cs]|]; simpl;
        repeat split; try lia.
    apply filter_length_le. }
  destruct Hsame as (-> & -> & -> & Hhs).
  rewrite Hsrf, Htotal, Hsk, !length_map. repeat split; try reflexivity; lia.
Qed.

(** X19 at work: the scan of the repository with lock files. *)
Lemma scan_summary_is_consistent_witness :
  let s := res_summary repo_scan_result in
  hotspotCategories s = Z.of_nat (length (res_hotspots repo_scan_result))
  /\ (length (res_hotspots repo_scan_result) <= 6)%nat
  /\ vulnerableDependencies s
     = Z.of_nat (length (dependencyVulnerabilities repo_scan_result))
  /\ (1 <= sum_totalFiles s)%Z
  /\ (0 <= sum_securityRelevantFiles s)%Z
  /\ (sum_securityRelevantFiles s + sum_skippedFiles s <= sum_totalFiles s)%Z
  /\ scanDuration repo_scan_result = (endTime repo_env - startTime repo_env)%Z.
Proof.
  apply (scan_summary_is_consistent posix_extname ascii_toLowerCase repo_env
           scan_repo repo_scan_result).
  vm_compute. reflexivity.
Defined.

(** X20. What a scan reads of its input. The severity threshold is never
    read. A path that is absent or empty is the same as no path: the
    contents given are scanned, nothing is audited, and with no contents
    either the scan throws. A path that is given makes the scan ignore the
    contents given. And a scan that throws has audited nothing. *)
Theorem scan_input_rules
    (extname toLowerCase : jsstring -> jsstring) (env : ScanEnv)
    (p : option jsstring) (inputs : option (list (jsstring * jsstring)))
    (cats : option (list HotspotCategory)) (sev : option Severity) :
  let run := executeScanCodebase extname toLowerCase env in
  (forall sev', run (mkScanInput p inputs cats sev')
                = run (mkScanInput p inputs cats sev))
  /\ (p = None \/ p = Some [] ->
      run (mkScanInput p inputs cats sev)
      = run (mkScanInput None inputs cats sev)
      /\ snd (run (mkScanInput p inputs cats sev)) = []
      /\ (inputs = None \/ inputs = Some [] ->
          run (mkScanInput p inputs cats sev)
          = (Throw (lit "Either path or files must be provided"), [])))
  /\ (forall c rest, p = Some (c :: rest) ->
      forall inputs', run (mkScanInput p inputs' cats sev)
                      = run (mkScanInput p inputs cats sev))
  /\ (forall e, fst (run (mkScanInput p inputs cats sev)) = Throw e ->
                snd (run (mkScanInput p inputs cats sev)) = []).
Proof.
  intros run. subst run. split; [reflexivity|]. split; [|split].
  - intros Hp.
    assert (Hsame : executeScanCodebase extname toLowerCase env
                      (mkScanInput p inputs cats sev)
                    = executeScanCodebase extname toLowerCase env
                        (mkScanInput None inputs cats sev))
      by (destruct Hp as [->| ->]; reflexivity).
    split; [exact Hsame|]. rewrite Hsame. split.
    + now apply content_scan_never_audits.
    + intros [->| ->]; reflexivity.
  - intros c rest -> inputs'. reflexivity.
  - intros e. rewrite executeScanCodebase_steps.
    destruct (scan_inputs _ _ env _) as [[fs basePath]|e']; [|reflexivity].
    destruct (bool_decide (fs = [])); [reflexivity|].
    destruct (detectProjectContext fs) as [ctx|e']; [discriminate|reflexivity].
Qed.

(** X21. A list of categories only narrows the hotspots of the result. The
    scan throws with it exactly when it throws without it, audits the same
    directory, and returns the same context, dependency findings and file
    counts; its hotspots are those of the unrestricted scan whose category
    is in the list, in the same order. An empty list restricts nothing. *)
Theorem scan_categories_only_filter
    (extname toLowerCase : jsstring -> jsstring) (env : ScanEnv)
    (input : ScanCodebaseInput) (cs : list HotspotCategory) :
  let whole :=
    executeScanCodebase extname toLowerCase env (with_categories input None) in
  let narrowed :=
    executeScanCodebase extname toLowerCase env
      (with_categories input (Some cs)) in
  snd narrowed = snd whole
  /\ match fst whole with
     | Throw e => fst narrowed = Throw e
     | Ok r =>
         exists r',
           fst narrowed = Ok r'
           /\ res_hotspots r'
              = match cs with
                | [] => res_hotspots r
                | _ :: _ =>
                    List.filter (fun h => bool_decide (ch_category h ∈ cs))
                      (res_hotspots r)
                end
           /\ hotspotCategories (res_summary r')
              = Z.of_nat (length (res_hotspots r'))
           /\ dependencyVulnerabilities r' = dependencyVulnerabilities r
           /\ projectContext r' = projectContext r
           /\ scanDuration r' = scanDuration r
           /\ sum_totalFiles (res_summary r') = sum_totalFiles (res_summary r)
           /\ sum_securityRelevantFiles (res_summary r')
              = sum_securityRelevantFiles (res_summary r)
           /\ sum_skippedFiles (res_summary r') = sum_skippedFiles (res_summary r)
           /\ vulnerableDependencies (res_summary r')
              = vulnerableDependencies (res_summary r)
     end.
Proof.
  intros whole narrowed. subst whole narrowed.
  rewrite !executeScanCodebase_steps.
  change (scan_inputs extname toLowerCase env (with_categories input (Some cs)))
    with (scan_inputs extname toLowerCase env (with_categories input None)).
  destruct (scan_inputs _ _ env _) as [[fs basePath]|e]; [|now split].
  destruct (bool_decide (fs = [])); [now split|].
  destruct (detectProjectContext fs) as [ctx|e]; [|now split].
  split; [reflexivity|]. cbn [fst]. eexists. split; [reflexivity|].
  unfold reported_analysis. cbn.
  destruct cs as [|c cs]; [repeat split; now rewrite ?length_map|].
  cbn. rewrite !length_map. repeat split.
  symmetry. apply (filter_map_comm transformHotspot
                     (fun h => bool_decide (ch_category h ∈ c :: cs))).
Qed.

(** X22. The environment of the audit bears on the dependency findings
    and on nothing else: a scan throws, returns hotspots, context and file
    counts, and chooses the directory to audit, all regardless of it. The
    findings are those of the audit of that directory, run without
    development dependencies; they are none when no directory is audited
    or when the audit carries an error, which the result does not
    report. *)
Theorem audit_only_bears_on_dependency_findings
    (extname toLowerCase : jsstring -> jsstring) (env : ScanEnv)
    (other : AuditEnv) (input : ScanCodebaseInput) :
  let env' := mkScanEnv (lookup_path env) other (startTime env) (endTime env) in
  let run := executeScanCodebase extname toLowerCase in
  snd (run env' input) = snd (run env input)
  /\ match fst (run env input) with
     | Throw e => fst (run env' input) = Throw e
     | Ok r =>
         (exists r',
            fst (run env' input) = Ok r'
            /\ res_hotspots r' = res_hotspots r
            /\ projectContext r' = projectContext r
            /\ scanDuration r' = scanDuration r
            /\ sum_totalFiles (res_summary r') = sum_totalFiles (res_summary r)
            /\ sum_securityRelevantFiles (res_summary r')
               = sum_securityRelevantFiles (res_summary r)
            /\ sum_skippedFiles (res_summary r')
               = sum_skippedFiles (res_summary r)
            /\ hotspotCategories (res_summary r')
               = hotspotCategories (res_summary r))
         /\ match snd (run env input) with
            | [] => dependencyVulnerabilities r = []
            | base :: _ =>
                let audit := runNpmAudit (audit_env env) base false 60000 in
                in_path input = Some base
                /\ dependencyVulnerabilities r = ar_vulnerabilities audit
                /\ (ar_error audit <> None -> dependencyVulnerabilities r = [])
            end
     end.
Proof.
  intros env' run. subst env' run. rewrite !executeScanCodebase_steps.
  change (scan_inputs extname toLowerCase
            (mkScanEnv (lookup_path env) other (startTime env) (endTime env))
            input)
    with (scan_inputs extname toLowerCase env input).
  destruct (scan_inputs _ _ env input) as [[fs basePath]|e] eqn:Hin;
    [|now split].
  destruct (bool_decide (fs = [])); [now split|].
  destruct (detectProjectContext fs) as [ctx|e]; [|now split].
  split; [reflexivity|]. cbn [fst snd]. split.
  - eexists. split; [reflexivity|]. cbn. repeat split.
  - unfold audited. destruct basePath as [base|]; [|reflexivity].
    destruct (hasPackageLock ctx); [|reflexivity]. cbn.
    split; [|split; [reflexivity|]].
    + unfold scan_inputs in Hin.
      destruct (in_path input) as [[|c q]|].
      * destruct (in_files input) as [[|f fs']|]; congruence.
      * destruct (readFilesFromPath _ _ _ _); simpl in Hin; congruence.
      * destruct (in_files input) as [[|f fs']|]; congruence.
    + intros Herr.
      destruct (runNpmAudit_outcome (audit_env env) base false 60000)
        as [[Hnone _]|(m & _ & _ & Hv & _)]; [congruence|exact Hv].
Qed.

(** ** The project context *)

Lemma any_key_object keys ms :
  any_key keys (JObject ms)
  = Ok (existsb (fun k => match lookup_member k ms with
                          | Some _ => true
                          | None => false
                          end) keys).
Proof.
  induction keys as [|k keys IH]; simpl; [reflexivity|].
  destruct (lookup_member k ms); [reflexivity|exact IH].
Qed.

Lemma any_key_array keys elements : any_key keys (JArray elements) = Ok false.
Proof. induction keys as [|k keys IH]; simpl; [reflexivity|exact IH]. Qed.

Lemma any_key_primitive k keys v :
  is_primitive v = true -> any_key (k :: keys) v = Throw (lit "TypeError").
Proof. now destruct v. Qed.

Lemma first_of_returns {V} (table : list (list jsstring * V)) v :
  is_primitive v = false -> exists r, first_of table v = Ok r.
Proof.
  intros Hv. induction table as [|[keys x] table [r IH]]; simpl; [eauto|].
  destruct v as [| | | |elements|ms]; try discriminate.
  - rewrite any_key_array. simpl. eauto.
  - rewrite any_key_object. simpl. destruct (existsb _ keys); eauto.
Qed.

Lemma first_of_array {V} (table : list (list jsstring * V)) elements :
  first_of table (JArray elements) = Ok None.
Proof.
  induction table as [|[keys x] table IH]; simpl; [reflexivity|].
  now rewrite any_key_array.
Qed.

(** X23. [detectProjectContext] throws exactly when the manifest declares
    dependencies that are a truthy primitive (a non-empty string, a
    non-zero number, true): the field is then searched with the in
    operator. In every other case it returns a context, whose
    [hasPackageJson] tells whether a manifest was found that parses to a
    truthy value; with no such manifest, or with dependencies that are
    absent, falsy or an array, no framework, database or auth provider is
    detected. *)
Theorem detectProjectContext_outcomes (fs : list ParsedFile) :
  let manifest := getPackageJson fs in
  let deps := dependencies_of manifest in
  (is_primitive deps = true ->
   detectProjectContext fs = Throw (lit "TypeError"))
  /\ (is_primitive deps = false ->
      exists ctx,
        detectProjectContext fs = Ok ctx
        /\ hasPackageJson ctx = truthy manifest
        /\ hasPackageLock ctx = lock_file_seen fs)
  /\ (deps = JObject [] \/ (exists elements, deps = JArray elements) ->
      exists ts,
        detectProjectContext fs
        = Ok (mkProjectContext (truthy manifest) (lock_file_seen fs)
                None None None ts))
  /\ (truthy manifest = false -> deps = JObject []).
Proof.
  intros manifest deps. unfold detectProjectContext.
  fold manifest. fold deps. split; [|split; [|split]].
  - intros Hp. cbn [first_of]. now rewrite any_key_primitive.
  - intros Hp.
    repeat match goal with
           | |- context [bind (first_of ?t deps) _] =>
               destruct (first_of_returns t deps Hp) as [? ->]; cbn [bind]
           end.
    eexists. split; [reflexivity|]. split; reflexivity.
  - intros [->|[elements ->]].
    + eexists. reflexivity.
    + rewrite !first_of_array. eexists. reflexivity.
  - subst deps. unfold dependencies_of. now destruct manifest.
Qed.

Lemma first_of_object {V} (table : list (list jsstring * V)) ms :
  first_of table (JObject ms)
  = Ok (option_map snd
          (List.find
             (fun row =>
                existsb (fun k => match lookup_member k ms with
                                  | Some _ => true
                                  | None => false
                                  end) (fst row)) table)).
Proof.
  induction table as [|[keys x] table IH]; simpl; [reflexivity|].
  rewrite any_key_object. simpl. destruct (existsb _ keys); [reflexivity|].
  exact IH.
Qed.

(** X24. How the context is chosen when the manifest declares several
    packages. next makes the framework nextjs whatever else is declared,
    and react counts only when next, express, @nestjs/core and fastify are
    all absent; no framework is detected exactly when the five are absent.
    firebase makes the database firebase, and the auth provider too unless
    @clerk/nextjs, auth0, @auth0/nextjs-auth0 or next-auth is declared. *)
Theorem detection_follows_the_order_of_the_chain (fs : list ParsedFile)
    (ms : list (jsstring * JsValue)) (ctx : ProjectContext) :
  dependencies_of (getPackageJson fs) = JObject ms ->
  detectProjectContext fs = Ok ctx ->
  (declares ms "next" = true -> framework ctx = Some fw_nextjs)
  /\ (framework ctx = Some fw_react <->
      declares ms "react" = true
      /\ declares ms "next" || declares ms "express"
         || declares ms "@nestjs/core" || declares ms "fastify" = false)
  /\ (framework ctx = None <->
      declares ms "next" || declares ms "express"
      || declares ms "@nestjs/core" || declares ms "fastify"
      || declares ms "react" = false)
  /\ (declares ms "firebase" = true ->
      database ctx = Some db_firebase
      /\ (declares ms "@clerk/nextjs" || declares ms "auth0"
          || declares ms "@auth0/nextjs-auth0" || declares ms "next-auth"
          = false ->
          authProvider ctx = Some ap_firebase)).
Proof.
  intros Hdeps. unfold detectProjectContext. rewrite Hdeps.
  rewrite !first_of_object. cbn [bind]. intros [= <-].
  cbn [framework database authProvider List.find existsb fst snd option_map].
  fold (declares ms "next") (declares ms "express")
    (declares ms "@nestjs/core") (declares ms "fastify") (declares ms "react")
    (declares ms "firebase") (declares ms "@firebase/app")
    (declares ms "@clerk/nextjs") (declares ms "auth0")
    (declares ms "@auth0/nextjs-auth0") (declares ms "next-auth").
  destruct (declares ms "next"), (declares ms "express"),
    (declares ms "@nestjs/core"), (declares ms "fastify"),
    (declares ms "react"), (declares ms "firebase"),
    (declares ms "@clerk/nextjs"), (declares ms "auth0"),
    (declares ms "@auth0/nextjs-auth0"), (declares ms "next-auth");
    cbn; repeat split; intros; try discriminate; try reflexivity;
    intuition discriminate.
Qed.

(** X24 at work: a manifest that declares next. *)
Lemma detection_follows_the_order_of_the_chain_witness :
  framework (mkProjectContext true false (Some fw_nextjs) None None false)
  = Some fw_nextjs.
Proof.
  apply (detection_follows_the_order_of_the_chain [next_manifest]
           [(lit "next", JString (lit "14.0.0"))]
           (mkProjectContext true false (Some fw_nextjs) None None false));
    vm_compute; reflexivity.
Defined.

(** ** The OWASP tables *)

(** X25. Every category of the two OWASP tables is found again by its id,
    and what [getOWASPCategory] finds carries the id asked for; every id
    that [FINDING_TO_OWASP] lists is the id of a category of the tables.
    None of the keys of [FINDING_TO_OWASP] is the name of a hotspot
    category. *)
Theorem owasp_tables_are_consistent :
  (forall c, In c (OWASP_TOP_10_WEB ++ OWASP_API_TOP_10) ->
             getOWASPCategory (owasp_id c) = Some c)
  /\ (forall id c, getOWASPCategory id = Some c ->
                   owasp_id c = id
                   /\ In c (OWASP_TOP_10_WEB ++ OWASP_API_TOP_10))
  /\ (forall key ids id,
        In (key, ids) FINDING_TO_OWASP -> In id ids ->
        exists c, getOWASPCategory id = Some c)
  /\ (forall category, finding_to_owasp (category_name category) = []).
Proof.
  split; [|split; [|split]].
  - intros c Hc. unfold OWASP_TOP_10_WEB, OWASP_API_TOP_10 in Hc.
    cbn [app In] in Hc.
    repeat (destruct Hc as [<-|Hc]; [vm_compute; reflexivity|]).
    destruct Hc.
  - intros id c H. unfold getOWASPCategory in H.
    apply find_some in H as [Hin Hid].
    now apply bool_decide_eq_true in Hid.
  - assert (H : forallb
                  (fun row =>
                     forallb
                       (fun id => match getOWASPCategory id with
                                  | Some _ => true
                                  | None => false
                                  end) (snd row))
                  FINDING_TO_OWASP = true)
      by (vm_compute; reflexivity).
    rewrite forallb_forall in H. intros key ids id Hrow Hid.
    specialize (H _ Hrow). rewrite forallb_forall in H.
    specialize (H id Hid). destruct (getOWASPCategory id); [eauto|discriminate].
  - intros category. destruct category; vm_compute; reflexivity.
Qed.

(** ** The system prompt *)





(** X28. A scan of contents given directly looks at nothing outside its
    input but the clock: it returns the same result whatever the file
    system holds and whatever the audit would answer, and audits nothing.
    Each file is scanned under the path given for it, with the length of
    its content as its size. *)
Theorem content_scan_reads_only_its_input
    (extname toLowerCase : jsstring -> jsstring) (env : ScanEnv)
    (tree : jsstring -> option FsNode) (other : AuditEnv)
    (inputs : option (list (jsstring * jsstring)))
    (cats : option (list HotspotCategory)) (sev : option Severity) :
  let input := mkScanInput None inputs cats sev in
  executeScanCodebase extname toLowerCase
    (mkScanEnv tree other (startTime env) (endTime env)) input
  = executeScanCodebase extname toLowerCase env input
  /\ snd (executeScanCodebase extname toLowerCase env input) = []
  /\ forall given,
       List.map (fun f => (path f, content f))
         (parseFileInputs extname toLowerCase given) = given
       /\ forall f, In f (parseFileInputs extname toLowerCase given) ->
                    size f = jslength (content f).
Proof.
  intros input. subst input. split; [|split].
  - rewrite !executeScanCodebase_steps. unfold scan_inputs. cbn [in_path in_files].
    destruct inputs as [[|f inputs]|]; reflexivity.
  - now apply content_scan_never_audits.
  - intros given. unfold parseFileInputs. split.
    + rewrite map_map. cbn [path content].
      rewrite <- (map_id given) at 2. apply map_ext. now intros [q text].
    + intros f Hf. apply in_map_iff in Hf as ([q text] & <- & _). reflexivity.
Qed.

Lemma includes_empty (s : jsstring) : includes s [] = true.
Proof. apply includes_startsWith. now destruct s. Qed.

(** X29. The search of the OWASP tables by topic compares in lower case:
    two topics that lower-case alike find the same categories. It returns
    categories of the two tables only, and the empty topic finds all
    twenty, the web table first. *)
Theorem getRelevantOWASP_by_topic (toLowerCase : jsstring -> jsstring)
    (topic : jsstring) :
  (forall topic', toLowerCase topic' = toLowerCase topic ->
     getRelevantOWASP toLowerCase topic' = getRelevantOWASP toLowerCase topic)
  /\ (forall c, In c (getRelevantOWASP toLowerCase topic) ->
        In c (OWASP_TOP_10_WEB ++ OWASP_API_TOP_10)
        /\ (includes (toLowerCase (owasp_name c)) (toLowerCase topic) = true
            \/ includes (toLowerCase (owasp_description c)) (toLowerCase topic)
               = true))
  /\ (toLowerCase topic = [] ->
      getRelevantOWASP toLowerCase topic
      = OWASP_TOP_10_WEB ++ OWASP_API_TOP_10
      /\ length (getRelevantOWASP toLowerCase topic) = 20%nat).
Proof.
  unfold getRelevantOWASP. split; [|split].
  - now intros topic' ->.
  - intros c Hc. apply filter_In in Hc as [Hin Hm].
    split; [exact Hin|]. now apply orb_true_iff in Hm.
  - intros ->.
    assert (Hall : List.filter
                     (fun c => includes (toLowerCase (owasp_name c)) []
                               || includes (toLowerCase (owasp_description c)) [])
                     (OWASP_TOP_10_WEB ++ OWASP_API_TOP_10)
                   = OWASP_TOP_10_WEB ++ OWASP_API_TOP_10).
    { apply forallb_filter_id, forallb_forall. intros c _.
      now rewrite includes_empty. }
    rewrite Hall. split; reflexivity.
Qed.
